(** * SoundAnalyzer: a shallow embedding of the feature / fingerprint engine

    Sources embedded here:
    - [src/src/AnalyzerConfig.h]  (types and default constants),
    - [src/src/SoundAnalyzer.h]   (struct AnalyzerConfig, class Analyzer,
                                   signatureHash),
    - [src/src/Analyzer.cpp]      (defaultConfig, setConfig, getConfig, Begin,
                                   End, rms, decibelSPL, doFft, getSignature,
                                   getSignatureHash, getFeatures, getMfcc,
                                   getPitch),
    - [src/src/YIN.h]             (class YIN),
    - [src/src/MFCC.h]            (class MFCC: its constructor with the mel
                                   filter bank, and the computation on a
                                   frame).

    Conventions.  The target is the ESP32 (Arduino.h, ESP_fft.h): [unsigned],
    [unsigned long], [size_t], [int] and [long] are 32 bits wide, [unsigned
    short] is 16 bits wide, [float] is IEEE-754 binary32 and [double] is
    binary64.  Integers are modelled as [Z] with the wrap-around written out.
    Floating-point values are [spec_float] of the Standard Library, with
    the operations instantiated at (prec, emax) = (24, 128) for [float] and
    (53, 1024) for [double]; every operation rounds to nearest, ties to even.
    Behaviour that C++ leaves undefined (reading or writing outside an array,
    dereferencing a null pointer, integer division by zero, converting a
    floating-point value that does not fit to an integer type, overflow of
    an [int] operation, an array of negative size) is a fault: the modelled
    function returns [None].

    The functions of the C library that IEEE-754 does not define ([log],
    [exp], [pow], [log10], [cos]) are parameters.  C++ chooses among their
    overloads by the type of the argument: called on a [double] (or with an
    integer among two arguments, as [pow(x, 2)]) the function is the one of
    math.h, on [double]; called on a [float] it is the [float] overload of
    cmath, a function of its own, written [logf] and [cosf] here.  [fabs],
    [sqrt], [floor] and [round] are exact or correctly rounded and are defined
    here. *)

From Stdlib Require Import ZArith List Bool Lia PeanoNat.
From Stdlib Require Import SpecFloat.
Import ListNotations.

Local Open Scope Z_scope.

(** ** A small error monad for faulting code *)

Definition bind {A B : Type} (m : option A) (k : A -> option B) : option B :=
  match m with
  | Some a => k a
  | None => None
  end.

Notation "x <- m ;; k" := (bind m (fun x => k))
  (at level 61, m at next level, right associativity).
Notation "' p <- m ;; k" := (bind m (fun x => match x with p => k end))
  (at level 61, p pattern, m at next level, right associativity).

Definition guard (b : bool) : option unit := if b then Some tt else None.

(** ** Machine integers *)

Definition UINT_BITS : Z := 32.
Definition wrap (bits x : Z) : Z := x mod 2 ^ bits.
Definition u32 (x : Z) : Z := wrap UINT_BITS x.

(** [int]: an [unsigned] or [size_t] value converted to [int] keeps its bits;
    an [int] operation whose result does not fit is undefined; [a / b]
    truncates toward zero *)
Definition INT_MIN : Z := - 2 ^ 31.
Definition INT_MAX : Z := 2 ^ 31 - 1.

Definition to_int32 (x : Z) : Z :=
  if u32 x <=? INT_MAX then u32 x else u32 x - 2 ^ UINT_BITS.

Definition int32 (z : Z) : option Z :=
  if (INT_MIN <=? z) && (z <=? INT_MAX) then Some z else None.

Definition int32_div (a b : Z) : option Z :=
  if b =? 0 then None else int32 (Z.quot a b).

(** ** IEEE-754 arithmetic *)

Module IEEE.

Section Format.
Variables prec emax : Z.

Definition add := SFadd prec emax.
Definition sub := SFsub prec emax.
Definition mul := SFmul prec emax.
Definition div := SFdiv prec emax.
Definition sqrt := SFsqrt prec emax.

(** conversion of an integer, as in [(float)i] *)
Definition of_Z (z : Z) : spec_float := binary_normalize prec emax z 0 false.

(** conversion of a value of a wider format, as in [float x = d;] *)
Definition round (x : spec_float) : spec_float :=
  match x with
  | S754_finite s m e => binary_normalize prec emax (cond_Zopp s (Zpos m)) e s
  | _ => x
  end.

(** libm [floor]: the largest integer not above [x], which is exact *)
Definition floor (x : spec_float) : spec_float :=
  match x with
  | S754_finite s m e =>
      if 0 <=? e then x
      else binary_normalize prec emax
             (Z.shiftr (cond_Zopp s (Zpos m)) (- e)) 0 false
  | _ => x
  end.
End Format.

Definition zero : spec_float := S754_zero false.

Definition eqb := SFeqb.
Definition ltb := SFltb.
Definition gtb (x y : spec_float) := SFltb y x.
Definition fabs := SFabs.

(** truncation toward zero, the value part of a float-to-integer cast *)
Definition trunc (x : spec_float) : option Z :=
  match x with
  | S754_zero _ => Some 0
  | S754_finite s m e =>
      Some (cond_Zopp s (if 0 <=? e then Z.shiftl (Zpos m) e
                         else Z.shiftr (Zpos m) (- e)))
  | _ => None
  end.

(** libm [round]: nearest integer, halfway cases away from zero *)
Definition round_half_away (x : spec_float) : option Z :=
  match x with
  | S754_zero _ => Some 0
  | S754_finite s m e =>
      Some (cond_Zopp s
              (if 0 <=? e then Z.shiftl (Zpos m) e
               else Z.shiftr (Z.shiftr (Zpos m) (- e - 1) + 1) 1))
  | _ => None
  end.

(** a cast to an integer type with the given range is defined only when the
    truncated value fits *)
Definition in_range (lo hi : Z) (z : Z) : option Z :=
  if (lo <=? z) && (z <=? hi) then Some z else None.

Definition to_int (x : spec_float) : option Z :=
  z <- trunc x ;; in_range (- 2 ^ 31) (2 ^ 31 - 1) z.

(** an infinity or a NaN *)
Definition nonfinite (x : spec_float) : bool :=
  match x with
  | S754_infinity _ | S754_nan => true
  | _ => false
  end.

End IEEE.

(** [float] *)
Module F32.
Definition t := spec_float.
Definition prec : Z := 24.
Definition emax : Z := 128.
Definition add : t -> t -> t := IEEE.add prec emax.
Definition sub : t -> t -> t := IEEE.sub prec emax.
Definition mul : t -> t -> t := IEEE.mul prec emax.
Definition div : t -> t -> t := IEEE.div prec emax.
Definition of_Z : Z -> t := IEEE.of_Z prec emax.
(** [(float)d] for a [double] d *)
Definition of_double : spec_float -> t := IEEE.round prec emax.
Definition floor : t -> t := IEEE.floor prec emax.
Definition sq (x : t) : t := mul x x.
End F32.

(** [double] *)
Module F64.
Definition t := spec_float.
Definition prec : Z := 53.
Definition emax : Z := 1024.
Definition add : t -> t -> t := IEEE.add prec emax.
Definition sub : t -> t -> t := IEEE.sub prec emax.
Definition mul : t -> t -> t := IEEE.mul prec emax.
Definition div : t -> t -> t := IEEE.div prec emax.
Definition sqrt : t -> t := IEEE.sqrt prec emax.
Definition floor : t -> t := IEEE.floor prec emax.
Definition of_Z : Z -> t := IEEE.of_Z prec emax.
(** [(double)f] for a [float] f: every binary32 value is a binary64 value *)
Definition of_float (x : F32.t) : t := x.
End F64.


(** ** Arrays *)

(** [a[i] = x]; writing outside the array is a fault *)
Fixpoint upd_nth {A : Type} (i : nat) (x : A) (l : list A) : option (list A) :=
  match l, i with
  | [], _ => None
  | _ :: tl, O => Some (x :: tl)
  | hd :: tl, S i' => tl' <- upd_nth i' x tl ;; Some (hd :: tl')
  end.

(** [a[i]] for a C index held in a [Z] *)
Definition rd {A : Type} (l : list A) (i : Z) : option A :=
  if i <? 0 then None else nth_error l (Z.to_nat i).

Definition wr {A : Type} (l : list A) (i : Z) (x : A) : option (list A) :=
  if i <? 0 then None else upd_nth (Z.to_nat i) x l.

(** the values [lo, lo+1, ..., hi-1] of a loop counter *)
Definition indices (lo hi : Z) : list Z :=
  map (fun k => lo + Z.of_nat k) (seq 0 (Z.to_nat (hi - lo))).

(** ** The heap: [new] and [delete]

    An owning pointer is [None] (nullptr) or the address of the object
    together with the object's current contents.  [new] takes the next fresh
    address; whether an allocation succeeds is decided by the environment,
    given as the list [alloc_plan] of the outcomes of the coming allocations
    (an exhausted list means that memory is available).  As the source
    does, a failed [new] is taken to yield nullptr. *)

Record Heap := mkHeap {
  next_addr : nat;
  live : list nat;
  alloc_plan : list bool
}.

Definition ptr (A : Type) : Type := option (nat * A).

Definition addr_of {A : Type} (p : ptr A) : option nat :=
  match p with Some (a, _) => Some a | None => None end.

Definition is_null {A : Type} (p : ptr A) : bool :=
  match p with Some _ => false | None => true end.

Definition new {A : Type} (h : Heap) (init : A) : ptr A * Heap :=
  match alloc_plan h with
  | false :: plan => (None, mkHeap (next_addr h) (live h) plan)
  | true :: plan =>
      (Some (next_addr h, init),
       mkHeap (S (next_addr h)) (next_addr h :: live h) plan)
  | [] =>
      (Some (next_addr h, init),
       mkHeap (S (next_addr h)) (next_addr h :: live h) [])
  end.

(** [if (p) { delete p; p = nullptr; }] *)
Definition delete {A : Type} (h : Heap) (p : ptr A) : Heap :=
  match p with
  | Some (a, _) =>
      mkHeap (next_addr h) (filter (fun b => negb (Nat.eqb a b)) (live h))
             (alloc_plan h)
  | None => h
  end.

(** contents of a freshly allocated [float] array: the values are
    indeterminate in C++; the model fills the array with NaN *)
Definition new_floats (n : Z) : list F32.t := repeat S754_nan (Z.to_nat n).
Definition new_ushorts (n : Z) : list Z := repeat 0 (Z.to_nat n).

(** ** YIN.h: the pitch estimator *)

Module YIN.

(** The members of [class YIN].  [minPeriod], set by [setMaxFrequency], is
    left out: no member function reads it ([getPeriodCandidate] declares a
    local [minPeriod = 30] of its own). *)
Record t := mk {
  prevPeriodEstimate : F32.t;
  fs : Z;                     (* int *)
  framesz : Z;                (* size_t *)
  delta : list F32.t          (* float[framesz/2] *)
}.

(** [YIN(size_t samplingFrequency, size_t len)] *)
Definition create (samplingFrequency len : Z) : t :=
  mk (F32.of_Z 1) samplingFrequency len (new_floats (len / 2)).

(** [periodToPitch] *)
Definition periodToPitch (y : t) (period : F32.t) : F32.t :=
  F32.div (F32.of_Z (fs y)) period.

(** the inner loop of [cumulativeMeanNormalisedDifferenceFunction]:
    [for (j = 0; j < L; j++) { diff = frame[j] - frame[j + tau];
                               *deltaPointer += diff * diff; }] *)
Fixpoint sumSquaredDifferences (frame : list F32.t) (tau : nat)
         (js : list nat) (acc : F32.t) : option F32.t :=
  match js with
  | [] => Some acc
  | j :: js' =>
      a <- nth_error frame j ;;
      b <- nth_error frame (j + tau) ;;
      let diff := F32.sub a b in
      sumSquaredDifferences frame tau js' (F32.add acc (F32.mul diff diff))
  end.

(** the outer loop over the lags [tau]; returns the entries
    [delta[tau], delta[tau+1], ...] it has written *)
Fixpoint differenceLoop (frame : list F32.t) (L : nat) (taus : list nat)
         (cumulativeSum : F32.t) : option (list F32.t) :=
  match taus with
  | [] => Some []
  | tau :: taus' =>
      d <- sumSquaredDifferences frame tau (seq 0 L) IEEE.zero ;;
      let cumulativeSum' := F32.add cumulativeSum d in
      let d' := if IEEE.gtb cumulativeSum' IEEE.zero
                then F32.div (F32.mul d (F32.of_Z (Z.of_nat tau))) cumulativeSum'
                else d in
      rest <- differenceLoop frame L taus' cumulativeSum' ;;
      Some (d' :: rest)
  end.

(** [cumulativeMeanNormalisedDifferenceFunction]: the new contents of
    [delta]; the final [delta[0] = 1.] faults on an empty array *)
Definition cumulativeMeanNormalisedDifferenceFunction (y : t)
           (frame : list F32.t) : option (list F32.t) :=
  let L := Z.to_nat (framesz y / 2) in
  d <- differenceLoop frame L (seq 0 L) IEEE.zero ;;
  upd_nth 0 (F32.of_Z 1) d.

(** the test [(delta[i] < delta[i - 1]) && (delta[i] < delta[i + 1])] *)
Definition isLocalMinimum (delta : list F32.t) (i : Z) : option bool :=
  di <- rd delta i ;;
  dp <- rd delta (i - 1) ;;
  if IEEE.ltb di dp
  then dn <- rd delta (i + 1) ;; Some (IEEE.ltb di dn)
  else Some false.

(** [(long)round(prevPeriodEstimate)] *)
Definition roundToLong (x : F32.t) : option Z :=
  z <- IEEE.round_half_away x ;; IEEE.in_range (- 2 ^ 31) (2 ^ 31 - 1) z.

Fixpoint searchLoop (delta : list F32.t) (half : Z) (cands : list Z)
         (newMinima : Z) : option Z :=
  match cands with
  | [] => Some newMinima
  | i :: cands' =>
      if (0 <? i) && (i <? half - 1)
      then m <- isLocalMinimum delta i ;;
           searchLoop delta half cands' (if m then i else newMinima)
      else searchLoop delta half cands' newMinima
  end.

(** [searchForOtherRecentMinima]: the last strict local minimum among the
    lags prevEst-1, prevEst, prevEst+1, or -1.  The counter of
    [for (long i = prevEst - 1; i <= prevEst + 1; i++)] is a [long]: its
    first value, the bound, and the value prevEst+2 that the last [i++]
    leaves must all be in range. *)
Definition searchForOtherRecentMinima (y : t) (delta : list F32.t)
  : option Z :=
  prevEst <- roundToLong (prevPeriodEstimate y) ;;
  _ <- IEEE.in_range (- 2 ^ 31) (2 ^ 31 - 1) (prevEst - 1) ;;
  _ <- IEEE.in_range (- 2 ^ 31) (2 ^ 31 - 1) (prevEst + 1) ;;
  _ <- IEEE.in_range (- 2 ^ 31) (2 ^ 31 - 1) (prevEst + 2) ;;
  searchLoop delta (framesz y / 2) [prevEst - 1; prevEst; prevEst + 1] (-1).

(** [float thresh = 0.1] and [float minVal = 100000] *)
Definition thresh : F32.t :=
  F32.of_double (F64.div (F64.of_Z 1) (F64.of_Z 10)).
Definition minVal0 : F32.t := F32.of_Z 100000.

(** the loop of [getPeriodCandidate] at lag [i], with the bound [hi]:
    [for (i = minPeriod; i < (framesz/2) - 1; i++) {...}] with its [break];
    leaving the loop without a candidate yields [minInd].  Every turn reads
    [delta[i]], so that the loop makes at most [length delta] turns before
    it reads past the array: [fuel] counts the turns. *)
Fixpoint candidateLoop (fuel : nat) (delta : list F32.t) (i hi : Z)
         (minVal : F32.t) (minInd : Z) : option Z :=
  if i <? hi then
    match fuel with
    | O => None
    | S fuel' =>
        di <- rd delta i ;;
        let minVal' := if IEEE.ltb di minVal then di else minVal in
        let minInd' := if IEEE.ltb di minVal then i else minInd in
        if IEEE.ltb di thresh
        then m <- isLocalMinimum delta i ;;
             if m then Some i
             else candidateLoop fuel' delta (i + 1) hi minVal' minInd'
        else candidateLoop fuel' delta (i + 1) hi minVal' minInd'
    end
  else Some minInd.

(** the bound [(framesz/2) - 1] of that loop and of the test in
    [pitchYin]: it is computed in [size_t], so that it wraps to 2 ^ 32 - 1
    for a frame size below 2 *)
Definition lastLag (y : t) : Z := u32 (framesz y / 2 - 1).

(** [getPeriodCandidate], with [unsigned long minPeriod = 30] *)
Definition getPeriodCandidate (y : t) (delta : list F32.t) : option Z :=
  candidateLoop (S (length delta)) delta 30 (lastLag y) minVal0 0.

(** the same loop over the list of its lags, for the proofs *)
Fixpoint candidateScan (delta : list F32.t) (cands : list Z)
         (minVal : F32.t) (minInd : Z) : option Z :=
  match cands with
  | [] => Some minInd
  | i :: cands' =>
      di <- rd delta i ;;
      let minVal' := if IEEE.ltb di minVal then di else minVal in
      let minInd' := if IEEE.ltb di minVal then i else minInd in
      if IEEE.ltb di thresh
      then m <- isLocalMinimum delta i ;;
           if m then Some i else candidateScan delta cands' minVal' minInd'
      else candidateScan delta cands' minVal' minInd'
  end.

(** the two nested tests of that loop at lag [i]:
    [if (delta[i] < thresh) if ((delta[i] < delta[i - 1]) && (delta[i] < delta[i + 1]))];
    when both hold the loop ends with [period = i] *)
Definition accepts (delta : list F32.t) (i : Z) : option bool :=
  di <- rd delta i ;;
  if IEEE.ltb di thresh then isLocalMinimum delta i else Some false.

(** [parabolicInterpolation]: the value of its [else] branch,
    [((float)period) + (y3 - y1) / (2. * (2 * y2 - y3 - y1))] *)
Definition interpolated (period : Z) (y1 y2 y3 : F32.t) : F32.t :=
  F32.of_double
    (F64.add (F64.of_float (F32.of_Z period))
       (F64.div (F64.of_float (F32.sub y3 y1))
          (F64.mul (F64.of_Z 2)
             (F64.of_float
                (F32.sub (F32.sub (F32.mul (F32.of_Z 2) y2) y3) y1))))).

Definition parabolicInterpolation (period : Z) (y1 y2 y3 : F32.t) : F32.t :=
  if IEEE.eqb y3 y2 && IEEE.eqb y2 y1
  then F32.of_Z period
  else interpolated period y1 y2 y3.

(** the lag chosen by [pitchYin] before interpolation *)
Definition choosePeriod (y : t) (delta : list F32.t) : option Z :=
  continuityPeriod <- searchForOtherRecentMinima y delta ;;
  if continuityPeriod =? -1
  then getPeriodCandidate y delta
  else Some continuityPeriod.

(** the interpolation step of [pitchYin]:
    [if ((period > 0) && (period < ((framesz/2) - 1))) ... else ...] *)
Definition refine (y : t) (delta : list F32.t) (period : Z) : option F32.t :=
  if (0 <? period) && (period <? lastLag y)
  then y1 <- rd delta (period - 1) ;;
       y2 <- rd delta period ;;
       y3 <- rd delta (period + 1) ;;
       Some (parabolicInterpolation period y1 y2 y3)
  else Some (F32.of_Z period).

(** [pitchYin]: the new state of the estimator and the pitch in Hz *)
Definition pitchYin (y : t) (frame : list F32.t) : option (t * F32.t) :=
  delta' <- cumulativeMeanNormalisedDifferenceFunction y frame ;;
  period <- choosePeriod y delta' ;;
  fPeriod <- refine y delta' period ;;
  Some (mk fPeriod (fs y) (framesz y) delta', periodToPitch y fPeriod).

End YIN.

(** ** MFCC.h: mel frequency cepstral coefficients

    [class MFCC]: its data members, the constructor with the mel filter
    bank it computes, and the computation on a magnitude spectrum.  The
    arrays that the constructor allocates belong to the object: they are
    taken as allocated with it and released with it.  The values of a freshly
    allocated array are indeterminate (see [new_floats]).  [int] members
    that meet a [size_t] loop counter are converted to [size_t] by the
    comparison. *)

Module MFCC_h.

Record t := mk {
  melSpectrum : list F32.t;           (* float[numCoefficents] *)
  MFCCs : list F32.t;                 (* float[numCoefficents] *)
  numCoefficents : Z;                 (* int *)
  samplingFrequency : Z;              (* int *)
  frameSize : Z;                      (* int *)
  magnitudeSpectrumSize : Z;          (* int *)
  minFrequency : F32.t;
  maxFrequency : F32.t;
  filterBank : list (list F32.t);     (* float[numCoefficents][magnitudeSpectrumSize] *)
  dctSignal : list F32.t              (* float[numCoefficents] *)
}.

(** the object with other contents of [melSpectrum], [MFCCs] and
    [dctSignal], and with another filter bank *)
Definition withArrays (o : t) (mel mfccs dct : list F32.t) : t :=
  mk mel mfccs (numCoefficents o) (samplingFrequency o) (frameSize o)
     (magnitudeSpectrumSize o) (minFrequency o) (maxFrequency o)
     (filterBank o) dct.

Definition withFilterBank (o : t) (bank : list (list F32.t)) : t :=
  mk (melSpectrum o) (MFCCs o) (numCoefficents o) (samplingFrequency o)
     (frameSize o) (magnitudeSpectrumSize o) (minFrequency o)
     (maxFrequency o) bank (dctSignal o).

(** [FLT_MIN], 2 ^ -126, and [M_PI], the [double] nearest to pi *)
Definition FLT_MIN : F32.t := S754_finite false 8388608 (-149).
Definition M_PI : F64.t := S754_finite false 7074237752028440 (-51).

(** the inner loop of [calculateMelFrequencySpectrum]:
    [coeff += (float)((magnitudeSpectrum[j] * magnitudeSpectrum[j]) * filterBank[i][j]);] *)
Fixpoint melCoefficient (magnitudeSpectrum : list F32.t)
         (bank : list (list F32.t)) (i : nat) (js : list nat) (coeff : F64.t)
  : option F64.t :=
  match js with
  | [] => Some coeff
  | j :: js' =>
      m <- nth_error magnitudeSpectrum j ;;
      row <- nth_error bank i ;;
      w <- nth_error row j ;;
      melCoefficient magnitudeSpectrum bank i js'
        (F64.add coeff (F64.of_float (F32.mul (F32.mul m m) w)))
  end.

(** its outer loop, over the coefficients [i]: [melSpectrum[i] = coeff;] *)
Fixpoint melLoop (magnitudeSpectrum : list F32.t) (bank : list (list F32.t))
         (size : nat) (idxs : list nat) (mel : list F32.t) : option (list F32.t) :=
  match idxs with
  | [] => Some mel
  | i :: idxs' =>
      coeff <- melCoefficient magnitudeSpectrum bank i (seq 0 size) IEEE.zero ;;
      mel' <- upd_nth i (F32.of_double coeff) mel ;;
      melLoop magnitudeSpectrum bank size idxs' mel'
  end.

(** [calculateMelFrequencySpectrum]: the new contents of [melSpectrum] *)
Definition calculateMelFrequencySpectrum (o : t) (magnitudeSpectrum : list F32.t)
  : option (list F32.t) :=
  melLoop magnitudeSpectrum (filterBank o)
          (Z.to_nat (u32 (magnitudeSpectrumSize o)))
          (seq 0 (Z.to_nat (numCoefficents o))) (melSpectrum o).

(** [filterBank[i][k] = w] *)
Definition setWeight (bank : list (list F32.t)) (i k : Z) (w : F32.t)
  : option (list (list F32.t)) :=
  row <- rd bank i ;;
  row' <- wr row k w ;;
  wr bank i row'.

(** [for (k = ...; k < ...; k++) filterBank[i][k] = weight(k);] over the
    values [ks] of [k] *)
Fixpoint fillRow (bank : list (list F32.t)) (i : Z) (ks : list Z)
         (weight : Z -> F32.t) : option (list (list F32.t)) :=
  match ks with
  | [] => Some bank
  | k :: ks' =>
      bank' <- setWeight bank i k (weight k) ;;
      fillRow bank' i ks' weight
  end.

(** the first loop of [calculateMelfilterBank]:
    [for (i ...) for (j = 0; j < magnitudeSpectrumSize; j++) filterBank[i][j] = 0.0;] *)
Fixpoint zeroBank (bank : list (list F32.t)) (size : Z) (idxs : list Z)
  : option (list (list F32.t)) :=
  match idxs with
  | [] => Some bank
  | i :: idxs' =>
      bank' <- fillRow bank i (indices 0 size) (fun _ => IEEE.zero) ;;
      zeroBank bank' size idxs'
  end.

(** the third loop: the two slopes of the triangle of every filter [i],
    between the centre indices read back from the [float] array *)
Fixpoint filterLoop (centreIndices : list F32.t) (idxs : list Z)
         (bank : list (list F32.t)) : option (list (list F32.t)) :=
  match idxs with
  | [] => Some bank
  | i :: idxs' =>
      c0 <- rd centreIndices i ;;
      filterBeginIndex <- IEEE.to_int c0 ;;
      c1 <- rd centreIndices (i + 1) ;;
      filterCenterIndex <- IEEE.to_int c1 ;;
      c2 <- rd centreIndices (i + 2) ;;
      filterEndIndex <- IEEE.to_int c2 ;;
      up <- int32 (filterCenterIndex - filterBeginIndex) ;;
      down <- int32 (filterEndIndex - filterCenterIndex) ;;
      let triangleRangeUp := F32.of_Z up in
      let triangleRangeDown := F32.of_Z down in
      (* upward slope *)
      bank <- fillRow bank i (indices filterBeginIndex filterCenterIndex)
                (fun k => F32.div (F32.of_Z (k - filterBeginIndex))
                                  triangleRangeUp) ;;
      (* downwards slope *)
      bank <- fillRow bank i (indices filterCenterIndex filterEndIndex)
                (fun k => F32.div (F32.of_Z (filterEndIndex - k))
                                  triangleRangeDown) ;;
      filterLoop centreIndices idxs' bank
  end.

Section Libm.
(** [log] and [exp] on [double], for the constructor; [logf] and [cosf],
    the overloads on [float], for the computation on a frame *)
Variables log exp : F64.t -> F64.t.
Variables logf cosf : F32.t -> F32.t.

(** [frequencyToMel]: [return int(1127) * log (1 + (frequency / 700.0));] *)
Definition frequencyToMel (frequency : F32.t) : F32.t :=
  F32.of_double
    (F64.mul (F64.of_Z 1127)
       (log (F64.add (F64.of_Z 1)
                     (F64.div (F64.of_float frequency) (F64.of_Z 700))))).

(** the body of the second loop of [calculateMelfilterBank], up to
    [int centreIndex = (int)tmp;]:
    [double f = i * (maxMel - minMel) / (numCoefficents + 1) + minMel;] in
    [int] arithmetic, then
    [tmp = log (1 + 1000.0 / 700.0) / 1000.0;
     tmp = (exp (f * tmp) - 1) / (samplingFrequency / 2);
     tmp = 0.5 + 700 * ((double)magnitudeSpectrumSize) * tmp;
     tmp = floor (tmp);] *)
Definition centreIndex (o : t) (maxMel minMel i : Z) : option Z :=
  d <- int32 (maxMel - minMel) ;;
  p <- int32 (i * d) ;;
  n1 <- int32 (numCoefficents o + 1) ;;
  q <- int32_div p n1 ;;
  f <- int32 (q + minMel) ;;
  let tmp :=
    F64.div (log (F64.add (F64.of_Z 1) (F64.div (F64.of_Z 1000) (F64.of_Z 700))))
            (F64.of_Z 1000) in
  let tmp :=
    F64.div (F64.sub (exp (F64.mul (F64.of_Z f) tmp)) (F64.of_Z 1))
            (F64.of_Z (Z.quot (samplingFrequency o) 2)) in
  let tmp :=
    F64.add (F64.div (F64.of_Z 1) (F64.of_Z 2))
            (F64.mul (F64.mul (F64.of_Z 700)
                              (F64.of_Z (magnitudeSpectrumSize o)))
                     tmp) in
  let tmp := F64.floor tmp in
  IEEE.to_int tmp.

(** the second loop: [centreIndices[i] = centreIndex;] *)
Fixpoint centreLoop (o : t) (maxMel minMel : Z) (idxs : list Z)
         (centreIndices : list F32.t) : option (list F32.t) :=
  match idxs with
  | [] => Some centreIndices
  | i :: idxs' =>
      c <- centreIndex o maxMel minMel i ;;
      centreIndices' <- wr centreIndices i (F32.of_Z c) ;;
      centreLoop o maxMel minMel idxs' centreIndices'
  end.

(** [calculateMelfilterBank]: the new contents of [filterBank].  The array
    [float centreIndices[numCoefficents+2]] is a local of variable
    length. *)
Definition calculateMelfilterBank (o : t) : option (list (list F32.t)) :=
  n2 <- int32 (numCoefficents o + 2) ;;
  _ <- guard (0 <? n2) ;;
  maxMel <- IEEE.to_int (F32.floor (frequencyToMel (maxFrequency o))) ;;
  minMel <- IEEE.to_int (F32.floor (frequencyToMel (minFrequency o))) ;;
  bank <- zeroBank (filterBank o) (magnitudeSpectrumSize o)
                   (indices 0 (numCoefficents o)) ;;
  centreIndices <- centreLoop o maxMel minMel (indices 0 n2) (new_floats n2) ;;
  filterLoop centreIndices (indices 0 (numCoefficents o)) bank.

(** the constructor
    [MFCC (int frameSize_, size_t samplingFrequency_, size_t numCoefficents_)]:
    the [int] members take the [size_t] arguments; the body sets
    [magnitudeSpectrumSize = frameSize/2], [minFrequency = 0] and
    [maxFrequency = samplingFrequency / 2], allocates the arrays and calls
    [calculateMelfilterBank] *)
Definition create (frameSize_ samplingFrequency_ numCoefficents_ : Z)
  : option t :=
  let samplingFrequency' := to_int32 samplingFrequency_ in
  let numCoefficents' := to_int32 numCoefficents_ in
  let magnitudeSpectrumSize' := Z.quot frameSize_ 2 in
  _ <- guard (0 <=? numCoefficents') ;;
  _ <- guard ((numCoefficents' =? 0) || (0 <=? magnitudeSpectrumSize')) ;;
  let o :=
    mk (new_floats numCoefficents') (new_floats numCoefficents')
       numCoefficents' samplingFrequency' frameSize_ magnitudeSpectrumSize'
       (F32.of_Z 0) (F32.of_Z (Z.quot samplingFrequency' 2))
       (repeat (new_floats magnitudeSpectrumSize') (Z.to_nat numCoefficents'))
       (new_floats numCoefficents') in
  bank <- calculateMelfilterBank o ;;
  Some (withFilterBank o bank).

(** [for (size_t i = 0; i < numCoefficents; i++)
       MFCCs[i] = log (melSpectrum[i] + (float)FLT_MIN);] *)
Fixpoint logLoop (mel : list F32.t) (idxs : list nat) (out : list F32.t)
  : option (list F32.t) :=
  match idxs with
  | [] => Some out
  | i :: idxs' =>
      e <- nth_error mel i ;;
      out' <- upd_nth i (logf (F32.add e FLT_MIN)) out ;;
      logLoop mel idxs' out'
  end.

(** the first loop of [discreteCosineTransform]: [dctSignal[i] = MFCCs[i];] *)
Fixpoint copyIn (src : list F32.t) (idxs : list nat) (dst : list F32.t)
  : option (list F32.t) :=
  match idxs with
  | [] => Some dst
  | i :: idxs' =>
      x <- nth_error src i ;;
      dst' <- upd_nth i x dst ;;
      copyIn src idxs' dst'
  end.

(** the innermost loop:
    [float tmp = piOverN * (((float)n) + 0.5) * kVal;  sum += dctSignal[n] * cos (tmp);]
    the product with the [double] 0.5 is a [double], rounded into [tmp];
    [cos] of the [float] [tmp] is a [float], and so are the product and the
    sum *)
Fixpoint cosineSum (dct : list F32.t) (piOverN kVal : F32.t) (ns : list nat)
         (sum : F32.t) : option F32.t :=
  match ns with
  | [] => Some sum
  | n :: ns' =>
      let half := F64.div (F64.of_Z 1) (F64.of_Z 2) in
      let tmp :=
        F32.of_double
          (F64.mul (F64.mul (F64.of_float piOverN)
                            (F64.add (F64.of_float (F32.of_Z (Z.of_nat n))) half))
                   (F64.of_float kVal)) in
      x <- nth_error dct n ;;
      cosineSum dct piOverN kVal ns' (F32.add sum (F32.mul x (cosf tmp)))
  end.

(** the loop over [k]: [MFCCs[k] = 2 * sum;] *)
Fixpoint cosineLoop (dct : list F32.t) (piOverN : F32.t) (count : nat)
         (ks : list nat) (out : list F32.t) : option (list F32.t) :=
  match ks with
  | [] => Some out
  | k :: ks' =>
      sum <- cosineSum dct piOverN (F32.of_Z (Z.of_nat k)) (seq 0 count) IEEE.zero ;;
      out' <- upd_nth k (F32.mul (F32.of_Z 2) sum) out ;;
      cosineLoop dct piOverN count ks' out'
  end.

(** [discreteCosineTransform]: the new [dctSignal] and [MFCCs] *)
Definition discreteCosineTransform (o : t) : option (list F32.t * list F32.t) :=
  let count := Z.to_nat (u32 (numCoefficents o)) in
  dct <- copyIn (MFCCs o) (seq 0 count) (dctSignal o) ;;
  let N := F32.of_Z (numCoefficents o) in
  let piOverN := F32.of_double (F64.div M_PI (F64.of_float N)) in
  out <- cosineLoop dct piOverN count (seq 0 count) (MFCCs o) ;;
  Some (dct, out).

(** [calculateMelFrequencyCepstralCoefficients]: the object afterwards *)
Definition calculateMelFrequencyCepstralCoefficients (o : t)
           (magnitudeSpectrum : list F32.t) : option t :=
  mel <- calculateMelFrequencySpectrum o magnitudeSpectrum ;;
  logs <- logLoop mel (seq 0 (Z.to_nat (u32 (numCoefficents o)))) (MFCCs o) ;;
  let o1 := withArrays o mel logs (dctSignal o) in
  '(dct, out) <- discreteCosineTransform o1 ;;
  Some (withArrays o mel out dct).
End Libm.

(** an object is well formed when its arrays have the sizes that the
    constructor gives them *)
Definition wellFormed (o : t) : Prop :=
  0 <= numCoefficents o < 2 ^ 31
  /\ 0 <= magnitudeSpectrumSize o < 2 ^ 31
  /\ length (melSpectrum o) = Z.to_nat (numCoefficents o)
  /\ length (MFCCs o) = Z.to_nat (numCoefficents o)
  /\ length (dctSignal o) = Z.to_nat (numCoefficents o)
  /\ length (filterBank o) = Z.to_nat (numCoefficents o)
  /\ forall row, In row (filterBank o) ->
                 length row = Z.to_nat (magnitudeSpectrumSize o).

(** no weight of the filter bank is a NaN or an infinity *)
Definition finiteWeights (o : t) : Prop :=
  forall row w, In row (filterBank o) -> In w row ->
                w <> S754_nan /\ forall s, w <> S754_infinity s.

End MFCC_h.

(** ** ESP_fft.h: the transform object the analyzer owns

    Of the external [ESP_fft] the model keeps the constructor arguments. *)

Module ESP_fft.
Record t := mk { size : Z; sampleFreq : Z }.
End ESP_fft.

(** ** AnalyzerConfig.h *)

Definition signature_t_bits : Z := 16.   (* unsigned short *)
Definition decibel_t_bits : Z := 16.     (* unsigned short *)
Definition hash_t_bits : Z := 32.        (* unsigned long *)

Definition ANALYZER_DEFAULT_GAIN : Z := 75.
(** 5.012 *)
Definition ANALYZER_DEFAULT_MICSENS : F64.t :=
  F64.div (F64.of_Z 5012) (F64.of_Z 1000).
Definition ANALYZER_DEFAULT_SAMPLEFREQ : Z := 44100.
Definition ANALYZER_DEFAULT_FFTLENGTH : Z := 512.
(** 0.85 *)
Definition ANALYZER_DEFAULT_ROLLOFF_PERCENTILE : F64.t :=
  F64.div (F64.of_Z 85) (F64.of_Z 100).
Definition ANALYZER_DEFAULT_FFTSCALE : Z := 1000.
Definition ANALYZER_DEFAULT_FUZZFACTOR : Z := 32.
Definition ANALYZER_DEFAULT_NUMRANGES : Z := 6.
Definition ANALYZER_DEFAULT_RANGES_256 : list Z := [5; 10; 20; 40; 80; 256].
Definition ANALYZER_DEFAULT_RANGES_512 : list Z := [10; 20; 40; 80; 160; 512].
Definition ANALYZER_DEFAULT_MFCC_COEFF : Z := 13.

Inductive SpectrumFeature :=
| Fpeakfreq | Fpeakmag | Favgmag | Fspread | Fskewness
| Fcentroid | Fflatness | Fcrest | Fkurtosis | Frolloff.

Definition SpectrumFeature_eqb (f g : SpectrumFeature) : bool :=
  match f, g with
  | Fpeakfreq, Fpeakfreq | Fpeakmag, Fpeakmag | Favgmag, Favgmag
  | Fspread, Fspread | Fskewness, Fskewness | Fcentroid, Fcentroid
  | Fflatness, Fflatness | Fcrest, Fcrest | Fkurtosis, Fkurtosis
  | Frolloff, Frolloff => true
  | _, _ => false
  end.

(** ** SoundAnalyzer.h and Analyzer.cpp *)

Module SoundAnalyzer.

(** A value of type [unsigned *], as stored in [AnalyzerConfig::ranges]:
    null, the namespace-scope array [DefaultRanges], or an array that
    belongs to the caller. *)
Inductive ranges_ptr :=
| NullRanges
| DefaultRangesPtr
| CallerRanges (id : nat).

Definition ranges_ptr_eqb (p q : ranges_ptr) : bool :=
  match p, q with
  | NullRanges, NullRanges => true
  | DefaultRangesPtr, DefaultRangesPtr => true
  | CallerRanges i, CallerRanges j => Nat.eqb i j
  | _, _ => false
  end.

(** [struct AnalyzerConfig] *)
Record AnalyzerConfig := mkConfig {
  samplefreq : Z;
  fftlength : Z;
  sensitivity : F32.t;
  gain : Z;
  roloffpercentile : F32.t;
  numranges : Z;
  ranges : ranges_ptr;
  fuzzfactor : Z;
  mfcccoeff : Z
}.

(** What lives outside any one analyzer: the array [DefaultRanges], the
    function-local static [cfg] of [getConfig] ([None] until its
    initialisation at the first call), the arrays of the caller that a
    configuration may point to, and the heap. *)
Record Statics := mkStatics {
  DefaultRanges : list Z;
  getConfig_cfg : option AnalyzerConfig;
  caller_ranges : nat -> list Z;
  heap : Heap
}.

(** the state at program start:
    [unsigned DefaultRanges[ANALYZER_DEFAULT_NUMRANGES] = ANALYZER_DEFAULT_RANGES_256;] *)
Definition Statics_init (caller : nat -> list Z) (plan : list bool) : Statics :=
  mkStatics ANALYZER_DEFAULT_RANGES_256 None caller (mkHeap 1 [] plan).

(** the array a [ranges] pointer refers to; null has none *)
Definition deref (g : Statics) (p : ranges_ptr) : option (list Z) :=
  match p with
  | NullRanges => None
  | DefaultRangesPtr => Some (DefaultRanges g)
  | CallerRanges id => Some (caller_ranges g id)
  end.

(** [defaultConfig]: the static [DefaultConfig] *)
Definition defaultConfig : AnalyzerConfig :=
  mkConfig ANALYZER_DEFAULT_SAMPLEFREQ
           ANALYZER_DEFAULT_FFTLENGTH
           (F32.of_double ANALYZER_DEFAULT_MICSENS)
           ANALYZER_DEFAULT_GAIN
           (F32.of_double ANALYZER_DEFAULT_ROLLOFF_PERCENTILE)
           ANALYZER_DEFAULT_NUMRANGES
           DefaultRangesPtr
           ANALYZER_DEFAULT_FUZZFACTOR
           ANALYZER_DEFAULT_MFCC_COEFF.

(** [class Analyzer]: the data members.  [Bins] and [Mfccs] are aliases
    (addresses only) of [spectrum] and of [mfcc->MFCCs]. *)
Record Analyzer := mkAnalyzer {
  Bins : option nat;
  NumBins : Z;
  Fr : F32.t;
  Mfccs : option nat;
  NumMfccCoeff : Z;
  Signature : ptr (list Z);
  SignatureLen : Z;
  Features : SpectrumFeature -> F32.t;
  Config : AnalyzerConfig;
  initialized : bool;
  signal : ptr (list F32.t);
  spectrum : ptr (list F32.t);
  FFT : ptr ESP_fft.t;
  mfcc : ptr MFCC_h.t;
  yin : ptr YIN.t
}.

(** the members before any constructor body has run, for an analyzer with
    static storage duration (as [Processor] in examples/Example1.cpp):
    zero-initialised *)
Definition Analyzer_zero : Analyzer :=
  mkAnalyzer None 0 IEEE.zero None 0 None 0 (fun _ => IEEE.zero)
             (mkConfig 0 0 IEEE.zero 0 IEEE.zero 0 NullRanges 0 0)
             false None None None None None.

(** [End] *)
Definition End (g : Statics) (a : Analyzer) : Statics * Analyzer :=
  let h := heap g in
  let h := delete h (signal a) in
  let h := delete h (spectrum a) in
  let h := delete h (Signature a) in
  let h := delete h (FFT a) in
  let h := delete h (mfcc a) in
  let h := delete h (yin a) in
  (mkStatics (DefaultRanges g) (getConfig_cfg g) (caller_ranges g) h,
   mkAnalyzer (Bins a) (NumBins a) (Fr a) (Mfccs a) (NumMfccCoeff a)
              None (SignatureLen a) (Features a) (Config a)
              false None None None None None).

(** The C library as the life cycle of the engine meets it: [Begin]
    constructs an [MFCC], whose constructor calls [log] and [exp] on
    [double]s. *)
Class Libm := {
  libm_log : F64.t -> F64.t;
  libm_exp : F64.t -> F64.t
}.

Section Lifecycle.
Context {libm : Libm}.

(** The three guarded allocations of [Begin], each with the heap and the
    value of [memok] it leaves.

    [if (mfcccoeff > 0 && memok) { mfcc = new MFCC(fftlength,samplefreq,mfcccoeff); Mfccs = mfcc->MFCCs; memok = mfcc; }]:
    when the memory is there the constructor runs, on [fftlength] converted
    to [int]; reading [mfcc->MFCCs] through a null [mfcc] is a fault. *)
Definition Begin_mfcc (h : Heap) (a : Analyzer) (memok : bool)
  : option (ptr MFCC_h.t * option nat * Heap * bool) :=
  if (0 <? mfcccoeff (Config a)) && memok
  then
    let '(m, h') := new h tt in
    match m with
    | Some (ad, _) =>
        o <- MFCC_h.create libm_log libm_exp (to_int32 (fftlength (Config a)))
                           (samplefreq (Config a)) (mfcccoeff (Config a)) ;;
        Some (Some (ad, o), Some ad, h', true)
    | None => None
    end
  else Some (mfcc a, Mfccs a, h, memok).

(** [if (numranges > 0 && memok) { Signature = new signature_t[numranges]; memok = Signature; }] *)
Definition Begin_Signature (h : Heap) (a : Analyzer) (memok : bool)
  : ptr (list Z) * Heap * bool :=
  if (0 <? numranges (Config a)) && memok
  then let '(s, h') := new h (new_ushorts (numranges (Config a))) in
       (s, h', negb (is_null s))
  else (Signature a, h, memok).

(** [if (memok) { yin = new YIN(samplefreq,fftlength); memok = yin; }] *)
Definition Begin_yin (h : Heap) (a : Analyzer) (memok : bool)
  : ptr YIN.t * Heap * bool :=
  if memok
  then let '(y, h') :=
         new h (YIN.create (samplefreq (Config a)) (fftlength (Config a))) in
       (y, h', negb (is_null y))
  else (yin a, h, memok).

(** [Begin]: the heap, the analyzer and the returned [bool] *)
Definition Begin (h : Heap) (a : Analyzer) : option (Heap * Analyzer * bool) :=
  let fftlength := fftlength (Config a) in
  let samplefreq := samplefreq (Config a) in
  if initialized a then Some (h, a, true)
  else
    let Fr' := F32.div (F32.of_Z samplefreq) (F32.of_Z fftlength) in
    let NumBins' := fftlength / 2 in
    let '(signal', h) := new h (new_floats fftlength) in
    let '(spectrum', h) := new h (new_floats fftlength) in
    let '(FFT', h) := new h (ESP_fft.mk fftlength samplefreq) in
    (* memok = (signal || spectrum || FFT); *)
    let memok := negb (is_null signal') || negb (is_null spectrum')
                 || negb (is_null FFT') in
    let Bins' := addr_of spectrum' in
    '(mfcc', Mfccs', h, memok) <- Begin_mfcc h a memok ;;
    let '(Signature', h, memok) := Begin_Signature h a memok in
    let '(yin', h, memok) := Begin_yin h a memok in
    (* if (!memok) return false;  initialized = true;  return true; *)
    Some (h,
          mkAnalyzer Bins' NumBins' Fr' Mfccs' (NumMfccCoeff a)
                     Signature' (SignatureLen a) (Features a) (Config a)
                     memok signal' spectrum' FFT' mfcc' yin',
          memok).

(** the loop of [setConfig] over the entries [i, i+1, ...] of the default
    array: [r = ranges[i]; r = r * fftlength / 512; ranges[i] = r;] in
    [unsigned] arithmetic *)
Definition rescale (L r : Z) : Z := u32 (r * L) / ANALYZER_DEFAULT_FFTLENGTH.

Fixpoint rescaleLoop (L : Z) (n i : nat) (arr : list Z) : option (list Z) :=
  match n with
  | O => Some arr
  | S n' =>
      r <- nth_error arr i ;;
      arr' <- upd_nth i (rescale L r) arr ;;
      rescaleLoop L n' (S i) arr'
  end.

(** the adaptation of the default ranges in [setConfig]: the contents of
    [DefaultRanges] and the value of [Config] after
    [if (Config.fftlength != ANALYZER_DEFAULT_FFTLENGTH && Config.ranges == DefaultRanges) {...}] *)
Definition adaptRanges (g : Statics) (newCfg : AnalyzerConfig)
  : option (list Z * AnalyzerConfig) :=
  if negb (fftlength newCfg =? ANALYZER_DEFAULT_FFTLENGTH)
     && ranges_ptr_eqb (ranges newCfg) DefaultRangesPtr
  then
    arr <- rescaleLoop (fftlength newCfg) (Z.to_nat (numranges newCfg)) 0
                       (DefaultRanges g) ;;
    Some (arr,
          mkConfig (samplefreq newCfg) (fftlength newCfg)
                   (sensitivity newCfg) (gain newCfg)
                   (roloffpercentile newCfg) (numranges newCfg)
                   (ranges newCfg)
                   (u32 (ANALYZER_DEFAULT_FUZZFACTOR * fftlength newCfg)
                    / ANALYZER_DEFAULT_FFTLENGTH)
                   (mfcccoeff newCfg))
  else Some (DefaultRanges g, newCfg).

(** the test of [setConfig] on the parameters that size the buffers *)
Definition sizesDiffer (a : Analyzer) (newCfg : AnalyzerConfig) : bool :=
  negb (fftlength newCfg =? fftlength (Config a))
  || negb (samplefreq newCfg =? samplefreq (Config a))
  || negb (numranges newCfg =? numranges (Config a))
  || negb (mfcccoeff newCfg =? mfcccoeff (Config a)).

(** the first step of [setConfig]:
    [if (initialized) { if (newCfg.fftlength != Config.fftlength || ...) { End(); } }] *)
Definition released (g : Statics) (a : Analyzer) (newCfg : AnalyzerConfig)
  : Statics * Analyzer :=
  if initialized a && sizesDiffer a newCfg then End g a else (g, a).

(** [setConfig].  It returns nothing: the [bool] of [Begin] is dropped. *)
Definition setConfig (g : Statics) (a : Analyzer) (newCfg : AnalyzerConfig)
  : option (Statics * Analyzer) :=
  let '(g, a) := released g a newCfg in
  let Fr' := F32.div (F32.of_Z (samplefreq newCfg)) (F32.of_Z (fftlength newCfg)) in
  let NumBins' := fftlength newCfg / 2 in
  '(DefaultRanges', Config') <- adaptRanges g newCfg ;;
  let a := mkAnalyzer (Bins a) NumBins' Fr' (Mfccs a) (mfcccoeff newCfg)
                      (Signature a) (numranges newCfg) (Features a) Config'
                      (initialized a) (signal a) (spectrum a) (FFT a)
                      (mfcc a) (yin a) in
  '(h, a, _) <- Begin (heap g) a ;;
  Some (mkStatics DefaultRanges' (getConfig_cfg g) (caller_ranges g) h, a).

(** [setConfig] called with each configuration of a list in turn, and with
    one configuration a number of times *)
Fixpoint setConfigs (g : Statics) (a : Analyzer) (cfgs : list AnalyzerConfig)
  : option (Statics * Analyzer) :=
  match cfgs with
  | [] => Some (g, a)
  | cfg :: cfgs' => '(g', a') <- setConfig g a cfg ;; setConfigs g' a' cfgs'
  end.

Definition setConfigTimes (n : nat) (g : Statics) (a : Analyzer)
           (cfg : AnalyzerConfig) : option (Statics * Analyzer) :=
  setConfigs g a (repeat cfg n).

(** [Analyzer()] and [Analyzer(AnalyzerConfig &)], on zero-initialised
    storage *)
Definition Analyzer_default (g : Statics) : option (Statics * Analyzer) :=
  setConfig g Analyzer_zero defaultConfig.
Definition Analyzer_with (g : Statics) (cfg : AnalyzerConfig)
  : option (Statics * Analyzer) :=
  setConfig g Analyzer_zero cfg.

(** the constructor of [MFCC] completes on the sizes of a configuration
    that asks for coefficients *)
Definition constructs (cfg : AnalyzerConfig) : Prop :=
  0 < mfcccoeff cfg ->
  MFCC_h.create libm_log libm_exp (to_int32 (fftlength cfg)) (samplefreq cfg)
                (mfcccoeff cfg) <> None.

End Lifecycle.

(** the engine owns no buffer and no subcomponent *)
Definition tornDown (a : Analyzer) : bool :=
  negb (initialized a)
  && is_null (signal a) && is_null (spectrum a) && is_null (Signature a)
  && is_null (FFT a) && is_null (mfcc a) && is_null (yin a).

(** the engine is initialised and owns whatever its configuration needs *)
Definition ready (a : Analyzer) : bool :=
  initialized a
  && negb (is_null (signal a)) && negb (is_null (spectrum a))
  && negb (is_null (FFT a)) && negb (is_null (yin a))
  && ((mfcccoeff (Config a) =? 0) || negb (is_null (mfcc a)))
  && ((numranges (Config a) =? 0) || negb (is_null (Signature a))).

(** [getConfig]: [static AnalyzerConfig cfg = Config; return cfg;] *)
Definition getConfig (g : Statics) (a : Analyzer) : Statics * AnalyzerConfig :=
  match getConfig_cfg g with
  | Some cfg => (g, cfg)
  | None =>
      (mkStatics (DefaultRanges g) (Some (Config a)) (caller_ranges g) (heap g),
       Config a)
  end.

(** [frequency] *)
Definition frequency (a : Analyzer) (bin : Z) : F32.t :=
  F32.mul (F32.of_Z bin) (Fr a).

(** *** The fingerprint hash *)

(** [sig[off] - (sig[off] % Config.fuzzfactor)], in [unsigned] arithmetic *)
Definition quantize (fuzz v : Z) : Z := v - v mod fuzz.

(** one step of the accumulation: the running hash times 33, wrapped to
    [hash_t], XOR the quantized value *)
Definition hashStep (fuzz v h : Z) : Z :=
  Z.lxor (wrap hash_t_bits (h * 33)) (quantize fuzz v).

(** [signatureHash(sig, nr, off)], by recursion on [nr - off]:
    [off == nr ? 5381
               : (signatureHash(sig, nr, off+1)*33) ^ (sig[off] - (sig[off] % fuzzfactor))].
    Reading past the array and the remainder by a zero fuzz factor are
    faults. *)
Fixpoint signatureHashFrom (fuzz : Z) (sig : list Z) (n off : nat) : option Z :=
  match n with
  | O => Some 5381
  | S n' =>
      h <- signatureHashFrom fuzz sig n' (S off) ;;
      v <- nth_error sig off ;;
      _ <- guard (negb (fuzz =? 0)) ;;
      Some (hashStep fuzz v h)
  end.

Definition signatureHash (a : Analyzer) (sig : list Z) (nr off : nat)
  : option Z :=
  signatureHashFrom (fuzzfactor (Config a)) sig (nr - off) off.

(** [getSignatureHash(Sig)]: [Sig] is the caller's array, or [None] for
    nullptr.  With a null [Signature] member and a zero length nothing is
    read. *)
Definition getSignatureHash (a : Analyzer) (Sig : option (list Z)) : option Z :=
  let S := match Sig with
           | Some s => s
           | None => match Signature a with Some (_, s) => s | None => [] end
           end in
  signatureHash a S (Z.to_nat (SignatureLen a)) 0.

(** *** The fingerprint *)

(** the lambda [rangeIndex] of [getSignature], from range [r] on, with
    [n] ranges left to look at *)
Fixpoint rangeIndexFrom (ranges : list Z) (numranges : Z) (idx : Z)
         (n : nat) (r : Z) : option Z :=
  match n with
  | O => Some (numranges - 1)
  | S n' =>
      b <- rd ranges r ;;
      if idx <? b then Some r
      else rangeIndexFrom ranges numranges idx n' (r + 1)
  end.

Definition rangeIndex (ranges : list Z) (numranges : Z) (idx : Z) : option Z :=
  rangeIndexFrom ranges numranges idx (Z.to_nat numranges) 0.

(** [r] is the first range whose boundary is above [idx], or the last range
    when no boundary is *)
Definition firstAboveOrLast (ranges : list Z) (numranges idx r : Z) : Prop :=
  (0 <= r < numranges
   /\ (exists b, rd ranges r = Some b /\ idx < b)
   /\ forall r', 0 <= r' < r -> exists b', rd ranges r' = Some b' /\ b' <= idx)
  \/ (r = numranges - 1
      /\ forall r', 0 <= r' < numranges ->
                    exists b', rd ranges r' = Some b' /\ b' <= idx).

(** [(signature_t) int(frequency(i))] *)
Definition signatureOf (a : Analyzer) (i : Z) : option Z :=
  f <- IEEE.to_int (frequency a i) ;; Some (wrap signature_t_bits f).

(** the array [getFeatures], [getMfcc] and [getSignature] work on:
    [bins = (Spectrum != nullptr) ? Spectrum : spectrum].  A null pointer
    is a fault when a bin is read through it: the empty array stands for
    it. *)
Definition binsOf (a : Analyzer) (Spectrum : option (list F32.t)) : list F32.t :=
  match Spectrum with
  | Some s => s
  | None => match spectrum a with
            | Some (_, s) => s
            | None => []
            end
  end.

(** every bin that a loop over [idxs] reads is a zero *)
Definition zeroBins (bins : list F32.t) (idxs : list Z) : Prop :=
  forall i, In i idxs -> exists s, rd bins i = Some (S754_zero s).

(** the first [n] samples of a frame are zeros *)
Definition silent (frame : list F32.t) (n : nat) : Prop :=
  forall j, (j < n)%nat -> exists s, nth_error frame j = Some (S754_zero s).

Section Libm.
(** The functions of the C library that the analyzer calls and that
    IEEE-754 does not define: [log], [exp], [log10] and [pow] on [double],
    and [logf], the overload of [log] on [float]; and the sample type [T]
    of the template with its conversion [(float)Signal[i]]. *)
Variables log exp log10 : F64.t -> F64.t.
Variable pow : F64.t -> F64.t -> F64.t.
Variable logf : F32.t -> F32.t.
Variable T : Type.
Variable toFloat : T -> F32.t.

(** [mag = log(fabs(bins[i]) + 1)]: [fabs] of a [float] is a [float], the
    sum with the [int] 1 is a [float], and [log] of it is the overload on
    [float] *)
Definition logMagnitude (x : F32.t) : F32.t :=
  logf (F32.add (IEEE.fabs x) (F32.of_Z 1)).

(** one turn of the scanning loop of [getSignature], at bin [i] *)
Definition scanBin (a : Analyzer) (ranges : list Z) (numranges : Z)
           (bins : list F32.t) (i : Z) (st : list Z * list F32.t)
  : option (list Z * list F32.t) :=
  let '(Sig, mags) := st in
  r <- rangeIndex ranges numranges i ;;
  b <- rd bins i ;;
  let mag := logMagnitude b in
  m <- rd mags r ;;
  if IEEE.gtb mag m
  then s <- signatureOf a i ;;
       Sig' <- wr Sig r s ;;
       mags' <- wr mags r mag ;;
       Some (Sig', mags')
  else Some (Sig, mags).

Fixpoint scanLoop (a : Analyzer) (ranges : list Z) (numranges : Z)
         (bins : list F32.t) (idxs : list Z) (st : list Z * list F32.t)
  : option (list Z * list F32.t) :=
  match idxs with
  | [] => Some st
  | i :: idxs' =>
      st' <- scanBin a ranges numranges bins i st ;;
      scanLoop a ranges numranges bins idxs' st'
  end.

(** [for (i=0, avg=0; i<numranges; i++) avg += mags[i];
     avg = (avg * 1.0) / i;] *)
Definition average (mags : list F32.t) (numranges : Z) : F32.t :=
  let avg := fold_left F32.add mags IEEE.zero in
  F32.of_double
    (F64.div (F64.mul (F64.of_float avg) (F64.of_Z 1)) (F64.of_Z numranges)).

(** [for (i=0; i<numranges; i++) if (mags[i] < avg) Signature[i] = 0;] *)
Fixpoint suppress (avg : F32.t) (Sig : list Z) (mags : list F32.t) : list Z :=
  match Sig, mags with
  | s :: Sig', m :: mags' =>
      (if IEEE.ltb m avg then 0 else s) :: suppress avg Sig' mags'
  | _, _ => Sig
  end.

(** the state of [Signature] and [mags] when the scanning loop ends *)
Definition scan (g : Statics) (a : Analyzer) (Spectrum : option (list F32.t))
           (len : Z) : option (list Z * list F32.t) :=
  let numranges := numranges (Config a) in
  let ranges := match deref g (ranges (Config a)) with
                | Some r => r
                | None => []
                end in
  let bins := binsOf a Spectrum in
  let NumBins' := if len =? 0 then NumBins a else len in
  '(_, Sig) <- Signature a ;;
  _ <- guard (Z.to_nat numranges <=? length Sig)%nat ;;
  let Sig0 := repeat 0 (Z.to_nat numranges) ++ skipn (Z.to_nat numranges) Sig in
  let mags0 := repeat IEEE.zero (Z.to_nat numranges) in
  scanLoop a ranges numranges bins (indices 1 NumBins') (Sig0, mags0).

(** [getSignature]: the analyzer afterwards and the returned pointer *)
Definition getSignature (g : Statics) (a : Analyzer)
           (Spectrum : option (list F32.t)) (len : Z)
  : option (Analyzer * option nat) :=
  let numranges := numranges (Config a) in
  if numranges =? 0 then Some (a, None)
  else
    '(Sig, mags) <- scan g a Spectrum len ;;
    let avg := average mags numranges in
    let Sig' := suppress avg Sig mags in
    '(ad, _) <- Signature a ;;
    Some (mkAnalyzer (Bins a) (NumBins a) (Fr a) (Mfccs a) (NumMfccCoeff a)
                     (Some (ad, Sig')) (SignatureLen a) (Features a)
                     (Config a) (initialized a) (signal a) (spectrum a)
                     (FFT a) (mfcc a) (yin a),
          Some ad).

(** *** Time-domain measures *)

(** [rms] *)
Fixpoint rmsLoop (Signal : list T) (n i : nat) (Rms : F64.t) : option F64.t :=
  match n with
  | O => Some Rms
  | S n' =>
      s <- nth_error Signal i ;;
      let amp := IEEE.fabs (toFloat s) in
      rmsLoop Signal n' (S i) (F64.add Rms (F64.of_float (F32.sq amp)))
  end.

Definition rms (a : Analyzer) (Signal : list T) (siglen : Z) : option F32.t :=
  let len := if siglen =? 0 then fftlength (Config a) else siglen in
  Rms <- rmsLoop Signal (Z.to_nat len) 0 IEEE.zero ;;
  let Rms := F64.div Rms (F64.of_Z len) in
  Some (F32.of_double (F64.sqrt Rms)).

(** [(decibel_t) round(dB)] *)
Definition roundToDecibel (dB : F64.t) : option Z :=
  z <- IEEE.round_half_away dB ;; IEEE.in_range 0 (2 ^ decibel_t_bits - 1) z.

(** the value [dB] of [decibelSPL], before it is rounded *)
Definition decibels (a : Analyzer) (Signal : list T) (siglen : Z)
  : option F64.t :=
  r <- rms a Signal siglen ;;
  let vRms := F64.of_float r in
  let dBv := F64.mul (F64.of_Z 20)
               (log10 (F64.div vRms (F64.of_float (sensitivity (Config a))))) in
  Some (F64.add (F64.sub dBv (F64.of_Z (gain (Config a)))) (F64.of_Z 94)).

(** [decibelSPL] *)
Definition decibelSPL (a : Analyzer) (Signal : list T) (siglen : Z) : option Z :=
  dB <- decibels a Signal siglen ;;
  roundToDecibel dB.

(** [getPitch].  With a zero [fftlength] the source passes the buffer on
    untouched and [pitchYin] then writes [delta[0]] of an empty array, so
    that requiring the buffer first loses no defined behaviour. *)
Fixpoint copyLoop (Signal : list T) (n i : nat) (buf : list F32.t)
  : option (list F32.t) :=
  match n with
  | O => Some buf
  | S n' =>
      s <- nth_error Signal i ;;
      buf' <- upd_nth i (toFloat s) buf ;;
      copyLoop Signal n' (S i) buf'
  end.

Definition getPitch (a : Analyzer) (Signal : list T) : option (Analyzer * F32.t) :=
  let n := Z.to_nat (fftlength (Config a)) in
  '(sad, buf) <- signal a ;;
  buf' <- copyLoop Signal n 0 buf ;;
  '(yad, y) <- yin a ;;
  '(y', pitch) <- YIN.pitchYin y buf' ;;
  Some (mkAnalyzer (Bins a) (NumBins a) (Fr a) (Mfccs a) (NumMfccCoeff a)
                   (Signature a) (SignatureLen a) (Features a) (Config a)
                   (initialized a)
                   (Some (sad, buf'))
                   (spectrum a) (FFT a) (mfcc a) (Some (yad, y')),
        pitch).

(** *** Spectral statistics *)

Definition setFeature (F : SpectrumFeature -> F32.t) (f : SpectrumFeature)
           (v : F32.t) : SpectrumFeature -> F32.t :=
  fun g => if SpectrumFeature_eqb g f then v else F g.

(** the variables of the first loop of [getFeatures] *)
Record Sums := mkSums {
  sumAmplitudes : F32.t;
  sumWeightedAmplitudes : F32.t;
  sumfVal : F64.t;
  logSumfVal : F64.t;
  sumcVal : F32.t;
  maxcVal : F32.t;
  peakMag : F32.t;
  peakFreq : F32.t
}.

Definition Sums0 : Sums :=
  mkSums IEEE.zero IEEE.zero IEEE.zero IEEE.zero IEEE.zero IEEE.zero
         IEEE.zero IEEE.zero.

Definition sumsStep (a : Analyzer) (i : Z) (Mag : F32.t) (s : Sums) : Sums :=
  let f := F64.of_float (F32.add (F32.of_Z 1) Mag) in
  let c := F32.sq Mag in
  mkSums (F32.add (sumAmplitudes s) Mag)
         (F32.add (sumWeightedAmplitudes s) (F32.mul Mag (F32.of_Z i)))
         (F64.add (sumfVal s) f)
         (F64.add (logSumfVal s) (log f))
         (F32.add (sumcVal s) c)
         (if IEEE.gtb c (maxcVal s) then c else maxcVal s)
         (if IEEE.gtb Mag (peakMag s) then Mag else peakMag s)
         (if IEEE.gtb Mag (peakMag s) then frequency a i else peakFreq s).

Fixpoint sumsLoop (a : Analyzer) (bins : list F32.t) (idxs : list Z) (s : Sums)
  : option Sums :=
  match idxs with
  | [] => Some s
  | i :: idxs' =>
      Mag <- rd bins i ;;
      sumsLoop a bins idxs' (sumsStep a i Mag s)
  end.

(** the variables of the second loop *)
Record Moments := mkMoments {
  moment2 : F32.t;
  moment4 : F32.t;
  spread_sum : F32.t;
  skewness_sum : F32.t;
  rolloff : F32.t;
  roloff_sum : F32.t
}.

Definition Moments0 : Moments :=
  mkMoments IEEE.zero IEEE.zero IEEE.zero IEEE.zero IEEE.zero IEEE.zero.

(** [acc += x] for a [float] acc and a [double] x *)
Definition addDouble (acc : F32.t) (x : F64.t) : F32.t :=
  F32.of_double (F64.add (F64.of_float acc) x).

Definition momentsStep (NumBins' : Z) (centroid meanVal rolloff_threshold : F32.t)
           (i : Z) (Mag : F32.t) (m : Moments) : Moments :=
  let dev := F64.of_float (F32.sub (F32.of_Z i) centroid) in
  let spread_sum' :=
    addDouble (spread_sum m)
              (F64.mul (pow dev (F64.of_Z 2)) (F64.of_float Mag)) in
  let skewness_sum' :=
    addDouble (skewness_sum m)
              (F64.mul (pow dev (F64.of_Z 3)) (F64.of_float Mag)) in
  let crossed := IEEE.gtb (roloff_sum m) rolloff_threshold in
  let rolloff' :=
    if IEEE.eqb (rolloff m) IEEE.zero
    then if crossed
         then F32.of_double (F64.div (F64.of_Z i) (F64.of_Z NumBins'))
         else rolloff m
    else rolloff m in
  let roloff_sum' :=
    if IEEE.eqb (rolloff m) IEEE.zero
    then if crossed then roloff_sum m else F32.add (roloff_sum m) Mag
    else roloff_sum m in
  let difference := F32.sub Mag meanVal in
  let squaredDifference := F32.sq difference in
  mkMoments (F32.add (moment2 m) squaredDifference)
            (F32.add (moment4 m) (F32.sq squaredDifference))
            spread_sum' skewness_sum' rolloff' roloff_sum'.

Fixpoint momentsLoop (NumBins' : Z) (centroid meanVal rolloff_threshold : F32.t)
         (bins : list F32.t) (idxs : list Z) (m : Moments) : option Moments :=
  match idxs with
  | [] => Some m
  | i :: idxs' =>
      Mag <- rd bins i ;;
      momentsLoop NumBins' centroid meanVal rolloff_threshold bins idxs'
        (momentsStep NumBins' centroid meanVal rolloff_threshold i Mag m)
  end.


(** [getFeatures]: the array [Features] afterwards (the function returns
    a pointer to it) *)
Definition getFeatures (a : Analyzer) (Spectrum : option (list F32.t))
           (len : Z) : option (SpectrumFeature -> F32.t) :=
  let bins := binsOf a Spectrum in
  let NumBins' := if len =? 0 then NumBins a else len in
  s <- sumsLoop a bins (indices 1 NumBins') Sums0 ;;
  let n := F64.of_Z NumBins' in
  let sumfVal' := F64.div (sumfVal s) n in
  let logSumfVal' := F64.div (logSumfVal s) n in
  let meanVal := F32.of_double (F64.div (F64.of_float (sumAmplitudes s)) n) in
  let meancVal := F32.of_double (F64.div (F64.of_float (sumcVal s)) n) in
  let F := setFeature (Features a) Fpeakfreq (peakFreq s) in
  let F := setFeature F Fpeakmag (peakMag s) in
  let F := setFeature F Favgmag meanVal in
  let centroid :=
    if IEEE.gtb (sumAmplitudes s) IEEE.zero
    then F32.div (sumWeightedAmplitudes s) (sumAmplitudes s)
    else IEEE.zero in
  let F := setFeature F Fcentroid centroid in
  let F := setFeature F Fflatness
             (F32.of_double
                (if IEEE.gtb sumfVal' IEEE.zero
                 then F64.div (exp logSumfVal') sumfVal'
                 else IEEE.zero)) in
  let F := setFeature F Fcrest
             (if IEEE.gtb (sumcVal s) IEEE.zero
              then F32.div (maxcVal s) meancVal
              else F32.of_Z 1) in
  let rolloff_threshold :=
    F32.mul (roloffpercentile (Config a)) (sumAmplitudes s) in
  m <- momentsLoop NumBins' centroid meanVal rolloff_threshold bins
         (indices 1 NumBins') Moments0 ;;
  let F := setFeature F Frolloff (rolloff m) in
  let spread :=
    F32.of_double
      (F64.sqrt (F64.of_float (F32.div (spread_sum m) (sumAmplitudes s)))) in
  let F := setFeature F Fspread spread in
  let F := setFeature F Fskewness
             (F32.of_double
                (F64.div
                   (F64.of_float (F32.div (skewness_sum m) (sumAmplitudes s)))
                   (pow (F64.of_float spread) (F64.of_Z 3)))) in
  let moment2' := F32.div (moment2 m) (F32.of_Z NumBins') in
  let moment4' := F32.div (moment4 m) (F32.of_Z NumBins') in
  let F := setFeature F Fkurtosis
             (if IEEE.eqb moment2' IEEE.zero
              then F32.of_Z (-3)
              else F32.of_double
                     (F64.sub (F64.of_float (F32.div moment4' (F32.sq moment2')))
                              (F64.of_Z 3))) in
  Some F.

(** *** Cepstral coefficients *)

(** [MFCC::calculateMelFrequencyCepstralCoefficients], the numerical
    pipeline of MFCC.h (mel spectrum, logarithm, cosine transform):
    the new contents of the MFCC object, given the bins. *)
Variable calculateMelFrequencyCepstralCoefficients :
  MFCC_h.t -> list F32.t -> option MFCC_h.t.

(** [getMfcc]: the analyzer afterwards and the returned pointer *)
Definition getMfcc (a : Analyzer) (Spectrum : option (list F32.t)) (len : Z)
  : option (Analyzer * option nat) :=
  if 0 <? mfcccoeff (Config a)
  then
    '(ad, m) <- mfcc a ;;
    m' <- calculateMelFrequencyCepstralCoefficients m (binsOf a Spectrum) ;;
    Some (mkAnalyzer (Bins a) (NumBins a) (Fr a) (Some ad) (NumMfccCoeff a)
                     (Signature a) (SignatureLen a) (Features a) (Config a)
                     (initialized a) (signal a) (spectrum a) (FFT a)
                     (Some (ad, m')) (yin a),
          Some ad)
  else Some (a, None).

End Libm.


(** *** Ownership *)

(** the address an owning pointer holds, if any *)
Definition addrs {A : Type} (p : ptr A) : list nat :=
  match p with
  | Some (ad, _) => [ad]
  | None => []
  end.

(** the addresses of the objects the engine holds through its six owning
    pointers, in the order in which [End] releases them *)
Definition owned (a : Analyzer) : list nat :=
  addrs (signal a) ++ addrs (spectrum a) ++ addrs (Signature a)
  ++ addrs (FFT a) ++ addrs (mfcc a) ++ addrs (yin a).

(** the heap accounts for the engine: what the engine holds is allocated,
    its objects are distinct, every allocated address has been handed out,
    and an engine that is not initialised holds nothing *)
Definition accounted (g : Statics) (a : Analyzer) : Prop :=
  incl (owned a) (live (heap g))
  /\ NoDup (owned a)
  /\ (forall ad, In ad (live (heap g)) -> (ad < next_addr (heap g))%nat)
  /\ (initialized a = false -> owned a = []).

(** *** Amplitudes *)

(** 22.627 *)
Definition FFT_AMP_SCALE_FACTOR : F64.t :=
  F64.div (F64.of_Z 22627) (F64.of_Z 1000).

(** [amplitude(float mag)]:
    [FFT_AMP_SCALE_FACTOR * fabs(mag) / Config.fftlength], computed in
    [double] and returned as a [float] *)
Definition amplitude_mag (a : Analyzer) (mag : F32.t) : F32.t :=
  F32.of_double
    (F64.div (F64.mul FFT_AMP_SCALE_FACTOR (F64.of_float (IEEE.fabs mag)))
             (F64.of_Z (fftlength (Config a)))).

(** the array behind the public alias [Bins]: the spectrum buffer while
    the alias holds its address; reading through a null or stale alias is a
    fault *)
Definition BinsArray (a : Analyzer) : option (list F32.t) :=
  match Bins a, spectrum a with
  | Some ad, Some (ad', s) => if Nat.eqb ad ad' then Some s else None
  | _, _ => None
  end.

(** [amplitude(unsigned bin)], which reads [Bins[bin]] *)
Definition amplitude_bin (a : Analyzer) (bin : Z) : option F32.t :=
  bins <- BinsArray a ;;
  b <- rd bins bin ;;
  Some (amplitude_mag a b).

(** [scaleMag]: [mag * ANALYZER_DEFAULT_FFTSCALE / peak] *)
Definition scaleMag (mag peak : F32.t) : F32.t :=
  F32.div (F32.mul mag (F32.of_Z ANALYZER_DEFAULT_FFTSCALE)) peak.

(** *** The transform *)

Section Fft.
(** The member functions of the external [ESP_fft] that [doFft] calls.
    The object was constructed on the engine's [signal] and [spectrum]
    buffers; each call is taken as a function of the object and of the
    contents of the two buffers. *)
Variable T : Type.
Variable toFloat : T -> F32.t.
Variables hammingWindow removeDC execute complexToMagnitude :
  ESP_fft.t -> list F32.t * list F32.t -> list F32.t * list F32.t.
Variables majorPeakFreq majorPeak :
  ESP_fft.t -> list F32.t * list F32.t -> F32.t.

(** [doFft(Signal, removeDC)]: the analyzer afterwards.  The copy loop needs
    the signal buffer; the calls need the [FFT] object, which works on both
    buffers. *)
Definition doFft (a : Analyzer) (Signal : list T) (removeDC' : bool)
  : option Analyzer :=
  let n := Z.to_nat (fftlength (Config a)) in
  '(sad, buf) <- signal a ;;
  buf <- copyLoop T toFloat Signal n 0 buf ;;
  '(fad, fft) <- FFT a ;;
  '(pad, spec) <- spectrum a ;;
  let b := hammingWindow fft (buf, spec) in
  let b := if removeDC' then removeDC fft b else b in
  let b := execute fft b in
  let b := complexToMagnitude fft b in
  let F := setFeature (Features a) Fpeakfreq (majorPeakFreq fft b) in
  let F := setFeature F Fpeakmag (majorPeak fft b) in
  spec <- (if removeDC' then wr (snd b) 0 IEEE.zero else Some (snd b)) ;;
  Some (mkAnalyzer (Bins a) (NumBins a) (Fr a) (Mfccs a) (NumMfccCoeff a)
                   (Signature a) (SignatureLen a) F (Config a)
                   (initialized a)
                   (Some (sad, fst b)) (Some (pad, spec))
                   (FFT a) (mfcc a) (yin a)).
End Fft.

(** *** States used in examples *)

(** the C library of the examples: [log x] is taken as x - 1 and [exp y]
    as 1 + (700/1127) y, two straight lines that make the constructor of
    [MFCC] place its filters evenly over the bins *)
#[export] Instance ExampleLibm : Libm := {|
  libm_log := fun x => F64.sub x (F64.of_Z 1);
  libm_exp := fun y =>
    F64.add (F64.of_Z 1) (F64.mul y (F64.div (F64.of_Z 700) (F64.of_Z 1127)))
|}.

Definition Statics0 : Statics := Statics_init (fun _ => []) [].

(** the state reached by a call that does not fault *)
Definition reached (o : option (Statics * Analyzer)) : Statics * Analyzer :=
  match o with
  | Some st => st
  | None => (Statics0, Analyzer_zero)
  end.

(** the program of examples/Example1.cpp after the constructor of the
    global [Processor] has run, with memory available *)
Definition Example1 : Statics * Analyzer :=
  Eval vm_compute in
  reached (Analyzer_default Statics0).
Definition Processor : Analyzer := snd Example1.

(** the default configuration with another transform length, and with
    another gain *)
Definition configLength (L : Z) : AnalyzerConfig :=
  mkConfig (samplefreq defaultConfig) L (sensitivity defaultConfig)
           (gain defaultConfig) (roloffpercentile defaultConfig)
           (numranges defaultConfig) (ranges defaultConfig)
           (fuzzfactor defaultConfig) (mfcccoeff defaultConfig).

Definition configGain (gain' : Z) : AnalyzerConfig :=
  mkConfig (samplefreq defaultConfig) (fftlength defaultConfig)
           (sensitivity defaultConfig) gain' (roloffpercentile defaultConfig)
           (numranges defaultConfig) (ranges defaultConfig)
           (fuzzfactor defaultConfig) (mfcccoeff defaultConfig).

(** [Processor.setConfig] with transform length 1024, once and twice *)
Definition Example1024 : Statics * Analyzer :=
  Eval vm_compute in
  reached (setConfig (fst Example1) Processor (configLength 1024)).
Definition Example1024twice : Statics * Analyzer :=
  Eval vm_compute in
  reached (setConfigTimes 2 (fst Example1) Processor (configLength 1024)).

(** the default configuration with transform length 1024 that uses only
    the first three of the default ranges, applied to [Processor]; and
    transform length 768 applied three times *)
Definition configShort : AnalyzerConfig :=
  mkConfig (samplefreq defaultConfig) 1024 (sensitivity defaultConfig)
           (gain defaultConfig) (roloffpercentile defaultConfig)
           3 (ranges defaultConfig)
           (fuzzfactor defaultConfig) (mfcccoeff defaultConfig).
Definition ExampleShort : Statics * Analyzer :=
  Eval vm_compute in
  reached (setConfig (fst Example1) Processor configShort).
Definition Example768thrice : Statics * Analyzer :=
  Eval vm_compute in
  reached (setConfigTimes 3 (fst Example1) Processor (configLength 768)).

(** [Processor.setConfig] with another gain *)
Definition ExampleGain : Statics * Analyzer :=
  Eval vm_compute in
  reached (setConfig (fst Example1) Processor (configGain 80)).

(** the constructor of [Processor] when the sixth allocation, that of the
    pitch estimator, fails *)
Definition StaticsYinFails : Statics :=
  Statics_init (fun _ => []) [true; true; true; true; true; false].
Definition ExampleYinFails : Statics * Analyzer :=
  Eval vm_compute in
  reached (Analyzer_default StaticsYinFails).


(** [Processor] configured with sensitivity 0 *)
Definition configInsensitive : AnalyzerConfig :=
  mkConfig (samplefreq defaultConfig) (fftlength defaultConfig)
           IEEE.zero (gain defaultConfig) (roloffpercentile defaultConfig)
           (numranges defaultConfig) (ranges defaultConfig)
           (fuzzfactor defaultConfig) (mfcccoeff defaultConfig).
Definition ProcessorInsensitive : Analyzer :=
  Eval vm_compute in
  snd (reached (setConfig (fst Example1) Processor configInsensitive)).

(** a spectrum of eight bins, quiet below bin 5 and loud from there on, and
    its fingerprint by [Processor], with the identity standing for the
    C library's [log] *)
Definition ExampleSpectrum : option (list F32.t) :=
  Some (map F32.of_Z [0; 1; 1; 1; 1; 100; 100; 100]).

Definition ExampleFingerprint : Analyzer * option nat :=
  match getSignature (fun x => x) (fst Example1) Processor ExampleSpectrum 8 with
  | Some r => r
  | None => (Analyzer_zero, None)
  end.


(** [Processor.setConfig] again after the failed construction above, now
    with memory available *)
Definition ExampleRetry : Statics * Analyzer :=
  Eval vm_compute in
  reached (setConfig (fst ExampleYinFails) (snd ExampleYinFails) defaultConfig).

(** the default configuration with transform length 1024 and seven ranges *)
Definition configSeven : AnalyzerConfig :=
  mkConfig (samplefreq defaultConfig) 1024 (sensitivity defaultConfig)
           (gain defaultConfig) (roloffpercentile defaultConfig)
           7 (ranges defaultConfig)
           (fuzzfactor defaultConfig) (mfcccoeff defaultConfig).

(** transform length 1024 and then the default configuration again *)
Definition ExampleBackTo512 : Statics * Analyzer :=
  Eval vm_compute in
  reached (setConfig (fst Example1024) (snd Example1024) defaultConfig).

(** [Begin] on the zero-initialised engine when the first allocation, that
    of the signal buffer, fails *)
Definition ExampleBegin : Heap * Analyzer * bool :=
  Eval vm_compute in
  match Begin (mkHeap 1 [] [false]) Analyzer_zero with
  | Some r => r
  | None => (mkHeap 1 [] [], Analyzer_zero, false)
  end.

(** [Processor.setConfig] with transform length 8 *)
Definition Example8 : Statics * Analyzer :=
  Eval vm_compute in
  reached (setConfig (fst Example1) Processor (configLength 8)).

(** the features of [ExampleSpectrum] by [Processor], with the identity
    standing for [log] and [exp] and the first projection for [pow] *)
Definition ExampleFeatures : SpectrumFeature -> F32.t :=
  match getFeatures (fun x => x) (fun x => x) (fun x _ => x)
                    Processor ExampleSpectrum 8 with
  | Some F => F
  | None => fun _ => IEEE.zero
  end.

(** an MFCC object with two coefficients over three bins (frame size 6,
    sample rate 8000), freshly allocated arrays and a filter bank of zeros
    and ones *)
Definition ExampleMfcc : MFCC_h.t :=
  MFCC_h.mk (new_floats 2) (new_floats 2) 2 8000 6 3
            IEEE.zero (F32.of_Z 4000)
            [map F32.of_Z [0; 1; 0]; map F32.of_Z [0; 0; 1]]
            (new_floats 2).

(** a pitch estimator for frames of eighty samples, and a difference
    function with a single dip, at lag 33 *)
Definition ExampleYin80 : YIN.t := YIN.create 8000 80.
Definition ExampleDelta80 : list F32.t :=
  repeat (F32.of_Z 1) 33 ++ IEEE.zero :: repeat (F32.of_Z 1) 6.

(** [getPitch] and [doFft] of the engine of [Example8] on eight samples;
    for [doFft] every call of the external transform leaves the buffers as
    they are and both peaks are reported as 0 *)
Definition ExampleSamples : list Z := [0; 0; 1; 0; 1; 0; 0; 0].
Definition ExampleGetPitch : Analyzer * F32.t :=
  match getPitch Z F32.of_Z (snd Example8) ExampleSamples with
  | Some r => r
  | None => (Analyzer_zero, IEEE.zero)
  end.
Definition ExampleDoFft : Analyzer :=
  match doFft Z F32.of_Z (fun _ b => b) (fun _ b => b) (fun _ b => b)
              (fun _ b => b) (fun _ _ => IEEE.zero) (fun _ _ => IEEE.zero)
              (snd Example8) ExampleSamples true with
  | Some r => r
  | None => Analyzer_zero
  end.

(** a pitch estimator for frames of eight samples at 8000 Hz, a frame, and
    the outcome of its first [pitchYin] call *)
Definition ExampleYin : YIN.t := YIN.create 8000 8.
Definition ExampleFrame : list F32.t := map F32.of_Z [0; 0; 1; 0; 1; 0; 0; 0].
Definition ExamplePitch : YIN.t * F32.t :=
  match YIN.pitchYin ExampleYin ExampleFrame with
  | Some r => r
  | None => (ExampleYin, IEEE.zero)
  end.

End SoundAnalyzer.

(** * Part II: properties *)

Lemma bind_Some {A B} (m : option A) (k : A -> option B) (b : B) :
  bind m k = Some b <-> exists a, m = Some a /\ k a = Some b.
Proof.
  destruct m as [a|]; simpl; split.
  - intro H; exists a; auto.
  - intros (a' & Ha & Hk); inversion Ha; subst; assumption.
  - discriminate.
  - intros (a' & Ha & _); discriminate.
Qed.

Import SoundAnalyzer.

(** ** The fingerprint hash *)

Section Hash.
Variable fuzz : Z.

Lemma signatureHashFrom_ext (s1 s2 : list Z) (n off : nat) :
  (forall i, (off <= i < off + n)%nat -> nth_error s1 i = nth_error s2 i) ->
  signatureHashFrom fuzz s1 n off = signatureHashFrom fuzz s2 n off.
Proof.
  revert off; induction n as [|n IH]; intros off Hagree; simpl.
  - reflexivity.
  - rewrite (IH (S off)) by (intros i Hi; apply Hagree; lia).
    rewrite (Hagree off) by lia.
    reflexivity.
Qed.

Lemma signatureHashFrom_fold (pre sig : list Z) :
  fuzz <> 0 ->
  signatureHashFrom fuzz (pre ++ sig) (length sig) (length pre)
  = Some (fold_right (hashStep fuzz) 5381 sig).
Proof.
  intro Hfuzz; revert pre; induction sig as [|v sig IH]; intro pre; simpl.
  - reflexivity.
  - replace (pre ++ v :: sig) with ((pre ++ [v]) ++ sig)
      by (rewrite <- app_assoc; reflexivity).
    replace (S (length pre)) with (length (pre ++ [v]))
      by (rewrite length_app; simpl; lia).
    rewrite IH; simpl.
    rewrite <- app_assoc; simpl.
    rewrite nth_error_app2, Nat.sub_diag by lia; simpl.
    destruct (Z.eqb_spec fuzz 0) as [E|_]; [contradiction|reflexivity].
Qed.

Lemma quantize_bucket (v : Z) : fuzz <> 0 -> quantize fuzz v = fuzz * (v / fuzz).
Proof.
  intro Hfuzz; unfold quantize.
  pose proof (Z.div_mod v fuzz Hfuzz); lia.
Qed.
End Hash.

Lemma upd_nth_length {A} (i : nat) (x : A) (l l' : list A) :
  upd_nth i x l = Some l' -> length l' = length l.
Proof.
  revert i l'; induction l as [|hd tl IH]; intros [|i] l' H; simpl in H;
    try discriminate.
  - inversion H; reflexivity.
  - apply bind_Some in H as (tl' & Htl & E); inversion E; subst; simpl.
    f_equal; eauto.
Qed.

Lemma upd_nth_In_range {A} (i : nat) (x : A) (l : list A) :
  (i < length l)%nat -> exists l', upd_nth i x l = Some l'.
Proof.
  revert i; induction l as [|hd tl IH]; intros [|i] H; simpl in *; try lia.
  - eauto.
  - destruct (IH i) as (tl' & E); [lia|]. rewrite E; simpl; eauto.
Qed.

Lemma upd_nth_same {A} (i : nat) (x : A) (l l' : list A) :
  upd_nth i x l = Some l' -> nth_error l' i = Some x.
Proof.
  revert i l'; induction l as [|hd tl IH]; intros [|i] l' H; simpl in H;
    try discriminate.
  - inversion H; reflexivity.
  - apply bind_Some in H as (tl' & Htl & E); inversion E; subst; simpl; eauto.
Qed.

Lemma upd_nth_other {A} (i j : nat) (x : A) (l l' : list A) :
  upd_nth i x l = Some l' -> i <> j -> nth_error l' j = nth_error l j.
Proof.
  revert i j l'; induction l as [|hd tl IH]; intros [|i] [|j] l' H Hij;
    simpl in H; try discriminate; try congruence.
  - inversion H; reflexivity.
  - apply bind_Some in H as (tl' & Htl & E); inversion E; reflexivity.
  - apply bind_Some in H as (tl' & Htl & E); inversion E; subst; simpl; eauto.
Qed.

Lemma fold_right_hashStep_upd (fuzz : Z) (i : nat) (v v' : Z) (sig sig' : list Z) :
  nth_error sig i = Some v ->
  upd_nth i v' sig = Some sig' ->
  quantize fuzz v = quantize fuzz v' ->
  fold_right (hashStep fuzz) 5381 sig' = fold_right (hashStep fuzz) 5381 sig.
Proof.
  revert i sig'; induction sig as [|hd tl IH]; intros [|i] sig' Hv Hu Hq;
    simpl in *; try discriminate.
  - inversion Hv; inversion Hu; subst; simpl.
    unfold hashStep; rewrite Hq; reflexivity.
  - apply bind_Some in Hu as (tl' & Htl & E); inversion E; subst; simpl.
    f_equal; eauto.
Qed.

(** C6 (as amended).  The hash of a signature is the right-to-left
    accumulation seeded with 5381 that multiplies the running hash by 33 and
    XORs it with [value - value mod fuzzfactor]; it depends on nothing but the
    first [nr] entries of the array (equal arrays hash equally); and replacing
    the value at any one position by a value of the same fuzz bucket (the
    same quotient by the fuzz factor) changes neither the quantized
    contribution of that position nor the hash. *)
Theorem signatureHash_fuzz_bucket
  (a : Analyzer) (sig sig' other : list Z) (i : nat) (v v' : Z) :
  fuzzfactor (Config a) <> 0 ->
  nth_error sig i = Some v ->
  upd_nth i v' sig = Some sig' ->
  v / fuzzfactor (Config a) = v' / fuzzfactor (Config a) ->
  firstn (length sig) other = sig ->
  let fuzz := fuzzfactor (Config a) in
  signatureHash a sig (length sig) 0
    = Some (fold_right (fun x h => Z.lxor (wrap hash_t_bits (h * 33))
                                          (x - x mod fuzz)) 5381 sig)
  /\ signatureHash a other (length sig) 0 = signatureHash a sig (length sig) 0
  /\ v - v mod fuzz = v' - v' mod fuzz
  /\ signatureHash a sig' (length sig') 0 = signatureHash a sig (length sig) 0.
Proof.
  intros Hfuzz Hv Hu Hbucket Hother fuzz.
  assert (Hq : quantize fuzz v = quantize fuzz v').
  { rewrite !quantize_bucket by assumption. unfold fuzz; rewrite Hbucket; reflexivity. }
  assert (Hfold : forall s, signatureHash a s (length s) 0
                            = Some (fold_right (hashStep fuzz) 5381 s)).
  { intro s; unfold signatureHash. rewrite Nat.sub_0_r.
    apply (signatureHashFrom_fold fuzz [] s Hfuzz). }
  repeat split.
  - apply Hfold.
  - unfold signatureHash. apply signatureHashFrom_ext.
    intros j Hj.
    transitivity (nth_error (firstn (length sig) other) j);
      [|rewrite Hother; reflexivity].
    rewrite nth_error_firstn.
    destruct (Nat.ltb_spec j (length sig)); [reflexivity|lia].
  - exact Hq.
  - rewrite !Hfold. f_equal. eapply fold_right_hashStep_upd; eauto.
Qed.

Lemma signatureHash_fuzz_bucket_witness :
  let sig := [33; 0; 0; 0; 0; 0] in
  let sig' := [40; 0; 0; 0; 0; 0] in
  fuzzfactor (Config Processor) <> 0
  /\ nth_error sig 0 = Some 33
  /\ upd_nth 0 40 sig = Some sig'
  /\ 33 / fuzzfactor (Config Processor) = 40 / fuzzfactor (Config Processor)
  /\ signatureHash Processor sig' (length sig') 0
     = signatureHash Processor sig (length sig) 0.
Proof.
  intros sig sig'.
  assert (H1 : fuzzfactor (Config Processor) <> 0) by (vm_compute; discriminate).
  assert (H2 : nth_error sig 0 = Some 33) by reflexivity.
  assert (H3 : upd_nth 0 40 sig = Some sig') by reflexivity.
  assert (H4 : 33 / fuzzfactor (Config Processor) = 40 / fuzzfactor (Config Processor))
    by (vm_compute; reflexivity).
  assert (H5 : firstn (length sig) sig = sig) by reflexivity.
  refine (conj H1 (conj H2 (conj H3 (conj H4 _)))).
  exact (proj2 (proj2 (proj2
           (signatureHash_fuzz_bucket Processor sig sig' sig 0 33 40 H1 H2 H3 H4 H5)))).
Defined.

(** C6 (as stated) fails: with the default fuzz factor 32, moving the value
    31 by one (less than the fuzz factor) to 32 changes its quantized
    contribution from 0 to 32, and the hash with it. *)
Lemma signatureHash_shift_below_fuzz_counterexample :
  let sig := [31; 0; 0; 0; 0; 0] in
  let sig' := [32; 0; 0; 0; 0; 0] in
  fuzzfactor (Config Processor) = 32
  /\ Z.abs (32 - 31) < fuzzfactor (Config Processor)
  /\ upd_nth 0 32 sig = Some sig'
  /\ quantize (fuzzfactor (Config Processor)) 31 = 0
  /\ quantize (fuzzfactor (Config Processor)) 32 = 32
  /\ getSignatureHash Processor (Some sig) = Some 132056261
  /\ getSignatureHash Processor (Some sig') = Some 132056293
  /\ getSignatureHash Processor (Some sig) <> getSignatureHash Processor (Some sig').
Proof.
  vm_compute. repeat split; try reflexivity. discriminate.
Qed.

Lemma Begin_initialized {libm : Libm} (h : Heap) (a : Analyzer) :
  initialized a = true -> Begin h a = Some (h, a, true).
Proof. intro H; unfold Begin; rewrite H; reflexivity. Qed.

Lemma new_live {A} (h h' : Heap) (x : A) (p : ptr A) :
  new h x = (p, h') ->
  incl (live h) (live h')
  /\ (forall ad, addr_of p = Some ad -> In ad (live h')).
Proof.
  unfold new; destruct (alloc_plan h) as [|[|] plan]; intro E; inversion E; subst;
    simpl; split; try (intros ad Had; inversion Had; subst; simpl; auto);
    try apply incl_tl; try apply incl_refl; try discriminate.
Qed.

Lemma Begin_mfcc_live {libm : Libm} h a memok m ms h' memok' :
  Begin_mfcc h a memok = Some (m, ms, h', memok') -> incl (live h) (live h').
Proof.
  unfold Begin_mfcc.
  destruct ((0 <? mfcccoeff (Config a)) && memok).
  - destruct (new h _) as [[[ad v]|] h1] eqn:E; intro H; [|discriminate].
    apply bind_Some in H as (o & _ & H). inversion H; subst.
    apply (new_live _ _ _ _ E).
  - intro H; inversion H; subst; apply incl_refl.
Qed.

Lemma Begin_Signature_live h a memok s h' memok' :
  Begin_Signature h a memok = (s, h', memok') -> incl (live h) (live h').
Proof.
  unfold Begin_Signature.
  destruct ((0 <? numranges (Config a)) && memok).
  - destruct (new h _) as [p h1] eqn:E; intro H; inversion H; subst.
    apply (new_live _ _ _ _ E).
  - intro H; inversion H; subst; apply incl_refl.
Qed.

Lemma Begin_yin_live h a memok y h' memok' :
  Begin_yin h a memok = (y, h', memok') -> incl (live h) (live h').
Proof.
  unfold Begin_yin.
  destruct memok.
  - destruct (new h _) as [p h1] eqn:E; intro H; inversion H; subst.
    apply (new_live _ _ _ _ E).
  - intro H; inversion H; subst; apply incl_refl.
Qed.

Lemma Begin_inv {libm : Libm} (h h' : Heap) (a a' : Analyzer) (b : bool) :
  Begin h a = Some (h', a', b) ->
  Config a' = Config a /\ initialized a' = b /\ incl (live h) (live h')
  /\ (initialized a = false ->
      forall ad, (addr_of (signal a') = Some ad \/ addr_of (spectrum a') = Some ad
                  \/ addr_of (FFT a') = Some ad) -> In ad (live h')).
Proof.
  unfold Begin.
  destruct (initialized a) eqn:Hinit.
  - intro E; inversion E; subst; repeat split; auto using incl_refl.
    discriminate.
  - destruct (new h _) as [p1 h1] eqn:E1.
    destruct (new h1 _) as [p2 h2] eqn:E2.
    destruct (new h2 _) as [p3 h3] eqn:E3.
    intro E. apply bind_Some in E as ([[[m ms] h4] ok4] & E4 & E).
    destruct (Begin_Signature h4 a ok4) as [[s h5] ok5] eqn:E5.
    destruct (Begin_yin h5 a ok5) as [[y h6] ok6] eqn:E6.
    inversion E; subst; simpl.
    destruct (new_live _ _ _ _ E1) as [I1 L1].
    destruct (new_live _ _ _ _ E2) as [I2 L2].
    destruct (new_live _ _ _ _ E3) as [I3 L3].
    pose proof (Begin_mfcc_live _ _ _ _ _ _ _ E4) as I4.
    pose proof (Begin_Signature_live _ _ _ _ _ _ E5) as I5.
    pose proof (Begin_yin_live _ _ _ _ _ _ E6) as I6.
    assert (I36 : incl (live h3) (live h')) by eauto using incl_tran.
    repeat split; eauto 8 using incl_tran.
    intros _ ad [H|[H|H]]; apply I36; eauto.
Qed.

(** ** Configuration and buffer lifecycle *)

Lemma new_available {A} (h : Heap) (x : A) :
  alloc_plan h = [] ->
  exists ad h', new h x = (Some (ad, x), h') /\ alloc_plan h' = [].
Proof.
  intro H; unfold new; rewrite H; simpl; eauto.
Qed.

Lemma delete_plan {A} (h : Heap) (p : ptr A) :
  alloc_plan (delete h p) = alloc_plan h.
Proof. destruct p as [[ad v]|]; reflexivity. Qed.

Lemma Begin_available {libm : Libm} (h : Heap) (a : Analyzer) :
  alloc_plan h = [] -> constructs (Config a) -> Begin h a <> None.
Proof.
  intros H Hc; unfold Begin.
  destruct (initialized a); [discriminate|].
  destruct (new_available h (new_floats (fftlength (Config a))) H)
    as (ad1 & h1 & -> & H1).
  destruct (new_available h1 (new_floats (fftlength (Config a))) H1)
    as (ad2 & h2 & -> & H2).
  destruct (new_available h2 (ESP_fft.mk (fftlength (Config a)) (samplefreq (Config a))) H2)
    as (ad3 & h3 & -> & H3).
  unfold Begin_mfcc.
  destruct ((0 <? mfcccoeff (Config a)) && _) eqn:Hm.
  - destruct (new_available h3 tt H3) as (ad4 & h4 & -> & H4).
    apply andb_prop in Hm as [Hm _]. apply Z.ltb_lt in Hm.
    destruct (MFCC_h.create _ _ _ _ _) as [o|] eqn:Ho;
      [|exfalso; exact (Hc Hm Ho)].
    simpl.
    destruct (Begin_Signature h4 a true) as [[s h5] ok5].
    destruct (Begin_yin h5 a ok5) as [[y h6] ok6]. discriminate.
  - simpl.
    destruct (Begin_Signature h3 a _) as [[s h5] ok5].
    destruct (Begin_yin h5 a ok5) as [[y h6] ok6]. discriminate.
Qed.

Lemma rescaleLoop_nth (L : Z) (n i : nat) (arr : list Z) :
  (i + n <= length arr)%nat ->
  exists arr',
    rescaleLoop L n i arr = Some arr'
    /\ length arr' = length arr
    /\ forall j, nth_error arr' j
                 = if ((i <=? j) && (j <? i + n))%nat
                   then option_map (rescale L) (nth_error arr j)
                   else nth_error arr j.
Proof.
  revert i arr; induction n as [|n IH]; intros i arr Hlen; simpl.
  - exists arr; repeat split. intro j.
    destruct (Nat.leb_spec i j), (Nat.ltb_spec j (i + 0)); simpl; try reflexivity; lia.
  - destruct (nth_error arr i) as [r|] eqn:Hr;
      [|apply nth_error_None in Hr; lia].
    destruct (upd_nth_In_range i (rescale L r) arr) as (arr1 & Hu); [lia|].
    simpl; rewrite Hu; simpl.
    pose proof (upd_nth_length _ _ _ _ Hu) as Hl1.
    destruct (IH (S i) arr1) as (arr' & Hloop & Hl' & Hnth); [lia|].
    exists arr'; repeat split; [assumption|congruence|].
    intro j; rewrite Hnth.
    destruct (Nat.eq_dec i j) as [<-|Hij].
    + rewrite (upd_nth_same _ _ _ _ Hu), Hr.
      destruct (Nat.leb_spec (S i) i); [lia|].
      destruct (Nat.leb_spec i i); [|lia].
      destruct (Nat.ltb_spec i (i + S n)); [|lia]. reflexivity.
    + rewrite (upd_nth_other _ _ _ _ _ Hu Hij).
      destruct (Nat.leb_spec (S i) j), (Nat.leb_spec i j),
        (Nat.ltb_spec j (S i + n)), (Nat.ltb_spec j (i + S n));
        simpl; try reflexivity; lia.
Qed.

Lemma rescaleLoop_all (L : Z) (arr : list Z) :
  rescaleLoop L (length arr) 0 arr = Some (map (rescale L) arr).
Proof.
  destruct (rescaleLoop_nth L (length arr) 0 arr) as (arr' & -> & Hl & Hnth); [lia|].
  f_equal. apply nth_error_ext. intro j.
  rewrite Hnth, nth_error_map; simpl.
  destruct (Nat.ltb_spec j (length arr)) as [Hj|Hj]; [reflexivity|].
  apply nth_error_None in Hj. rewrite Hj; reflexivity.
Qed.

Lemma rescaleLoop_fault (L : Z) (n i : nat) (arr : list Z) :
  n <> O -> (length arr < i + n)%nat -> rescaleLoop L n i arr = None.
Proof.
  revert i arr; induction n as [|n IH]; intros i arr Hn Hlen; simpl; [lia|].
  destruct (nth_error arr i) as [r|] eqn:Hr; [|reflexivity]. simpl.
  destruct (upd_nth i (rescale L r) arr) as [arr1|] eqn:Hu; [|reflexivity]. simpl.
  assert (i < length arr)%nat by (apply nth_error_Some; congruence).
  apply IH; [lia|]. rewrite (upd_nth_length _ _ _ _ Hu). lia.
Qed.

(** what [setConfig] leaves behind, in terms of [adaptRanges] and [Begin] *)
Lemma setConfig_inv {libm : Libm} (g g' : Statics) (a a' : Analyzer) (cfg : AnalyzerConfig) :
  setConfig g a cfg = Some (g', a') ->
  exists arr cfg',
    adaptRanges g cfg = Some (arr, cfg')
    /\ DefaultRanges g' = arr
    /\ Config a' = cfg'
    /\ getConfig_cfg g' = getConfig_cfg g
    /\ caller_ranges g' = caller_ranges g.
Proof.
  unfold setConfig.
  assert (Hg : forall g1 a1, released g a cfg = (g1, a1) ->
               DefaultRanges g1 = DefaultRanges g
               /\ getConfig_cfg g1 = getConfig_cfg g
               /\ caller_ranges g1 = caller_ranges g).
  { intros g1 a1; unfold released.
    destruct (initialized a && sizesDiffer a cfg); intro E; inversion E; subst; auto. }
  destruct (released g a cfg) as [g1 a1] eqn:E1.
  destruct (Hg _ _ eq_refl) as (Hd & Hc & Hr).
  intro H. apply bind_Some in H as ([arr cfg'] & Had & H).
  apply bind_Some in H as ([[h a2] b] & HB & H).
  inversion H; subst; simpl.
  apply Begin_inv in HB as (HC & _).
  exists arr, cfg'; repeat split; auto.
  unfold adaptRanges in *. rewrite <- Hd. exact Had.
Qed.

Lemma setConfig_available {libm : Libm} (g : Statics) (a : Analyzer) (cfg : AnalyzerConfig) :
  alloc_plan (heap g) = [] ->
  constructs cfg ->
  adaptRanges g cfg <> None ->
  setConfig g a cfg <> None.
Proof.
  intros Hplan Hcons Had. unfold setConfig.
  assert (Hg : forall g1 a1, released g a cfg = (g1, a1) ->
               DefaultRanges g1 = DefaultRanges g /\ alloc_plan (heap g1) = []).
  { intros g1 a1; unfold released.
    destruct (initialized a && sizesDiffer a cfg); intro E; inversion E; subst; auto.
    simpl; rewrite !delete_plan; auto. }
  destruct (released g a cfg) as [g1 a1] eqn:E1.
  destruct (Hg _ _ eq_refl) as (Hd & Hp).
  assert (Had1 : adaptRanges g1 cfg = adaptRanges g cfg)
    by (unfold adaptRanges; rewrite Hd; reflexivity).
  rewrite Had1.
  destruct (adaptRanges g cfg) as [[arr cfg']|] eqn:Hcfg; [simpl|congruence].
  assert (Hcons' : constructs cfg').
  { unfold adaptRanges in Hcfg.
    destruct (negb (fftlength cfg =? ANALYZER_DEFAULT_FFTLENGTH)
              && ranges_ptr_eqb (ranges cfg) DefaultRangesPtr).
    - apply bind_Some in Hcfg as (arr' & _ & Hcfg). injection Hcfg as _ <-.
      exact Hcons.
    - injection Hcfg as _ <-. exact Hcons. }
  match goal with |- context [Begin ?h ?x] =>
    pose proof (Begin_available h x Hp Hcons') as HB;
    destruct (Begin h x) as [[[h2 a2] b]|]
  end; [discriminate|congruence].
Qed.

Lemma adaptRanges_default (g : Statics) (cfg : AnalyzerConfig) :
  ranges cfg = DefaultRangesPtr ->
  fftlength cfg <> ANALYZER_DEFAULT_FFTLENGTH ->
  Z.to_nat (numranges cfg) = length (DefaultRanges g) ->
  adaptRanges g cfg
  = Some (map (rescale (fftlength cfg)) (DefaultRanges g),
          mkConfig (samplefreq cfg) (fftlength cfg) (sensitivity cfg) (gain cfg)
                   (roloffpercentile cfg) (numranges cfg) (ranges cfg)
                   (u32 (ANALYZER_DEFAULT_FUZZFACTOR * fftlength cfg)
                    / ANALYZER_DEFAULT_FFTLENGTH)
                   (mfcccoeff cfg)).
Proof.
  intros Hr HL Hn. unfold adaptRanges. rewrite Hr, Hn, rescaleLoop_all.
  destruct (Z.eqb_spec (fftlength cfg) ANALYZER_DEFAULT_FFTLENGTH); [contradiction|].
  reflexivity.
Qed.

Lemma adaptRanges_unchanged (g : Statics) (cfg : AnalyzerConfig) :
  fftlength cfg = ANALYZER_DEFAULT_FFTLENGTH \/ ranges cfg <> DefaultRangesPtr ->
  adaptRanges g cfg = Some (DefaultRanges g, cfg).
Proof.
  intros [HL|Hr]; unfold adaptRanges.
  - rewrite HL; reflexivity.
  - destruct (ranges cfg); try contradiction; simpl;
      rewrite andb_false_r; reflexivity.
Qed.

(** C2 (as stated) fails: the default set is the baseline of the default
    transform length 512 itself, so that applying the default configuration
    with transform length 512 leaves the boundaries {5,10,20,40,80,256} and the
    fuzz factor 32 as they are. *)
Lemma setConfig_length_512_counterexample :
  match setConfig Statics0 Analyzer_zero defaultConfig with
  | Some (g, a) =>
      fftlength (Config a) = 512
      /\ ranges (Config a) = DefaultRangesPtr
      /\ deref g (ranges (Config a)) = Some [5; 10; 20; 40; 80; 256]
      /\ deref g (ranges (Config a)) <> Some [10; 20; 40; 80; 160; 512]
      /\ fuzzfactor (Config a) = 32
      /\ fuzzfactor (Config a) <> 64
  | None => False
  end.
Proof.
  vm_compute. repeat split; try reflexivity; discriminate.
Qed.

(** C2 (as amended).  Applying a configuration that uses the default range
    set with transform length 1024 rescales the default boundaries
    {5,10,20,40,80,256}, which belong to the default transform length 512, by
    1024/512 to exactly {10,20,40,80,160,512}, and the fuzz factor from 32 to
    64; with memory available, and when the constructor of the MFCC object
    completes on the sizes of the configuration, the call completes. *)
Theorem setConfig_length_1024_rescales {libm : Libm}
  (g : Statics) (a : Analyzer) (cfg : AnalyzerConfig) :
  DefaultRanges g = ANALYZER_DEFAULT_RANGES_256 ->
  ranges cfg = DefaultRangesPtr ->
  numranges cfg = ANALYZER_DEFAULT_NUMRANGES ->
  fftlength cfg = 1024 ->
  (alloc_plan (heap g) = [] -> constructs cfg -> setConfig g a cfg <> None)
  /\ forall g' a',
       setConfig g a cfg = Some (g', a') ->
       deref g' (ranges (Config a')) = Some [10; 20; 40; 80; 160; 512]
       /\ fuzzfactor (Config a') = 64.
Proof.
  intros Hbase Hr Hn HL.
  assert (Had := adaptRanges_default g cfg Hr).
  rewrite HL, Hn, Hbase in Had.
  specialize (Had ltac:(discriminate) eq_refl).
  split.
  - intros Hplan Hcons. apply setConfig_available; [assumption|assumption|].
    rewrite Had; discriminate.
  - intros g' a' H.
    apply setConfig_inv in H as (arr & cfg' & Had' & Hd & Hc & _).
    rewrite Had in Had'. injection Had' as <- <-.
    rewrite Hc; simpl. rewrite Hr; simpl. rewrite Hd.
    split; reflexivity.
Qed.

Lemma setConfig_length_1024_rescales_witness :
  DefaultRanges (fst Example1) = ANALYZER_DEFAULT_RANGES_256
  /\ ranges (configLength 1024) = DefaultRangesPtr
  /\ numranges (configLength 1024) = ANALYZER_DEFAULT_NUMRANGES
  /\ fftlength (configLength 1024) = 1024
  /\ setConfig (fst Example1) Processor (configLength 1024)
     = Some (fst Example1024, snd Example1024)
  /\ deref (fst Example1024) (ranges (Config (snd Example1024)))
     = Some [10; 20; 40; 80; 160; 512]
  /\ fuzzfactor (Config (snd Example1024)) = 64.
Proof.
  assert (H1 : DefaultRanges (fst Example1) = ANALYZER_DEFAULT_RANGES_256)
    by (vm_compute; reflexivity).
  assert (H2 : ranges (configLength 1024) = DefaultRangesPtr) by reflexivity.
  assert (H3 : numranges (configLength 1024) = ANALYZER_DEFAULT_NUMRANGES)
    by reflexivity.
  assert (H4 : fftlength (configLength 1024) = 1024) by reflexivity.
  assert (H5 : setConfig (fst Example1) Processor (configLength 1024)
               = Some (fst Example1024, snd Example1024))
    by (vm_compute; reflexivity).
  refine (conj H1 (conj H2 (conj H3 (conj H4 (conj H5 _))))).
  exact (proj2 (setConfig_length_1024_rescales (fst Example1) Processor
                  (configLength 1024) H1 H2 H3 H4) _ _ H5).
Defined.


Lemma rescale_multiple (k r : Z) :
  rescale (ANALYZER_DEFAULT_FFTLENGTH * k) r = (r * k) mod 2 ^ 23.
Proof.
  unfold rescale, u32, wrap, UINT_BITS, ANALYZER_DEFAULT_FFTLENGTH.
  replace (r * (512 * k)) with (r * k * 512) by ring.
  change (2 ^ 32) with (2 ^ 23 * 512).
  rewrite Z.mul_mod_distr_r by lia.
  apply Z.div_mul; lia.
Qed.

Lemma iter_rescale_multiple (k r : Z) (n : nat) :
  Nat.iter (S n) (rescale (ANALYZER_DEFAULT_FFTLENGTH * k)) r
  = (r * k ^ Z.of_nat (S n)) mod 2 ^ 23.
Proof.
  induction n as [|n IH].
  - change (Nat.iter 1 ?f r) with (f r).
    rewrite rescale_multiple. f_equal. change (Z.of_nat 1) with 1. lia.
  - change (Nat.iter (S (S n)) ?f r) with (f (Nat.iter (S n) f r)).
    rewrite IH, rescale_multiple.
    rewrite Z.mul_mod_idemp_l by lia.
    f_equal. rewrite (Nat2Z.inj_succ (S n)), Z.pow_succ_r by lia. ring.
Qed.

Lemma rescaleLoop_prefix (L : Z) (k : nat) (arr arr' : list Z) :
  rescaleLoop L k 0 arr = Some arr' ->
  (k <= length arr)%nat
  /\ arr' = map (rescale L) (firstn k arr) ++ skipn k arr.
Proof.
  intro H.
  assert (Hk : (k <= length arr)%nat).
  { destruct (Nat.le_gt_cases k (length arr)) as [Hle|Hgt]; [assumption|].
    rewrite rescaleLoop_fault in H; [discriminate|lia|lia]. }
  split; [assumption|].
  destruct (rescaleLoop_nth L k 0 arr) as (arr1 & H1 & _ & Hnth); [lia|].
  rewrite H in H1; injection H1 as <-.
  apply nth_error_ext; intro j. rewrite Hnth.
  assert (Hlen : length (map (rescale L) (firstn k arr)) = k)
    by (rewrite length_map, length_firstn; lia).
  simpl. destruct (Nat.ltb_spec j k) as [Hj|Hj].
  - rewrite nth_error_app1 by lia.
    rewrite nth_error_map, nth_error_firstn.
    destruct (Nat.ltb_spec j k); [reflexivity|lia].
  - rewrite nth_error_app2 by lia.
    rewrite Hlen, nth_error_skipn. f_equal. lia.
Qed.

(** rescaling the first [k] entries once more *)
Lemma rescale_prefix_again (L : Z) (k n : nat) (arr : list Z) :
  (k <= length arr)%nat ->
  let arr1 := map (rescale L) (firstn k arr) ++ skipn k arr in
  map (Nat.iter n (rescale L)) (firstn k arr1) ++ skipn k arr1
  = map (Nat.iter (S n) (rescale L)) (firstn k arr) ++ skipn k arr.
Proof.
  intros Hk arr1; subst arr1.
  set (l1 := map (rescale L) (firstn k arr)).
  assert (Hlen : length l1 = k)
    by (subst l1; rewrite length_map, length_firstn; lia).
  assert (Hf : firstn k l1 = l1) by (apply firstn_all2; lia).
  assert (Hs : skipn k l1 = []) by (apply skipn_all2; lia).
  rewrite firstn_app, skipn_app, Hlen, Nat.sub_diag, Hf, Hs.
  subst l1. simpl. rewrite app_nil_r, map_map. f_equal.
  apply map_ext. intro r. symmetry. apply Nat.iter_succ_r.
Qed.

Lemma adaptRanges_prefix (g : Statics) (cfg : AnalyzerConfig)
  (arr : list Z) (cfg' : AnalyzerConfig) :
  ranges cfg = DefaultRangesPtr ->
  fftlength cfg <> ANALYZER_DEFAULT_FFTLENGTH ->
  adaptRanges g cfg = Some (arr, cfg') ->
  let k := Z.to_nat (numranges cfg) in
  (k <= length (DefaultRanges g))%nat
  /\ arr = map (rescale (fftlength cfg)) (firstn k (DefaultRanges g))
           ++ skipn k (DefaultRanges g)
  /\ fuzzfactor cfg'
     = u32 (ANALYZER_DEFAULT_FUZZFACTOR * fftlength cfg)
       / ANALYZER_DEFAULT_FFTLENGTH.
Proof.
  intros Hr HL H k. unfold adaptRanges in H. rewrite Hr in H.
  destruct (Z.eqb_spec (fftlength cfg) ANALYZER_DEFAULT_FFTLENGTH);
    [contradiction|].
  simpl in H. apply bind_Some in H as (arr1 & Hloop & H).
  injection H as <- <-.
  apply rescaleLoop_prefix in Hloop as (Hk & ->).
  repeat split; assumption.
Qed.

Lemma setConfigTimes_default {libm : Libm} (n : nat) (cfg : AnalyzerConfig) :
  ranges cfg = DefaultRangesPtr ->
  fftlength cfg <> ANALYZER_DEFAULT_FFTLENGTH ->
  forall g a g' a',
    setConfigTimes n g a cfg = Some (g', a') ->
    let k := Z.to_nat (numranges cfg) in
    DefaultRanges g'
    = map (Nat.iter n (rescale (fftlength cfg))) (firstn k (DefaultRanges g))
      ++ skipn k (DefaultRanges g)
    /\ (n <> O ->
        (k <= length (DefaultRanges g))%nat
        /\ fuzzfactor (Config a')
           = u32 (ANALYZER_DEFAULT_FUZZFACTOR * fftlength cfg)
             / ANALYZER_DEFAULT_FFTLENGTH).
Proof.
  intros Hr HL. unfold setConfigTimes.
  induction n as [|n IH]; intros g a g' a' H; simpl in H.
  - inversion H; subst. split; [|congruence].
    simpl. rewrite map_id. symmetry; apply firstn_skipn.
  - apply bind_Some in H as ([g1 a1] & H1 & H).
    apply setConfig_inv in H1 as (arr & cfg' & Had & Hd & Hc & _).
    apply (adaptRanges_prefix g cfg arr cfg' Hr HL) in Had as (Hk & Harr & Hfz).
    destruct (IH g1 a1 g' a' H) as (IHd & IHf).
    split.
    + rewrite IHd, Hd, Harr. apply rescale_prefix_again; exact Hk.
    + intros _. split; [exact Hk|]. destruct n as [|n].
      * simpl in H. inversion H; subst. exact Hfz.
      * apply IHf; discriminate.
Qed.

(** C10 (as stated) fails.  A configuration with the default ranges pointer,
    transform length 1024 and three ranges in use: [setConfig] doubles the
    first three entries of the shared array and leaves the other three as
    they were, so not every entry of the array is multiplied.  And with
    transform length 768 applied three times the first boundary 5 becomes
    7, 10, 15, not 5 * (768/512) ^ 3 rounded down, which is 16. *)
Lemma setConfig_every_entry_counterexample :
  ranges configShort = DefaultRangesPtr
  /\ fftlength configShort <> ANALYZER_DEFAULT_FFTLENGTH
  /\ setConfig (fst Example1) Processor configShort = Some ExampleShort
  /\ DefaultRanges (fst Example1) = [5; 10; 20; 40; 80; 256]
  /\ DefaultRanges (fst ExampleShort) = [10; 20; 40; 40; 80; 256]
  /\ DefaultRanges (fst ExampleShort)
     <> map (fun r => r * 1024 / 512) (DefaultRanges (fst Example1))
  /\ setConfigTimes 3 (fst Example1) Processor (configLength 768)
     = Some Example768thrice
  /\ DefaultRanges (fst Example768thrice) = [15; 33; 67; 135; 270; 864]
  /\ DefaultRanges (fst Example768thrice)
     <> map (fun r => r * 768 ^ 3 / 512 ^ 3) (DefaultRanges (fst Example1)).
Proof.
  vm_compute. repeat split; try reflexivity; discriminate.
Qed.

(** C10 (as amended).  A configuration whose [ranges] is the shared array
    [DefaultRanges], with a transform length L other than the default 512
    and with k ranges in use: every [setConfig] replaces in place each of the
    first k entries r of that array by r * L / 512 (in [unsigned]
    arithmetic, rounded down) and leaves the entries after them alone, so
    that n calls with the same configuration compound to the n-fold
    application; for L = 512 * c the entries are r * c ^ n as long as these
    stay below 2 ^ 23.  The array is the one that every other analyzer with
    the default ranges and [defaultConfig()] itself refer to.  The fuzz
    factor is 32 * L / 512 after every call. *)
Theorem setConfig_default_ranges_compound {libm : Libm}
  (n : nat) (g g' : Statics) (a a' other : Analyzer) (cfg : AnalyzerConfig) :
  ranges cfg = DefaultRangesPtr ->
  fftlength cfg <> ANALYZER_DEFAULT_FFTLENGTH ->
  ranges (Config other) = DefaultRangesPtr ->
  setConfigTimes n g a cfg = Some (g', a') ->
  let L := fftlength cfg in
  let k := Z.to_nat (numranges cfg) in
  DefaultRanges g'
  = map (Nat.iter n (fun r => u32 (r * L) / 512)) (firstn k (DefaultRanges g))
    ++ skipn k (DefaultRanges g)
  /\ (k = length (DefaultRanges g) ->
      DefaultRanges g'
      = map (Nat.iter n (fun r => u32 (r * L) / 512)) (DefaultRanges g))
  /\ (forall c r, L = 512 * c -> 0 <= r * c ^ Z.of_nat n < 2 ^ 23 ->
                  Nat.iter n (fun r => u32 (r * L) / 512) r = r * c ^ Z.of_nat n)
  /\ deref g' (ranges (Config other)) = Some (DefaultRanges g')
  /\ deref g' (ranges defaultConfig) = Some (DefaultRanges g')
  /\ (n <> O -> fuzzfactor (Config a') = u32 (32 * L) / 512).
Proof.
  intros Hr HL Ho H L k.
  destruct (setConfigTimes_default n cfg Hr HL g a g' a' H) as (Hd & Hf).
  split; [|split; [|split; [|split; [|split]]]].
  - exact Hd.
  - intro Hk. rewrite Hd. fold k. rewrite Hk, firstn_all, skipn_all.
    apply app_nil_r.
  - intros c r Hc Hsmall.
    change (fun r0 => u32 (r0 * L) / 512) with (rescale L).
    destruct n as [|n].
    + simpl. change (Z.of_nat 0) with 0. lia.
    + rewrite Hc.
      change 512 with ANALYZER_DEFAULT_FFTLENGTH at 1.
      rewrite iter_rescale_multiple. apply Z.mod_small; assumption.
  - rewrite Ho; reflexivity.
  - reflexivity.
  - intro Hn. exact (proj2 (Hf Hn)).
Qed.

Lemma setConfig_default_ranges_compound_witness :
  let cfg := configLength 1024 in
  ranges cfg = DefaultRangesPtr
  /\ fftlength cfg <> ANALYZER_DEFAULT_FFTLENGTH
  /\ ranges (Config Processor) = DefaultRangesPtr
  /\ setConfigTimes 2 (fst Example1) Processor cfg
     = Some (fst Example1024twice, snd Example1024twice)
  /\ DefaultRanges (fst Example1024twice)
     = map (Nat.iter 2 (fun r => u32 (r * 1024) / 512))
           (firstn 6 (DefaultRanges (fst Example1)))
       ++ skipn 6 (DefaultRanges (fst Example1))
  /\ DefaultRanges (fst Example1024twice) = [20; 40; 80; 160; 320; 1024]
  /\ DefaultRanges (fst Example1024) = [10; 20; 40; 80; 160; 512]
  /\ fuzzfactor (Config (snd Example1024twice)) = 64.
Proof.
  intro cfg.
  assert (H1 : ranges cfg = DefaultRangesPtr) by reflexivity.
  assert (H2 : fftlength cfg <> ANALYZER_DEFAULT_FFTLENGTH)
    by (vm_compute; discriminate).
  assert (H4 : ranges (Config Processor) = DefaultRangesPtr)
    by (vm_compute; reflexivity).
  assert (H5 : setConfigTimes 2 (fst Example1) Processor cfg
               = Some (fst Example1024twice, snd Example1024twice))
    by (vm_compute; reflexivity).
  refine (conj H1 (conj H2 (conj H4 (conj H5 (conj _ _))))).
  - exact (proj1 (setConfig_default_ranges_compound 2 _ _ _ _ Processor cfg
                    H1 H2 H4 H5)).
  - vm_compute. repeat split; reflexivity.
Defined.

(** C3.  On an initialised engine, a new configuration with the same
    transform length, sample rate, range count and coefficient count leaves
    every buffer and subcomponent of the engine (signal, spectrum, Signature,
    FFT, mfcc, yin), the aliases [Bins] and [Mfccs], and the heap as they
    were: nothing is deallocated or allocated.  The call completes unless the
    adaptation of the default ranges runs past the end of [DefaultRanges]. *)
Theorem setConfig_same_sizes_keeps_buffers {libm : Libm}
  (g : Statics) (a : Analyzer) (newCfg : AnalyzerConfig) :
  initialized a = true ->
  fftlength newCfg = fftlength (Config a) ->
  samplefreq newCfg = samplefreq (Config a) ->
  numranges newCfg = numranges (Config a) ->
  mfcccoeff newCfg = mfcccoeff (Config a) ->
  match setConfig g a newCfg with
  | Some (g', a') =>
      signal a' = signal a /\ spectrum a' = spectrum a
      /\ Signature a' = Signature a /\ FFT a' = FFT a
      /\ mfcc a' = mfcc a /\ yin a' = yin a
      /\ Bins a' = Bins a /\ Mfccs a' = Mfccs a
      /\ heap g' = heap g
      /\ initialized a' = true
  | None =>
      ranges newCfg = DefaultRangesPtr
      /\ fftlength newCfg <> ANALYZER_DEFAULT_FFTLENGTH
      /\ (length (DefaultRanges g) < Z.to_nat (numranges newCfg))%nat
  end.
Proof.
  intros Hinit HL Hs Hn Hm.
  unfold setConfig, released.
  assert (Hsame : sizesDiffer a newCfg = false)
    by (unfold sizesDiffer; rewrite HL, Hs, Hn, Hm, !Z.eqb_refl; reflexivity).
  rewrite Hsame, andb_false_r.
  destruct (adaptRanges g newCfg) as [[arr cfg']|] eqn:Had; simpl.
  - rewrite Begin_initialized by exact Hinit. simpl.
    repeat split; try reflexivity. exact Hinit.
  - unfold adaptRanges in Had.
    destruct (Z.eqb_spec (fftlength newCfg) ANALYZER_DEFAULT_FFTLENGTH) as [E|E];
      simpl in Had; [discriminate|].
    destruct (ranges newCfg); simpl in Had; try discriminate.
    destruct (Nat.le_gt_cases (Z.to_nat (numranges newCfg))
                              (length (DefaultRanges g))) as [Hle|Hgt].
    + destruct (rescaleLoop_nth (fftlength newCfg) (Z.to_nat (numranges newCfg))
                                0 (DefaultRanges g) Hle) as (arr & Hloop & _).
      rewrite Hloop in Had. discriminate.
    + split; [reflexivity|split; [exact E|exact Hgt]].
Qed.

Lemma setConfig_same_sizes_keeps_buffers_witness :
  initialized Processor = true
  /\ fftlength (configGain 80) = fftlength (Config Processor)
  /\ samplefreq (configGain 80) = samplefreq (Config Processor)
  /\ numranges (configGain 80) = numranges (Config Processor)
  /\ mfcccoeff (configGain 80) = mfcccoeff (Config Processor)
  /\ setConfig (fst Example1) Processor (configGain 80)
     = Some (fst ExampleGain, snd ExampleGain)
  /\ gain (Config (snd ExampleGain)) = 80
  /\ signal (snd ExampleGain) = signal Processor
  /\ yin (snd ExampleGain) = yin Processor
  /\ heap (fst ExampleGain) = heap (fst Example1).
Proof.
  assert (H1 : initialized Processor = true) by (vm_compute; reflexivity).
  assert (H2 : fftlength (configGain 80) = fftlength (Config Processor))
    by (vm_compute; reflexivity).
  assert (H3 : samplefreq (configGain 80) = samplefreq (Config Processor))
    by (vm_compute; reflexivity).
  assert (H4 : numranges (configGain 80) = numranges (Config Processor))
    by (vm_compute; reflexivity).
  assert (H5 : mfcccoeff (configGain 80) = mfcccoeff (Config Processor))
    by (vm_compute; reflexivity).
  assert (H6 : setConfig (fst Example1) Processor (configGain 80)
               = Some (fst ExampleGain, snd ExampleGain))
    by (vm_compute; reflexivity).
  assert (H7 : gain (Config (snd ExampleGain)) = 80) by (vm_compute; reflexivity).
  refine (conj H1 (conj H2 (conj H3 (conj H4 (conj H5 (conj H6 (conj H7 _))))))).
  pose proof (setConfig_same_sizes_keeps_buffers (fst Example1) Processor
                (configGain 80) H1 H2 H3 H4 H5) as H.
  rewrite H6 in H.
  destruct H as (Hsig & _ & _ & _ & _ & Hyin & _ & _ & Hheap & _).
  exact (conj Hsig (conj Hyin Hheap)).
Defined.

(** ** getConfig *)

Lemma setConfigs_static {libm : Libm} (cfgs : list AnalyzerConfig) :
  forall g a g' a',
    setConfigs g a cfgs = Some (g', a') -> getConfig_cfg g' = getConfig_cfg g.
Proof.
  induction cfgs as [|cfg cfgs IH]; intros g a g' a' H; simpl in H.
  - inversion H; reflexivity.
  - apply bind_Some in H as ([g1 a1] & H1 & H).
    apply setConfig_inv in H1 as (_ & _ & _ & _ & _ & Hc & _).
    rewrite (IH _ _ _ _ H). exact Hc.
Qed.

(** C9.  [getConfig] hands out its function-local static copy, which is
    initialised from the engine's configuration at the first call and never
    again: after any later [setConfig] calls, [getConfig] (on this analyzer
    or any other) still yields the configuration of the first call, and so
    not the current one whenever that has changed. *)
Theorem getConfig_first_snapshot {libm : Libm}
  (g g' : Statics) (a a' other : Analyzer) (cfgs : list AnalyzerConfig) :
  getConfig_cfg g = None ->
  setConfigs (fst (getConfig g a)) a cfgs = Some (g', a') ->
  snd (getConfig g a) = Config a
  /\ snd (getConfig g' a') = Config a
  /\ snd (getConfig g' other) = Config a
  /\ (Config a' <> Config a -> snd (getConfig g' a') <> Config a').
Proof.
  intros Hfirst H.
  apply setConfigs_static in H.
  unfold getConfig in *. rewrite Hfirst in *. simpl in H.
  rewrite H. simpl. repeat split; congruence.
Qed.

Lemma getConfig_first_snapshot_witness :
  getConfig_cfg (fst Example1) = None
  /\ setConfigs (fst (getConfig (fst Example1) Processor)) Processor
                [configLength 1024]
     = Some (fst (reached (setConfigs (fst (getConfig (fst Example1) Processor))
                                      Processor [configLength 1024])),
             snd Example1024)
  /\ fftlength (Config (snd Example1024)) = 1024
  /\ fftlength
       (snd (getConfig
               (fst (reached (setConfigs (fst (getConfig (fst Example1) Processor))
                                         Processor [configLength 1024])))
               (snd Example1024))) = 512.
Proof.
  assert (H1 : getConfig_cfg (fst Example1) = None) by (vm_compute; reflexivity).
  assert (H2 : setConfigs (fst (getConfig (fst Example1) Processor)) Processor
                          [configLength 1024]
               = Some (fst (reached (setConfigs
                                       (fst (getConfig (fst Example1) Processor))
                                       Processor [configLength 1024])),
                       snd Example1024))
    by (vm_compute; reflexivity).
  assert (H3 : fftlength (Config (snd Example1024)) = 1024)
    by (vm_compute; reflexivity).
  refine (conj H1 (conj H2 (conj H3 _))).
  rewrite (proj1 (proj2 (getConfig_first_snapshot _ _ _ _ Processor _ H1 H2))).
  vm_compute; reflexivity.
Defined.






(** Two more outcomes of a failed allocation in [Begin], for the record.
    When only the first allocation (the signal buffer) fails, [memok] stays
    true and the engine ends up initialised without that buffer; when the
    allocation of the MFCC object fails, [Begin] reads [mfcc->MFCCs] through
    the null pointer. *)
Lemma Begin_signal_failure_unnoticed :
  match Analyzer_default (Statics_init (fun _ => []) [false]) with
  | Some (_, a) => initialized a = true /\ is_null (signal a) = true
  | None => False
  end.
Proof. vm_compute. split; reflexivity. Qed.

Lemma Begin_mfcc_failure_faults :
  Analyzer_default (Statics_init (fun _ => []) [true; true; true; false]) = None.
Proof. vm_compute. reflexivity. Qed.

(** ** Facts of IEEE-754 arithmetic used below *)

Section Rounding.
Variables prec emax : Z.
Hypothesis prec_pos : 0 < prec.

Let emin := SpecFloat.emin prec emax.

Lemma digits2_pos_bounds (p : positive) :
  2 ^ (Zpos (digits2_pos p) - 1) <= Zpos p < 2 ^ Zpos (digits2_pos p).
Proof.
  induction p as [p IH|p IH|]; simpl digits2_pos.
  - rewrite Pos2Z.inj_succ.
    replace (Z.succ (Zpos (digits2_pos p)) - 1) with (Z.succ (Zpos (digits2_pos p) - 1)) by lia.
    rewrite !Z.pow_succ_r by lia. lia.
  - rewrite Pos2Z.inj_succ.
    replace (Z.succ (Zpos (digits2_pos p)) - 1) with (Z.succ (Zpos (digits2_pos p) - 1)) by lia.
    rewrite !Z.pow_succ_r by lia. lia.
  - simpl. lia.
Qed.

Lemma shr_1_m (mrs : shr_record) :
  0 <= shr_m mrs -> shr_m (shr_1 mrs) = shr_m mrs / 2.
Proof.
  destruct mrs as [m r s]; simpl. intro Hm.
  destruct m as [|[p|p|]|p]; simpl; try reflexivity; try lia.
  - rewrite Pos2Z.inj_xI.
    apply Z.div_unique with (r := 1); lia.
  - rewrite Pos2Z.inj_xO.
    apply Z.div_unique with (r := 0); lia.
Qed.

Lemma iter_shr_1_m (n : positive) :
  forall mrs, 0 <= shr_m mrs ->
              shr_m (iter_pos shr_1 n mrs) = shr_m mrs / 2 ^ Zpos n.
Proof.
  assert (Hdiv : forall x a b, 0 <= a -> 0 <= b -> x / 2 ^ a / 2 ^ b = x / 2 ^ (a + b)).
  { intros x a b Ha Hb. rewrite Z.pow_add_r by assumption.
    apply Z.div_div; try (apply Z.pow_pos_nonneg; lia).
    all: try (apply Z.pow_nonzero; lia). }
  induction n as [n IH|n IH|]; intros mrs Hm; simpl iter_pos.
  - assert (H1 : 0 <= shr_m (shr_1 mrs))
      by (rewrite shr_1_m by assumption; apply Z.div_pos; lia).
    assert (H2 : 0 <= shr_m (iter_pos shr_1 n (shr_1 mrs)))
      by (rewrite IH by assumption; apply Z.div_pos; lia).
    rewrite IH, IH, shr_1_m by assumption.
    change 2 with (2 ^ 1) at 1. rewrite !Hdiv by lia. f_equal. f_equal. lia.
  - assert (H2 : 0 <= shr_m (iter_pos shr_1 n mrs))
      by (rewrite IH by assumption; apply Z.div_pos; lia).
    rewrite IH, IH by assumption.
    rewrite !Hdiv by lia. f_equal. f_equal. lia.
  - rewrite shr_1_m by assumption. reflexivity.
Qed.

(** shifting a positive mantissa to its format exponent leaves it positive,
    provided the exponent is not below [emin] *)
Lemma shr_fexp_positive (m e : Z) (l : location) :
  0 < m -> emin <= e ->
  0 < shr_m (fst (shr_fexp prec emax m e l))
  /\ emin <= snd (shr_fexp prec emax m e l).
Proof.
  intros Hm He. unfold shr_fexp, shr.
  destruct m as [|p|p]; try lia. simpl Zdigits2.
  assert (Hrec : shr_m (shr_record_of_loc (Zpos p) l) = Zpos p)
    by (destruct l as [|[| |]]; reflexivity).
  destruct (fexp prec emax (Zpos (digits2_pos p) + e) - e) as [|n|n] eqn:Hn;
    simpl; rewrite ?Hrec; try (split; [lia|assumption]).
  rewrite iter_shr_1_m by (rewrite Hrec; lia). rewrite Hrec.
  unfold fexp in Hn. fold emin in Hn.
  assert (Hn' : Zpos n = Zpos (digits2_pos p) - prec) by lia.
  pose proof (digits2_pos_bounds p) as [Hlo _].
  split; [|lia].
  apply Z.div_str_pos. split; [apply Z.pow_pos_nonneg; lia|].
  apply Z.le_trans with (2 ^ (Zpos (digits2_pos p) - 1)); [|assumption].
  apply Z.pow_le_mono_r; lia.
Qed.

Lemma round_nearest_even_positive (m : Z) (l : location) :
  0 < m -> 0 < round_nearest_even m l.
Proof.
  intro Hm; destruct l as [|[| |]]; simpl; try lia.
  destruct (Z.even m); lia.
Qed.

(** rounding a positive mantissa never gives zero or NaN *)
Lemma binary_round_aux_positive (sx : bool) (m e : Z) (l : location) :
  0 < m -> emin <= e ->
  (exists m' e', binary_round_aux prec emax sx m e l = S754_finite sx m' e')
  \/ binary_round_aux prec emax sx m e l = S754_infinity sx.
Proof.
  intros Hm He. unfold binary_round_aux.
  pose proof (shr_fexp_positive m e l Hm He) as [H1 H1e].
  destruct (shr_fexp prec emax m e l) as [mrs' e'].
  simpl in H1, H1e.
  pose proof (round_nearest_even_positive (shr_m mrs') (loc_of_shr_record mrs') H1) as H2.
  pose proof (shr_fexp_positive _ e' loc_Exact H2 H1e) as [H3 _].
  destruct (shr_fexp prec emax _ e' loc_Exact) as [mrs'' e''].
  simpl in H3.
  destruct (shr_m mrs'') as [|m'|m']; try lia.
  destruct (e'' <=? emax - prec); eauto.
Qed.

Hypothesis emin_neg : emin <= 0.

(** the conversion of a positive integer is a positive number or +infinity *)
Lemma of_Z_positive (z : Z) :
  0 < z ->
  (exists m e, IEEE.of_Z prec emax z = S754_finite false m e)
  \/ IEEE.of_Z prec emax z = S754_infinity false.
Proof.
  intro Hz. destruct z as [|p|p]; try lia.
  unfold IEEE.of_Z, binary_normalize, binary_round, shl_align.
  destruct (fexp prec emax (Zpos (digits2_pos p) + 0) - 0) as [|d|d] eqn:Hd;
    apply binary_round_aux_positive; try lia.
  unfold fexp; fold emin; lia.
Qed.
End Rounding.

Lemma F32_of_Z_positive (z : Z) :
  0 < z ->
  (exists m e, F32.of_Z z = S754_finite false m e) \/ F32.of_Z z = S754_infinity false.
Proof. apply of_Z_positive; vm_compute; [reflexivity|discriminate]. Qed.

Lemma F64_of_Z_positive (z : Z) :
  0 < z ->
  (exists m e, F64.of_Z z = S754_finite false m e) \/ F64.of_Z z = S754_infinity false.
Proof. apply of_Z_positive; vm_compute; [reflexivity|discriminate]. Qed.

(** [0 / n] is [+0] for a converted positive integer [n] *)
Lemma F32_zero_div_of_Z (z : Z) : 0 < z -> F32.div IEEE.zero (F32.of_Z z) = IEEE.zero.
Proof.
  intro Hz. destruct (F32_of_Z_positive z Hz) as [(m & e & ->)| ->]; reflexivity.
Qed.

Lemma F64_zero_div_of_Z (z : Z) : 0 < z -> F64.div IEEE.zero (F64.of_Z z) = IEEE.zero.
Proof.
  intro Hz. destruct (F64_of_Z_positive z Hz) as [(m & e & ->)| ->]; reflexivity.
Qed.

Lemma F32_add_zero (s : bool) : F32.add IEEE.zero (S754_zero s) = IEEE.zero.
Proof. destruct s; reflexivity. Qed.

Lemma F32_sq_zero (s : bool) : F32.sq (S754_zero s) = IEEE.zero.
Proof. destruct s; reflexivity. Qed.

Lemma F32_sub_zero (s : bool) : exists s', F32.sub (S754_zero s) IEEE.zero = S754_zero s'.
Proof. destruct s; eexists; reflexivity. Qed.

(** no sum is above [p * 0], whatever [p] is *)
Lemma not_above_mul_zero (p : F32.t) :
  IEEE.gtb IEEE.zero (F32.mul p IEEE.zero) = false.
Proof. destruct p as [[|]|[|]| |[|] m e]; reflexivity. Qed.


(** ** Spectral statistics *)

Lemma In_indices (lo hi i : Z) : In i (indices lo hi) <-> lo <= i < hi.
Proof.
  unfold indices. rewrite in_map_iff. split.
  - intros (k & <- & Hk). apply in_seq in Hk. lia.
  - intro H. exists (Z.to_nat (i - lo)). split; [lia|].
    apply in_seq. lia.
Qed.

Lemma indices_nil (lo hi : Z) : hi <= lo -> indices lo hi = [].
Proof.
  intro H. unfold indices. replace (Z.to_nat (hi - lo)) with O by lia. reflexivity.
Qed.

Lemma indices_cons (lo hi : Z) :
  lo < hi -> indices lo hi = lo :: indices (lo + 1) hi.
Proof.
  intro H. unfold indices.
  replace (Z.to_nat (hi - lo)) with (S (Z.to_nat (hi - (lo + 1)))) by lia.
  simpl. f_equal; [lia|].
  rewrite <- seq_shift, map_map. apply map_ext. intro k. lia.
Qed.

Section ZeroSpectrum.
Variables log exp : F64.t -> F64.t.
Variable pow : F64.t -> F64.t -> F64.t.
Variable a : Analyzer.
Variable bins : list F32.t.

Lemma sumsLoop_zero (idxs : list Z) (s : Sums) :
  zeroBins bins idxs ->
  sumAmplitudes s = IEEE.zero -> sumcVal s = IEEE.zero ->
  exists s', sumsLoop log a bins idxs s = Some s'
             /\ sumAmplitudes s' = IEEE.zero /\ sumcVal s' = IEEE.zero.
Proof.
  revert s; induction idxs as [|i idxs IH]; intros s Hz Ha Hc; simpl.
  - eauto.
  - destruct (Hz i (or_introl eq_refl)) as (sg & ->). simpl.
    apply IH.
    + intros j Hj; apply Hz; right; exact Hj.
    + unfold sumsStep; cbn [sumAmplitudes]. rewrite Ha. apply F32_add_zero.
    + unfold sumsStep; cbn [sumcVal]. rewrite Hc, F32_sq_zero. reflexivity.
Qed.

Lemma momentsLoop_zero (N : Z) (p : F32.t) (idxs : list Z) (m : Moments) :
  zeroBins bins idxs ->
  rolloff m = IEEE.zero -> roloff_sum m = IEEE.zero -> moment2 m = IEEE.zero ->
  exists m', momentsLoop pow N IEEE.zero IEEE.zero (F32.mul p IEEE.zero)
                         bins idxs m = Some m'
             /\ rolloff m' = IEEE.zero /\ roloff_sum m' = IEEE.zero
             /\ moment2 m' = IEEE.zero.
Proof.
  revert m; induction idxs as [|i idxs IH]; intros m Hz Hr Hs H2; simpl.
  - eauto.
  - destruct (Hz i (or_introl eq_refl)) as (sg & ->). simpl.
    apply IH.
    + intros j Hj; apply Hz; right; exact Hj.
    + unfold momentsStep; cbn [rolloff].
      rewrite Hr, Hs, not_above_mul_zero. reflexivity.
    + unfold momentsStep; cbn [roloff_sum].
      rewrite Hr, Hs, not_above_mul_zero.
      change (IEEE.eqb IEEE.zero IEEE.zero) with true. cbv iota.
      apply F32_add_zero.
    + unfold momentsStep; cbn [moment2]. rewrite H2.
      destruct (F32_sub_zero sg) as (s' & ->). rewrite F32_sq_zero. reflexivity.
Qed.
End ZeroSpectrum.

(** C5.  On a magnitude spectrum whose bins 1..N-1 are all zero (bin 0 is
    not looked at; N >= 1 bins), [getFeatures] completes and yields average
    magnitude 0, crest 1, kurtosis -3 and rolloff 0, whatever the C library's
    [log], [exp] and [pow] are. *)
Theorem getFeatures_zero_spectrum
  (log exp : F64.t -> F64.t) (pow : F64.t -> F64.t -> F64.t)
  (a : Analyzer) (Spectrum : option (list F32.t)) (len : Z) :
  let N := if len =? 0 then NumBins a else len in
  1 <= N ->
  (forall i, 1 <= i < N ->
             exists s, rd (binsOf a Spectrum) i = Some (S754_zero s)) ->
  exists F,
    getFeatures log exp pow a Spectrum len = Some F
    /\ F Favgmag = IEEE.zero
    /\ F Fcrest = F32.of_Z 1
    /\ F Fkurtosis = F32.of_Z (-3)
    /\ F Frolloff = IEEE.zero.
Proof.
  intros N HN Hzero.
  assert (Hz : zeroBins (binsOf a Spectrum) (indices 1 N))
    by (intros i Hi; apply Hzero, In_indices, Hi).
  unfold getFeatures. fold N.
  destruct (sumsLoop_zero log a (binsOf a Spectrum) (indices 1 N) Sums0 Hz
              eq_refl eq_refl) as (s & -> & Ha & Hc).
  simpl bind. rewrite Ha, Hc.
  rewrite F64_zero_div_of_Z by lia.
  change (IEEE.gtb IEEE.zero IEEE.zero) with false. cbv iota.
  change (F32.of_double (F64.of_float IEEE.zero)) with IEEE.zero.
  change (F32.of_double IEEE.zero) with IEEE.zero.
  destruct (momentsLoop_zero pow (binsOf a Spectrum) N
              (roloffpercentile (Config a)) (indices 1 N) Moments0 Hz
              eq_refl eq_refl eq_refl) as (m & -> & Hr & _ & H2).
  simpl bind. rewrite Hr, H2.
  rewrite F32_zero_div_of_Z by lia.
  change (IEEE.eqb IEEE.zero IEEE.zero) with true. cbv iota.
  eexists; split; [reflexivity|].
  repeat split.
Qed.

Lemma getFeatures_zero_spectrum_witness :
  let Spectrum := Some (repeat IEEE.zero 8) in
  let id := fun x : F64.t => x in
  let pw := fun x _ : F64.t => x in
  1 <= 8
  /\ (forall i, 1 <= i < 8 ->
                exists s, rd (binsOf Processor Spectrum) i = Some (S754_zero s))
  /\ exists F,
       getFeatures id id pw Processor Spectrum 8 = Some F
       /\ F Favgmag = IEEE.zero
       /\ F Fcrest = F32.of_Z 1
       /\ F Fkurtosis = F32.of_Z (-3)
       /\ F Frolloff = IEEE.zero.
Proof.
  intros Spectrum id pw.
  assert (H1 : 1 <= 8) by lia.
  assert (H2 : forall i, 1 <= i < 8 ->
                 exists s, rd (binsOf Processor Spectrum) i = Some (S754_zero s)).
  { intros i Hi.
    assert (Hc : i = 1 \/ i = 2 \/ i = 3 \/ i = 4 \/ i = 5 \/ i = 6 \/ i = 7) by lia.
    destruct Hc as [->|[->|[->|[->|[->|[->| ->]]]]]]; exists false; reflexivity. }
  refine (conj H1 (conj H2 _)).
  exact (getFeatures_zero_spectrum id id pw Processor Spectrum 8 H1 H2).
Defined.

(** ** The order on floating-point values *)

Lemma SFltb_irrefl (x : spec_float) : SFltb x x = false.
Proof.
  unfold SFltb. destruct x as [s|s| |s m e]; simpl; try reflexivity.
  - destruct s; reflexivity.
  - destruct s; rewrite Z.compare_refl, Pos.compare_cont_refl; reflexivity.
Qed.

Lemma SFltb_trans (x y z : spec_float) :
  SFltb x y = true -> SFltb y z = true -> SFltb x z = true.
Proof.
  unfold SFltb.
  destruct x as [sx|sx| |sx mx ex], y as [sy|sy| |sy my ey], z as [sz|sz| |sz mz ez];
    simpl; try discriminate; try reflexivity;
    try (destruct sx; discriminate); try (destruct sy; discriminate);
    try (destruct sz; discriminate);
    try (destruct sx, sy; discriminate); try (destruct sy, sz; discriminate);
    try (destruct sx, sy, sz; (discriminate || reflexivity)).
  destruct sx, sy, sz; try discriminate; try reflexivity;
    destruct (Z.compare_spec ex ey), (Z.compare_spec ey ez), (Z.compare_spec ex ez);
    try discriminate; try reflexivity; try lia; subst;
    rewrite ?Pos.compare_cont_spec; simpl;
    destruct (Pos.compare_spec mx my), (Pos.compare_spec my mz), (Pos.compare_spec mx mz);
    simpl; try discriminate; try reflexivity; lia.
Qed.

(** ** The fingerprint generator *)

Lemma rd_wr_same {A} (l l' : list A) (i : Z) (x : A) :
  wr l i x = Some l' -> rd l' i = Some x.
Proof.
  unfold wr, rd. destruct (i <? 0); [discriminate|]. apply upd_nth_same.
Qed.

Lemma rd_wr_other {A} (l l' : list A) (i j : Z) (x : A) :
  wr l i x = Some l' -> j <> i -> rd l' j = rd l j.
Proof.
  unfold wr, rd. destruct (Z.ltb_spec i 0); [discriminate|]. intros Hu Hij.
  destruct (Z.ltb_spec j 0); [reflexivity|].
  apply (upd_nth_other _ _ _ _ _ Hu). lia.
Qed.

Lemma wr_length {A} (l l' : list A) (i : Z) (x : A) :
  wr l i x = Some l' -> length l' = length l.
Proof.
  unfold wr. destruct (i <? 0); [discriminate|]. apply upd_nth_length.
Qed.

Lemma rangeIndexFrom_spec (ranges : list Z) (numranges idx : Z) (n : nat) :
  forall r0 r,
    0 <= r0 -> r0 + Z.of_nat n = numranges ->
    (forall r', 0 <= r' < r0 -> exists b', rd ranges r' = Some b' /\ b' <= idx) ->
    rangeIndexFrom ranges numranges idx n r0 = Some r ->
    firstAboveOrLast ranges numranges idx r.
Proof.
  induction n as [|n IH]; intros r0 r Hr0 Hn Hbelow H; simpl in H.
  - inversion H; subst. right. split; [reflexivity|].
    intros r' Hr'. apply Hbelow. lia.
  - apply bind_Some in H as (b & Hb & H).
    destruct (Z.ltb_spec idx b) as [Hlt|Hge].
    + inversion H; subst. left. split; [lia|]. split; [eauto|assumption].
    + apply (IH (r0 + 1) r); [lia|lia| |assumption].
      intros r' Hr'. destruct (Z.eq_dec r' r0) as [->|Hne]; [eauto|].
      apply Hbelow. lia.
Qed.

Lemma rangeIndexFrom_total (ranges : list Z) (numranges idx : Z) (n : nat) :
  forall r0, 0 <= r0 -> (Z.to_nat r0 + n <= length ranges)%nat ->
             rangeIndexFrom ranges numranges idx n r0 <> None.
Proof.
  induction n as [|n IH]; intros r0 Hr0 Hlen; simpl; [discriminate|].
  unfold rd. destruct (Z.ltb_spec r0 0); [lia|].
  destruct (nth_error ranges (Z.to_nat r0)) as [b|] eqn:Hb;
    [|apply nth_error_None in Hb; lia].
  simpl. destruct (idx <? b); [discriminate|].
  apply IH; lia.
Qed.

Section Fingerprint.
Variable logf : F32.t -> F32.t.

Lemma scanBin_spec (a : Analyzer) (ranges : list Z) (numranges : Z)
      (bins : list F32.t) (i : Z) (Sig Sig' : list Z) (mags mags' : list F32.t) :
  scanBin logf a ranges numranges bins i (Sig, mags) = Some (Sig', mags') ->
  exists r b m,
    rangeIndex ranges numranges i = Some r
    /\ rd bins i = Some b
    /\ rd mags r = Some m
    /\ rd mags' r = Some (if IEEE.gtb (logMagnitude logf b) m
                          then logMagnitude logf b else m)
    /\ (IEEE.gtb (logMagnitude logf b) m = true -> rd Sig' r = signatureOf a i)
    /\ (IEEE.gtb (logMagnitude logf b) m = false -> Sig' = Sig)
    /\ (forall j, j <> r -> rd mags' j = rd mags j /\ rd Sig' j = rd Sig j)
    /\ length Sig' = length Sig /\ length mags' = length mags.
Proof.
  unfold scanBin. intro H.
  apply bind_Some in H as (r & Hr & H).
  apply bind_Some in H as (b & Hb & H).
  apply bind_Some in H as (m & Hm & H).
  exists r, b, m. repeat (split; [assumption|]).
  destruct (IEEE.gtb (logMagnitude logf b) m) eqn:Hgt.
  - apply bind_Some in H as (s & Hs & H).
    apply bind_Some in H as (Sig1 & HS & H).
    apply bind_Some in H as (mags1 & HM & H).
    inversion H; subst.
    split; [eapply rd_wr_same; eassumption|].
    split; [intros _; rewrite Hs; eapply rd_wr_same; eassumption|].
    split; [discriminate|].
    split; [intros j Hj; split; eapply rd_wr_other; eassumption|].
    split; eapply wr_length; eassumption.
  - inversion H; subst.
    split; [assumption|]. split; [discriminate|]. split; [reflexivity|].
    split; [intros; split; reflexivity|]. split; reflexivity.
Qed.

Lemma scanLoop_length (a : Analyzer) (ranges : list Z) (numranges : Z)
      (bins : list F32.t) (idxs : list Z) :
  forall Sig mags Sig' mags',
    scanLoop logf a ranges numranges bins idxs (Sig, mags) = Some (Sig', mags') ->
    length Sig' = length Sig /\ length mags' = length mags.
Proof.
  induction idxs as [|i idxs IH]; intros Sig mags Sig' mags' H; simpl in H.
  - inversion H; auto.
  - apply bind_Some in H as ([Sig1 mags1] & H1 & H).
    apply scanBin_spec in H1 as (r & b & m & _ & _ & _ & _ & _ & _ & _ & HlS & HlM).
    destruct (IH _ _ _ _ H) as [H2 H3]. split; congruence.
Qed.
End Fingerprint.

Lemma suppress_nth (avg : F32.t) (Sig : list Z) (mags : list F32.t) (r : nat) :
  nth_error (suppress avg Sig mags) r
  = match nth_error Sig r, nth_error mags r with
    | Some s, Some m => Some (if IEEE.ltb m avg then 0 else s)
    | Some s, None => Some s
    | None, _ => None
    end.
Proof.
  revert mags r; induction Sig as [|s Sig IH]; intros [|m mags] [|r]; simpl;
    try reflexivity.
  - destruct (nth_error Sig r); reflexivity.
  - apply IH.
Qed.

Lemma rd_Some {A} (l : list A) (i : Z) :
  0 <= i < Z.of_nat (length l) -> exists x, rd l i = Some x.
Proof.
  intro Hi. unfold rd. destruct (Z.ltb_spec i 0); [lia|].
  destruct (nth_error l (Z.to_nat i)) as [x|] eqn:E; [eauto|].
  apply nth_error_None in E. lia.
Qed.

Lemma nth_error_Some_ex {A} (l : list A) (i : nat) :
  (i < length l)%nat -> exists x, nth_error l i = Some x.
Proof.
  intro Hi. destruct (nth_error l i) as [x|] eqn:E; [eauto|].
  apply nth_error_None in E. lia.
Qed.

Lemma wr_Some {A} (l : list A) (i : Z) (x : A) :
  0 <= i < Z.of_nat (length l) -> exists l', wr l i x = Some l'.
Proof.
  intro Hi. unfold wr. destruct (Z.ltb_spec i 0); [lia|].
  apply upd_nth_In_range. lia.
Qed.

Lemma rangeIndex_in_range (ranges : list Z) (numranges idx : Z) :
  0 < numranges ->
  (Z.to_nat numranges <= length ranges)%nat ->
  exists r, rangeIndex ranges numranges idx = Some r /\ 0 <= r < numranges.
Proof.
  intros Hn Hlen.
  destruct (rangeIndex ranges numranges idx) as [r|] eqn:Hr.
  - exists r. split; [reflexivity|].
    unfold rangeIndex in Hr.
    apply (rangeIndexFrom_spec ranges numranges idx (Z.to_nat numranges) 0 r)
      in Hr; [|lia|lia|intros r' Hr'; lia].
    destruct Hr as [(Hr & _)|(-> & _)]; lia.
  - exfalso. revert Hr. unfold rangeIndex.
    apply rangeIndexFrom_total; [lia|simpl; exact Hlen].
Qed.

Section FingerprintTotal.
Variable logf : F32.t -> F32.t.
Variable a : Analyzer.
Variable ranges : list Z.
Variable numranges : Z.
Variable bins : list F32.t.
Hypothesis numranges_pos : 0 < numranges.
Hypothesis ranges_length : (Z.to_nat numranges <= length ranges)%nat.

Lemma scanBin_total (i : Z) (Sig : list Z) (mags : list F32.t) :
  0 <= i < Z.of_nat (length bins) ->
  signatureOf a i <> None ->
  length mags = Z.to_nat numranges ->
  (Z.to_nat numranges <= length Sig)%nat ->
  exists st, scanBin logf a ranges numranges bins i (Sig, mags) = Some st.
Proof.
  intros Hi Hsig Hmags HSig. unfold scanBin.
  destruct (rangeIndex_in_range ranges numranges i numranges_pos ranges_length)
    as (r & -> & Hr). cbn [bind].
  destruct (rd_Some bins i Hi) as (b & ->). cbn [bind].
  destruct (rd_Some mags r) as (m & ->); [lia|]. cbn [bind].
  destruct (IEEE.gtb (logMagnitude logf b) m); [|eauto].
  destruct (signatureOf a i) as [s|]; [|congruence]. cbn [bind].
  destruct (wr_Some Sig r s) as (Sig' & ->); [lia|]. cbn [bind].
  destruct (wr_Some mags r (logMagnitude logf b)) as (mags' & ->); [lia|].
  cbn [bind]. eauto.
Qed.

Lemma scanLoop_total (idxs : list Z) :
  forall Sig mags,
    (forall i, In i idxs -> 0 <= i < Z.of_nat (length bins) /\ signatureOf a i <> None) ->
    length mags = Z.to_nat numranges ->
    (Z.to_nat numranges <= length Sig)%nat ->
    exists st, scanLoop logf a ranges numranges bins idxs (Sig, mags) = Some st.
Proof.
  induction idxs as [|i idxs IH]; intros Sig mags Hin Hmags HSig;
    cbn [scanLoop]; [eauto|].
  destruct (Hin i (or_introl eq_refl)) as [Hi Hs].
  destruct (scanBin_total i Sig mags Hi Hs Hmags HSig) as ([Sig1 mags1] & Hstep).
  rewrite Hstep. cbn [bind].
  apply scanBin_spec in Hstep as (r & b & m & _ & _ & _ & _ & _ & _ & _ & HlS & HlM).
  apply IH; [intros j Hj; apply Hin; right; exact Hj|congruence|congruence].
Qed.
End FingerprintTotal.

Section Peaks.
Variable logf : F32.t -> F32.t.
Variable a : Analyzer.
Variable ranges : list Z.
Variable n : Z.
Variable bins : list F32.t.
Variable I : Z -> Prop.

(** what the scan keeps for every range, once the bins [D] have been looked
    at: the peak [m] is not below the log-magnitude of any of these bins that
    belongs to the range, and either it is still the initial 0, with
    frequency 0, or it is the log-magnitude of one of the bins of the range,
    and the entry is that bin's frequency *)
Let kept (D : Z -> Prop) (Sig : list Z) (mags : list F32.t) : Prop :=
  forall r, 0 <= r < n ->
    exists m s,
      rd mags r = Some m
      /\ rd Sig r = Some s
      /\ (forall i b, D i -> rangeIndex ranges n i = Some r -> rd bins i = Some b ->
            IEEE.gtb (logf (F32.add (IEEE.fabs b) (F32.of_Z 1))) m = false)
      /\ ((m = IEEE.zero /\ s = 0)
          \/ exists i b, I i /\ rangeIndex ranges n i = Some r
                         /\ rd bins i = Some b
                         /\ m = logf (F32.add (IEEE.fabs b) (F32.of_Z 1))
                         /\ signatureOf a i = Some s).

Lemma scanBin_peaks (D : Z -> Prop) (i : Z) (Sig Sig' : list Z)
      (mags mags' : list F32.t) :
  I i ->
  kept D Sig mags ->
  scanBin logf a ranges n bins i (Sig, mags) = Some (Sig', mags') ->
  kept (fun j => D j \/ j = i) Sig' mags'.
Proof.
  intros Hi Hk H. unfold scanBin in H.
  apply bind_Some in H as (r0 & Hr0 & H).
  apply bind_Some in H as (b0 & Hb0 & H).
  apply bind_Some in H as (m0 & Hm0 & H).
  unfold logMagnitude in H.
  set (lm := logf (F32.add (IEEE.fabs b0) (F32.of_Z 1))) in *.
  destruct (IEEE.gtb lm m0) eqn:Hgt.
  - apply bind_Some in H as (s0 & Hs0 & H).
    apply bind_Some in H as (Sig1 & HS & H).
    apply bind_Some in H as (mags1 & HM & H).
    injection H as <- <-.
    intros r Hr. destruct (Z.eq_dec r r0) as [->|Hne].
    + exists lm, s0.
      split; [eapply rd_wr_same; exact HM|].
      split; [eapply rd_wr_same; exact HS|].
      split.
      * intros j b [Hj| ->] Hrj Hbj.
        -- destruct (Hk r0 Hr) as (m & s & Hm & _ & Hmax & _).
           assert (m = m0) by congruence. subst m.
           specialize (Hmax j b Hj Hrj Hbj).
           destruct (IEEE.gtb (logf (F32.add (IEEE.fabs b) (F32.of_Z 1))) lm) eqn:E;
             [|reflexivity].
           unfold IEEE.gtb in *. rewrite <- Hmax. symmetry.
           eapply SFltb_trans; eassumption.
        -- assert (b = b0) by congruence. subst b. apply SFltb_irrefl.
      * right. exists i, b0. auto.
    + destruct (Hk r Hr) as (m & s & Hm & Hs & Hmax & Hatt).
      exists m, s.
      split; [rewrite (rd_wr_other _ _ _ _ _ HM Hne); exact Hm|].
      split; [rewrite (rd_wr_other _ _ _ _ _ HS Hne); exact Hs|].
      split; [|exact Hatt].
      intros j b [Hj| ->] Hrj Hbj; [exact (Hmax j b Hj Hrj Hbj)|congruence].
  - injection H as <- <-.
    intros r Hr. destruct (Hk r Hr) as (m & s & Hm & Hs & Hmax & Hatt).
    exists m, s. split; [exact Hm|]. split; [exact Hs|]. split; [|exact Hatt].
    intros j b [Hj| ->] Hrj Hbj; [exact (Hmax j b Hj Hrj Hbj)|].
    assert (r = r0) by congruence. subst r.
    assert (b = b0) by congruence. subst b.
    assert (m = m0) by congruence. subst m. exact Hgt.
Qed.

Lemma kept_ext (D D' : Z -> Prop) (Sig : list Z) (mags : list F32.t) :
  (forall i, D' i -> D i) -> kept D Sig mags -> kept D' Sig mags.
Proof.
  intros HD Hk r Hr. destruct (Hk r Hr) as (m & s & Hm & Hs & Hmax & Hatt).
  exists m, s. repeat (split; [assumption|]). split; [|exact Hatt].
  intros i b Hi. apply Hmax, HD, Hi.
Qed.

Lemma scanLoop_peaks (idxs : list Z) :
  forall (D : Z -> Prop) Sig mags Sig' mags',
    (forall i, In i idxs -> I i) ->
    kept D Sig mags ->
    scanLoop logf a ranges n bins idxs (Sig, mags) = Some (Sig', mags') ->
    kept (fun j => D j \/ In j idxs) Sig' mags'.
Proof.
  induction idxs as [|i idxs IH]; intros D Sig mags Sig' mags' HI Hk H;
    cbn [scanLoop] in H.
  - injection H as <- <-. apply (kept_ext D); [|exact Hk].
    intros j [Hj|[]]; exact Hj.
  - apply bind_Some in H as ([Sig1 mags1] & H1 & H).
    apply (scanBin_peaks D i _ _ _ _ (HI i (or_introl eq_refl)) Hk) in H1.
    apply (IH _ _ _ _ _ (fun j Hj => HI j (or_intror Hj)) H1) in H.
    revert H. apply kept_ext.
    intros j [Hj|[Hj|Hj]];
      [left; left; exact Hj|left; right; symmetry; exact Hj|right; exact Hj].
Qed.
End Peaks.

(** C7.  With a signature array, a range array and bins of the configured
    sizes, [getSignature] completes.  [rangeIndex] gives for every bin the
    first range whose boundary is above it, or the last range when no
    boundary is.  For every range r the scan of the bins 1..NumBins-1 ends
    with the peak of the range: a value m that no log-magnitude
    logf(|bin| + 1) of a bin assigned to r is above, and that is the
    log-magnitude of one of these bins, whose frequency s the scan has
    stored, unless m is still the initial 0 (and s is 0).  The threshold is
    the mean of the peaks: their sum, added up from range 0 on, times 1.0,
    divided by the number of ranges.  The signature entry of r is 0 when the
    peak is below the threshold, and s otherwise. *)
Theorem getSignature_ranges_and_suppression
  (logf : F32.t -> F32.t) (g : Statics) (a : Analyzer)
  (Spectrum : option (list F32.t)) (len : Z) (ad : nat) (Sig0 : list Z) :
  let n := numranges (Config a) in
  let ranges := match deref g (ranges (Config a)) with Some r => r | None => [] end in
  let N := if len =? 0 then NumBins a else len in
  let bins := binsOf a Spectrum in
  let peakOf b := logf (F32.add (IEEE.fabs b) (F32.of_Z 1)) in
  0 < n ->
  Signature a = Some (ad, Sig0) ->
  (Z.to_nat n <= length Sig0)%nat ->
  (Z.to_nat n <= length ranges)%nat ->
  (forall i, 1 <= i < N ->
             i < Z.of_nat (length bins) /\ signatureOf a i <> None) ->
  (forall i, exists r, rangeIndex ranges n i = Some r
                       /\ firstAboveOrLast ranges n i r)
  /\ exists a' Sig' mags,
       getSignature logf g a Spectrum len = Some (a', Some ad)
       /\ Signature a' = Some (ad, Sig')
       /\ length mags = Z.to_nat n
       /\ let mean :=
            F32.of_double
              (F64.div (F64.mul (F64.of_float (fold_left F32.add mags IEEE.zero))
                                (F64.of_Z 1))
                       (F64.of_Z n)) in
          forall r, 0 <= r < n ->
            exists m s,
              rd mags r = Some m
              /\ (forall i b, 1 <= i < N -> rangeIndex ranges n i = Some r ->
                              rd bins i = Some b ->
                              IEEE.gtb (peakOf b) m = false)
              /\ ((m = IEEE.zero /\ s = 0)
                  \/ exists i b, 1 <= i < N /\ rangeIndex ranges n i = Some r
                                 /\ rd bins i = Some b
                                 /\ m = peakOf b
                                 /\ signatureOf a i = Some s)
              /\ rd Sig' r = Some (if IEEE.ltb m mean then 0 else s).
Proof.
  intros n ranges N bins peakOf Hn HSig HlSig Hlr Hbins.
  split.
  { intro i.
    destruct (rangeIndex_in_range ranges n i Hn Hlr) as (r & Hr & _).
    exists r. split; [exact Hr|]. unfold rangeIndex in Hr.
    apply (rangeIndexFrom_spec ranges n i (Z.to_nat n) 0 r);
      [lia|lia|intros r' Hr'; lia|exact Hr]. }
  set (SigA := repeat 0 (Z.to_nat n) ++ skipn (Z.to_nat n) Sig0).
  set (magsA := repeat IEEE.zero (Z.to_nat n)).
  destruct (scanLoop_total logf a ranges n bins Hn Hlr (indices 1 N) SigA magsA)
    as ([Sig mags] & Hloop).
  { intros i Hi. apply In_indices in Hi. destruct (Hbins i Hi) as [Hb Hs].
    split; [lia|exact Hs]. }
  { apply repeat_length. }
  { subst SigA. rewrite length_app, repeat_length. lia. }
  assert (Hscan : scan logf g a Spectrum len = Some (Sig, mags)).
  { unfold scan. fold n ranges N bins. rewrite HSig. cbn [bind].
    replace (Z.to_nat n <=? length Sig0)%nat with true
      by (symmetry; apply Nat.leb_le; exact HlSig).
    cbn [guard bind]. exact Hloop. }
  pose proof (scanLoop_length logf _ _ _ _ _ _ _ _ _ Hloop) as (HlS & HlM).
  assert (Hkept0 : forall r, 0 <= r < n ->
            exists m s, rd magsA r = Some m /\ rd SigA r = Some s
              /\ (forall i b, False -> rangeIndex ranges n i = Some r ->
                              rd bins i = Some b -> IEEE.gtb (peakOf b) m = false)
              /\ ((m = IEEE.zero /\ s = 0)
                  \/ exists i b, 1 <= i < N /\ rangeIndex ranges n i = Some r
                                 /\ rd bins i = Some b /\ m = peakOf b
                                 /\ signatureOf a i = Some s)).
  { intros r Hr. exists IEEE.zero, 0.
    split.
    { unfold rd. destruct (Z.ltb_spec r 0); [lia|]. subst magsA.
      destruct (nth_error_Some_ex (repeat IEEE.zero (Z.to_nat n)) (Z.to_nat r))
        as (x & Hx); [rewrite repeat_length; lia|].
      unfold F32.t in *. rewrite Hx. apply nth_error_In, repeat_spec in Hx.
      rewrite Hx. reflexivity. }
    split.
    { unfold rd. destruct (Z.ltb_spec r 0); [lia|]. subst SigA.
      rewrite nth_error_app1 by (rewrite repeat_length; lia).
      destruct (nth_error_Some_ex (repeat 0 (Z.to_nat n)) (Z.to_nat r))
        as (x & Hx); [rewrite repeat_length; lia|].
      rewrite Hx. apply nth_error_In, repeat_spec in Hx. rewrite Hx. reflexivity. }
    split; [intros i b []|left; split; reflexivity]. }
  pose proof (scanLoop_peaks logf a ranges n bins (fun i => 1 <= i < N)
                (indices 1 N) (fun _ => False) SigA magsA Sig mags
                (fun i Hi => proj1 (In_indices 1 N i) Hi) Hkept0 Hloop) as Hkept.
  eexists _, (suppress (average mags n) Sig mags), mags.
  split.
  { unfold getSignature. fold n.
    destruct (Z.eqb_spec n 0) as [E|_]; [lia|].
    rewrite Hscan, HSig. reflexivity. }
  split; [reflexivity|].
  split; [rewrite HlM; apply repeat_length|].
  intros mean r Hr.
  destruct (Hkept r Hr) as (m & s & Hm & Hs & Hmax & Hatt).
  exists m, s. split; [exact Hm|].
  split.
  { intros i b Hi. apply Hmax. right. apply In_indices. exact Hi. }
  split; [exact Hatt|].
  unfold rd in *. destruct (Z.ltb_spec r 0); [lia|].
  rewrite suppress_nth, Hs, Hm. reflexivity.
Qed.

Lemma getSignature_ranges_and_suppression_witness :
  0 < numranges (Config Processor)
  /\ Signature Processor = Some (5%nat, [0; 0; 0; 0; 0; 0])
  /\ (forall i, 1 <= i < 8 ->
                i < Z.of_nat (length (binsOf Processor ExampleSpectrum))
                /\ signatureOf Processor i <> None)
  /\ Signature (fst ExampleFingerprint) = Some (5%nat, [0; 430; 0; 0; 0; 0])
  /\ exists a' Sig' mags,
       getSignature (fun x => x) (fst Example1) Processor ExampleSpectrum 8
       = Some (a', Some 5%nat)
       /\ Signature a' = Some (5%nat, Sig')
       /\ length mags = Z.to_nat (numranges (Config Processor))
       /\ forall r, 0 <= r < numranges (Config Processor) ->
            exists m s,
              rd mags r = Some m
              /\ rd Sig' r
                 = Some (if IEEE.ltb m
                              (F32.of_double
                                 (F64.div
                                    (F64.mul
                                       (F64.of_float
                                          (fold_left F32.add mags IEEE.zero))
                                       (F64.of_Z 1))
                                    (F64.of_Z (numranges (Config Processor)))))
                         then 0 else s).
Proof.
  assert (H1 : 0 < numranges (Config Processor)) by (vm_compute; reflexivity).
  assert (H2 : Signature Processor = Some (5%nat, [0; 0; 0; 0; 0; 0]))
    by (vm_compute; reflexivity).
  assert (H3 : (Z.to_nat (numranges (Config Processor)) <= length [0; 0; 0; 0; 0; 0])%nat)
    by (vm_compute; apply le_n).
  assert (H4 : (Z.to_nat (numranges (Config Processor))
                <= length (match deref (fst Example1) (ranges (Config Processor)) with
                           | Some r => r
                           | None => []
                           end))%nat)
    by (vm_compute; apply le_n).
  assert (H5 : forall i, 1 <= i < 8 ->
                 i < Z.of_nat (length (binsOf Processor ExampleSpectrum))
                 /\ signatureOf Processor i <> None).
  { intros i Hi.
    assert (Hc : i = 1 \/ i = 2 \/ i = 3 \/ i = 4 \/ i = 5 \/ i = 6 \/ i = 7) by lia.
    destruct Hc as [->|[->|[->|[->|[->|[->| ->]]]]]];
      (split; [vm_compute; reflexivity|vm_compute; discriminate]). }
  refine (conj H1 (conj H2 (conj H5 (conj _ _)))).
  - vm_compute; reflexivity.
  - destruct (proj2 (getSignature_ranges_and_suppression (fun x => x)
                       (fst Example1) Processor ExampleSpectrum 8 5%nat
                       [0; 0; 0; 0; 0; 0] H1 H2 H3 H4 H5))
      as (a' & Sig' & mags & Hget & Hsig & Hlen & Hall).
    exists a', Sig', mags.
    refine (conj Hget (conj Hsig (conj Hlen _))).
    intros r Hr. destruct (Hall r Hr) as (m & s & Hm & _ & _ & Hfin).
    exists m, s. exact (conj Hm Hfin).
Defined.

(** ** Disabled features *)

(** C4.  With a coefficient count of 0 [getMfcc] returns null and with a
    range count of 0 [getSignature] returns null, without touching the engine
    and whatever the spectrum is.  [decibelSPL] has no such guard: with
    sensitivity 0 it divides the RMS by zero, so that for every signal with a
    positive RMS the level is +infinity (given that the C library's [log10]
    maps +infinity to itself) and its conversion to [decibel_t] is
    undefined. *)
Theorem disabled_features_and_zero_sensitivity
  (logf : F32.t -> F32.t) (log10 : F64.t -> F64.t)
  (calculate : MFCC_h.t -> list F32.t -> option MFCC_h.t)
  (T : Type) (toFloat : T -> F32.t)
  (g : Statics) (a : Analyzer) (Spectrum : option (list F32.t)) (len : Z)
  (Signal : list T) (siglen : Z) (m : positive) (e : Z) :
  log10 (S754_infinity false) = S754_infinity false ->
  rms T toFloat ProcessorInsensitive Signal siglen = Some (S754_finite false m e) ->
  (mfcccoeff (Config a) = 0 -> getMfcc calculate a Spectrum len = Some (a, None))
  /\ (numranges (Config a) = 0 -> getSignature logf g a Spectrum len = Some (a, None))
  /\ sensitivity (Config ProcessorInsensitive) = IEEE.zero
  /\ decibels log10 T toFloat ProcessorInsensitive Signal siglen
     = Some (S754_infinity false)
  /\ decibelSPL log10 T toFloat ProcessorInsensitive Signal siglen = None.
Proof.
  intros Hlog Hrms.
  assert (Hd : decibels log10 T toFloat ProcessorInsensitive Signal siglen
               = Some (S754_infinity false)).
  { unfold decibels. rewrite Hrms. simpl bind.
    change (sensitivity (Config ProcessorInsensitive)) with IEEE.zero.
    change (F64.div (F64.of_float (S754_finite false m e)) (F64.of_float IEEE.zero))
      with (S754_infinity false).
    rewrite Hlog. vm_compute. reflexivity. }
  split; [|split; [|split; [|split]]].
  - intro H0. unfold getMfcc. rewrite H0. reflexivity.
  - intro H0. unfold getSignature. rewrite H0. reflexivity.
  - vm_compute; reflexivity.
  - exact Hd.
  - unfold decibelSPL. rewrite Hd. reflexivity.
Qed.

Lemma disabled_features_and_zero_sensitivity_witness :
  let id := fun x : F64.t => x in
  id (S754_infinity false) = S754_infinity false
  /\ rms Z F32.of_Z ProcessorInsensitive [1; 1] 2 = Some (F32.of_Z 1)
  /\ decibels id Z F32.of_Z ProcessorInsensitive [1; 1] 2 = Some (S754_infinity false)
  /\ decibelSPL id Z F32.of_Z ProcessorInsensitive [1; 1] 2 = None.
Proof.
  intro id.
  assert (H1 : id (S754_infinity false) = S754_infinity false) by reflexivity.
  assert (H2 : rms Z F32.of_Z ProcessorInsensitive [1; 1] 2
               = Some (S754_finite false 8388608 (-23)))
    by (vm_compute; reflexivity).
  refine (conj H1 (conj H2 _)).
  exact (proj2 (proj2 (proj2
           (disabled_features_and_zero_sensitivity id id (fun m _ => Some m)
              Z F32.of_Z (fst Example1) Processor None 0 [1; 1] 2 _ _ H1 H2)))).
Defined.


(** ** The pitch estimator *)



(** *** The estimator does not fault on a full frame *)

Lemma sumSquaredDifferences_total (frame : list F32.t) (tau : nat) (js : list nat) :
  forall acc,
    (forall j, In j js -> (j + tau < length frame)%nat) ->
    exists d, YIN.sumSquaredDifferences frame tau js acc = Some d.
Proof.
  induction js as [|j js IH]; intros acc Hin; simpl; [eauto|].
  destruct (nth_error_Some_ex frame j) as (x & ->);
    [specialize (Hin j (or_introl eq_refl)); lia|].
  destruct (nth_error_Some_ex frame (j + tau)) as (x' & ->);
    [exact (Hin j (or_introl eq_refl))|].
  simpl. apply IH. intros j' Hj'. apply Hin. right; exact Hj'.
Qed.

Lemma differenceLoop_total (frame : list F32.t) (L : nat) (taus : list nat) :
  forall cum,
    (forall tau, In tau taus -> (L + tau <= length frame)%nat) ->
    exists d, YIN.differenceLoop frame L taus cum = Some d
              /\ length d = length taus.
Proof.
  induction taus as [|tau taus IH]; intros cum Hin; simpl; [eauto|].
  destruct (sumSquaredDifferences_total frame tau (seq 0 L) IEEE.zero) as (d & ->).
  { intros j Hj. apply in_seq in Hj.
    specialize (Hin tau (or_introl eq_refl)). lia. }
  simpl.
  destruct (IH (F32.add cum d)) as (rest & -> & Hlen);
    [intros t Ht; apply Hin; right; exact Ht|].
  simpl. eexists; split; [reflexivity|]. simpl. congruence.
Qed.




(** the bound of the candidate loop: without wrap-around for a frame size
    from 2 on that fits [size_t], and never above [framesz/2 - 1] then *)
Lemma lastLag_small (y : YIN.t) :
  2 <= YIN.framesz y < 2 ^ 32 -> YIN.lastLag y = YIN.framesz y / 2 - 1.
Proof.
  intro H. unfold YIN.lastLag, u32, wrap, UINT_BITS.
  apply Z.mod_small.
  pose proof (Z.div_le_lower_bound (YIN.framesz y) 2 1 ltac:(lia) ltac:(lia)).
  pose proof (Z.div_lt_upper_bound (YIN.framesz y) 2 (2 ^ 32) ltac:(lia) ltac:(lia)).
  lia.
Qed.

Lemma lastLag_wraps (y : YIN.t) :
  0 <= YIN.framesz y < 2 -> YIN.lastLag y = 2 ^ 32 - 1.
Proof.
  intro H. unfold YIN.lastLag.
  assert (E : YIN.framesz y / 2 = 0) by (apply Z.div_small; lia).
  rewrite E. reflexivity.
Qed.


(** the candidate loop never runs out of fuel: with more fuel than entries
    of [delta] from lag [i] on, it is the scan of the lags i, ..., hi-1,
    which reads past the array before the fuel is used up *)
Lemma candidateLoop_scan (delta : list F32.t) (hi : Z) (fuel : nat) :
  forall i minVal minInd,
    0 <= i ->
    Z.of_nat (length delta) < i + Z.of_nat fuel ->
    YIN.candidateLoop fuel delta i hi minVal minInd
    = YIN.candidateScan delta (indices i hi) minVal minInd.
Proof.
  induction fuel as [|fuel IH]; intros i minVal minInd Hi Hfuel;
    cbn [YIN.candidateLoop]; destruct (Z.ltb_spec i hi) as [Hlt|Hge];
    try (rewrite indices_nil by lia; reflexivity);
    rewrite indices_cons by lia; cbn [YIN.candidateScan].
  - assert (E : rd delta i = None).
    { unfold rd. destruct (Z.ltb_spec i 0); [reflexivity|].
      apply nth_error_None. lia. }
    rewrite E. reflexivity.
  - destruct (rd delta i) as [di|]; [cbn [bind]|reflexivity].
    destruct (IEEE.ltb di YIN.thresh).
    + destruct (YIN.isLocalMinimum delta i) as [[|]|]; cbn [bind];
        try reflexivity.
      apply IH; lia.
    + apply IH; lia.
Qed.

Lemma getPeriodCandidate_scan (y : YIN.t) (delta : list F32.t) :
  YIN.getPeriodCandidate y delta
  = YIN.candidateScan delta (indices 30 (YIN.lastLag y)) YIN.minVal0 0.
Proof.
  unfold YIN.getPeriodCandidate. apply candidateLoop_scan; lia.
Qed.


Lemma in_range_Some (lo hi z : Z) :
  lo <= z <= hi -> IEEE.in_range lo hi z = Some z.
Proof.
  intro H. unfold IEEE.in_range.
  destruct (Z.leb_spec lo z); [|lia]. destruct (Z.leb_spec z hi); [|lia].
  reflexivity.
Qed.



(** from the estimate LONG_MAX - 1 the last [i++] of the loop overflows *)
Lemma searchForOtherRecentMinima_last_long (y : YIN.t) (d : list F32.t) :
  IEEE.round_half_away (YIN.prevPeriodEstimate y) = Some (2 ^ 31 - 2) ->
  YIN.searchForOtherRecentMinima y d = None.
Proof.
  intro Hround. unfold YIN.searchForOtherRecentMinima, YIN.roundToLong.
  rewrite Hround. reflexivity.
Qed.

Lemma searchForOtherRecentMinima_anchor (y : YIN.t) (d : list F32.t) (anchor : Z) :
  IEEE.round_half_away (YIN.prevPeriodEstimate y) = Some anchor ->
  - 2 ^ 31 < anchor < 2 ^ 31 - 2 ->
  YIN.searchForOtherRecentMinima y d
  = YIN.searchLoop d (YIN.framesz y / 2) [anchor - 1; anchor; anchor + 1] (-1).
Proof.
  intros Hround Hrange.
  unfold YIN.searchForOtherRecentMinima, YIN.roundToLong.
  rewrite Hround. cbn [bind].
  rewrite in_range_Some by lia. cbn [bind].
  rewrite in_range_Some by lia. cbn [bind].
  rewrite in_range_Some by lia. cbn [bind].
  rewrite in_range_Some by lia. cbn [bind].
  reflexivity.
Qed.




(** * Part III: further properties of the engine *)

(** ** Releasing and acquiring the buffers *)

Lemma live_delete {A} (h : Heap) (p : ptr A) (ad : nat) :
  In ad (live (delete h p)) <-> In ad (live h) /\ ~ In ad (addrs p).
Proof.
  destruct p as [[x v]|]; simpl.
  - rewrite filter_In. split.
    + intros [Hin Hne]. split; [assumption|]. intros [->|[]].
      rewrite Nat.eqb_refl in Hne. discriminate.
    + intros [Hin Hne]. split; [assumption|].
      destruct (Nat.eqb_spec x ad) as [->|]; [exfalso; apply Hne; left; reflexivity|reflexivity].
  - tauto.
Qed.

Lemma next_addr_delete {A} (h : Heap) (p : ptr A) :
  next_addr (delete h p) = next_addr h.
Proof. destruct p as [[x v]|]; reflexivity. Qed.

Lemma End_live (g : Statics) (a : Analyzer) (ad : nat) :
  In ad (live (heap (fst (End g a)))) <-> In ad (live (heap g)) /\ ~ In ad (owned a).
Proof.
  unfold End, owned; cbn [fst heap].
  rewrite !live_delete, !in_app_iff. tauto.
Qed.

(** X1.  [End] releases every object the engine holds and nothing else: all
    six owning pointers become null, the engine is not initialised, an
    address stays allocated exactly when it was allocated and did not belong
    to the engine, and a second [End] changes nothing.  The public aliases
    [Bins] and [Mfccs] are not reset: they keep the addresses of the released
    buffers. *)
Theorem End_releases_everything (g : Statics) (a : Analyzer) :
  let g' := fst (End g a) in
  let a' := snd (End g a) in
  tornDown a' = true
  /\ owned a' = []
  /\ (forall ad, In ad (live (heap g')) <-> In ad (live (heap g)) /\ ~ In ad (owned a))
  /\ End g' a' = (g', a')
  /\ Bins a' = Bins a /\ Mfccs a' = Mfccs a
  /\ Config a' = Config a
  /\ DefaultRanges g' = DefaultRanges g.
Proof.
  intros g' a'. split; [reflexivity|]. split; [reflexivity|].
  split; [intro ad; apply End_live|].
  split; [|repeat split].
  reflexivity.
Qed.

Lemma owned_nil (a : Analyzer) :
  owned a = [] ->
  signal a = None /\ spectrum a = None /\ Signature a = None
  /\ FFT a = None /\ mfcc a = None /\ yin a = None.
Proof.
  unfold owned.
  destruct (signal a) as [[? ?]|], (spectrum a) as [[? ?]|],
    (Signature a) as [[? ?]|], (FFT a) as [[? ?]|], (mfcc a) as [[? ?]|],
    (yin a) as [[? ?]|]; simpl; intro H; try discriminate; repeat split.
Qed.

(** the constructor has completed when [Begin] has, on an engine that is
    not initialised and with memory available *)
Lemma created {libm : Libm} (cfg : AnalyzerConfig) :
  constructs cfg ->
  0 < mfcccoeff cfg ->
  exists o, MFCC_h.create libm_log libm_exp (to_int32 (fftlength cfg))
                          (samplefreq cfg) (mfcccoeff cfg) = Some o.
Proof.
  intros Hc Hpos.
  destruct (MFCC_h.create _ _ _ _ _) as [o|] eqn:Ho; [eauto|].
  exfalso. exact (Hc Hpos Ho).
Qed.

Lemma Begin_constructs {libm : Libm} (h h' : Heap) (a a' : Analyzer) (b : bool) :
  alloc_plan h = [] ->
  initialized a = false ->
  Begin h a = Some (h', a', b) ->
  constructs (Config a).
Proof.
  intros Hplan Hinit. unfold Begin. rewrite Hinit. unfold new at 1. rewrite Hplan.
  unfold new at 1. cbn [alloc_plan]. unfold new at 1. cbn [alloc_plan].
  cbn [is_null negb orb]. unfold Begin_mfcc.
  intros H Hpos Hnone.
  apply Z.ltb_lt in Hpos. rewrite Hpos in H.
  cbn [andb new alloc_plan] in H. rewrite Hnone in H. discriminate.
Qed.

Lemma Begin_from_null {libm : Libm} (h : Heap) (a : Analyzer) :
  alloc_plan h = [] ->
  constructs (Config a) ->
  initialized a = false ->
  owned a = [] ->
  (forall ad, In ad (live h) -> (ad < next_addr h)%nat) ->
  exists h' a',
    Begin h a = Some (h', a', true)
    /\ initialized a' = true
    /\ alloc_plan h' = []
    /\ Config a' = Config a
    /\ NumMfccCoeff a' = NumMfccCoeff a
    /\ SignatureLen a' = SignatureLen a
    /\ NoDup (owned a')
    /\ (forall ad, In ad (live h') <-> In ad (owned a') \/ In ad (live h))
    /\ (forall ad, In ad (live h') -> (ad < next_addr h')%nat)
    /\ (forall ad, In ad (owned a') -> ~ In ad (live h))
    /\ is_null (signal a') = false
    /\ is_null (spectrum a') = false
    /\ is_null (FFT a') = false
    /\ is_null (yin a') = false
    /\ (0 < mfcccoeff (Config a) -> is_null (mfcc a') = false)
    /\ (0 < numranges (Config a) -> is_null (Signature a') = false).
Proof.
  intros Hplan Hcons Hinit Hnull Hwf.
  apply owned_nil in Hnull as (_ & _ & Hs & _ & Hm & _).
  unfold Begin. rewrite Hinit. unfold new at 1. rewrite Hplan.
  unfold new at 1. cbn [alloc_plan]. unfold new at 1. cbn [alloc_plan].
  cbn [is_null negb orb addr_of next_addr live].
  unfold Begin_mfcc, Begin_Signature, Begin_yin. rewrite Hs, Hm.
  destruct (Z.ltb_spec 0 (mfcccoeff (Config a))) as [Hpos|Hpos];
    [destruct (created _ Hcons Hpos) as (o & Ho)|];
    destruct (Z.ltb_spec 0 (numranges (Config a)));
    cbn [andb new alloc_plan bind is_null negb next_addr live];
    rewrite ?Ho;
    cbn [andb new alloc_plan bind is_null negb next_addr live];
    (eexists; eexists; split; [reflexivity|]);
    unfold owned;
    cbn [initialized alloc_plan Config signal spectrum FFT mfcc Signature yin
         NumMfccCoeff SignatureLen addr_of is_null next_addr live addrs app];
    repeat (split; [reflexivity|]);
    (split; [repeat constructor; simpl; lia|]);
    (split; [intro ad; simpl; split; intro H1;
             repeat (destruct H1 as [H1|H1]); auto 10; lia|]);
    (split; [intros ad H1; simpl in H1;
             repeat (destruct H1 as [H1|H1]); try lia;
             specialize (Hwf ad H1); lia|]);
    (split; [intros ad H1 H2; specialize (Hwf ad H2); simpl in H1;
             repeat (destruct H1 as [H1|H1]); lia|]);
    repeat split; intros; try reflexivity; lia.
Qed.

Lemma Begin_fresh {libm : Libm} (h : Heap) (a : Analyzer) :
  alloc_plan h = [] ->
  constructs (Config a) ->
  initialized a = false ->
  exists h' a',
    Begin h a = Some (h', a', true)
    /\ initialized a' = true
    /\ alloc_plan h' = []
    /\ Config a' = Config a
    /\ addr_of (signal a') = Some (next_addr h)
    /\ addr_of (spectrum a') = Some (S (next_addr h))
    /\ addr_of (FFT a') = Some (S (S (next_addr h)))
    /\ (if 0 <? mfcccoeff (Config a) then is_null (mfcc a') = false
        else mfcc a' = mfcc a)
    /\ (if 0 <? numranges (Config a) then is_null (Signature a') = false
        else Signature a' = Signature a)
    /\ is_null (yin a') = false
    /\ (next_addr h <= next_addr h')%nat
    /\ (forall ad, In ad (addrs (signal a') ++ addrs (spectrum a') ++ addrs (FFT a')
                          ++ (if 0 <? mfcccoeff (Config a) then addrs (mfcc a') else [])
                          ++ (if 0 <? numranges (Config a) then addrs (Signature a') else [])
                          ++ addrs (yin a')) ->
                   (next_addr h <= ad < next_addr h')%nat)
    /\ NoDup (addrs (signal a') ++ addrs (spectrum a') ++ addrs (FFT a')
              ++ (if 0 <? mfcccoeff (Config a) then addrs (mfcc a') else [])
              ++ (if 0 <? numranges (Config a) then addrs (Signature a') else [])
              ++ addrs (yin a'))
    /\ (forall ad, In ad (live h') <->
                   In ad (live h)
                   \/ In ad (addrs (signal a') ++ addrs (spectrum a') ++ addrs (FFT a')
                          ++ (if 0 <? mfcccoeff (Config a) then addrs (mfcc a') else [])
                          ++ (if 0 <? numranges (Config a) then addrs (Signature a') else [])
                          ++ addrs (yin a'))).
Proof.
  intros Hplan Hcons Hinit.
  unfold Begin. rewrite Hinit. unfold new at 1. rewrite Hplan.
  unfold new at 1. cbn [alloc_plan]. unfold new at 1. cbn [alloc_plan].
  cbn [is_null negb orb addr_of next_addr live].
  unfold Begin_mfcc, Begin_Signature, Begin_yin.
  destruct (Z.ltb_spec 0 (mfcccoeff (Config a))) as [Hpos|Hpos];
    [destruct (created _ Hcons Hpos) as (o & Ho)|];
    destruct (0 <? numranges (Config a));
    cbn [andb new alloc_plan bind is_null negb next_addr live];
    rewrite ?Ho;
    cbn [andb new alloc_plan bind is_null negb next_addr live];
    (eexists; eexists; split; [reflexivity|]);
    cbn [initialized alloc_plan Config signal spectrum FFT mfcc Signature yin
         addr_of is_null next_addr live addrs app];
    repeat (split; [reflexivity || lia|]);
    (split; [intros ad Hin; simpl in Hin; lia|]);
    (split; [repeat constructor; simpl; lia|]);
    intro ad; simpl; split; intro H; repeat (destruct H as [H|H]); auto 10; lia.
Qed.

(** [setConfig], step by step *)
Lemma setConfig_steps {libm : Libm} (g g' : Statics) (a a' : Analyzer) (cfg : AnalyzerConfig) :
  setConfig g a cfg = Some (g', a') ->
  exists arr cfg' b,
    let g1 := fst (released g a cfg) in
    let a1 := snd (released g a cfg) in
    adaptRanges g cfg = Some (arr, cfg')
    /\ Begin (heap g1)
             (mkAnalyzer (Bins a1) (fftlength cfg / 2)
                (F32.div (F32.of_Z (samplefreq cfg)) (F32.of_Z (fftlength cfg)))
                (Mfccs a1) (mfcccoeff cfg) (Signature a1) (numranges cfg)
                (Features a1) cfg' (initialized a1) (signal a1) (spectrum a1)
                (FFT a1) (mfcc a1) (yin a1))
       = Some (heap g', a', b)
    /\ DefaultRanges g' = arr
    /\ getConfig_cfg g' = getConfig_cfg g
    /\ caller_ranges g' = caller_ranges g.
Proof.
  unfold setConfig.
  assert (Hg : DefaultRanges (fst (released g a cfg)) = DefaultRanges g
               /\ getConfig_cfg (fst (released g a cfg)) = getConfig_cfg g
               /\ caller_ranges (fst (released g a cfg)) = caller_ranges g).
  { unfold released. destruct (initialized a && sizesDiffer a cfg); simpl; auto. }
  destruct (released g a cfg) as [g1 a1]. cbn [fst snd] in *.
  destruct Hg as (Hd & Hc & Hr).
  intro H. apply bind_Some in H as ([arr cfg'] & Had & H).
  apply bind_Some in H as ([[h a2] b] & HB & H).
  injection H as <- <-. exists arr, cfg', b. cbn [heap DefaultRanges getConfig_cfg caller_ranges].
  repeat split; try assumption.
  unfold adaptRanges in *. rewrite <- Hd. exact Had.
Qed.

Lemma adaptRanges_fields (g : Statics) (cfg cfg' : AnalyzerConfig) (arr : list Z) :
  adaptRanges g cfg = Some (arr, cfg') ->
  samplefreq cfg' = samplefreq cfg /\ fftlength cfg' = fftlength cfg
  /\ sensitivity cfg' = sensitivity cfg /\ gain cfg' = gain cfg
  /\ roloffpercentile cfg' = roloffpercentile cfg
  /\ numranges cfg' = numranges cfg /\ ranges cfg' = ranges cfg
  /\ mfcccoeff cfg' = mfcccoeff cfg
  /\ fuzzfactor cfg'
     = if negb (fftlength cfg =? ANALYZER_DEFAULT_FFTLENGTH)
          && ranges_ptr_eqb (ranges cfg) DefaultRangesPtr
       then u32 (ANALYZER_DEFAULT_FUZZFACTOR * fftlength cfg) / ANALYZER_DEFAULT_FFTLENGTH
       else fuzzfactor cfg.
Proof.
  unfold adaptRanges.
  destruct (negb (fftlength cfg =? ANALYZER_DEFAULT_FFTLENGTH)
            && ranges_ptr_eqb (ranges cfg) DefaultRangesPtr).
  - intro H. apply bind_Some in H as (arr' & _ & H). injection H as <- <-.
    repeat split.
  - intro H. injection H as <- <-. repeat split.
Qed.

Lemma Begin_members {libm : Libm} (h h' : Heap) (a a' : Analyzer) (b : bool) :
  Begin h a = Some (h', a', b) ->
  Config a' = Config a
  /\ NumMfccCoeff a' = NumMfccCoeff a
  /\ SignatureLen a' = SignatureLen a
  /\ Features a' = Features a
  /\ (NumBins a = fftlength (Config a) / 2 -> NumBins a' = NumBins a)
  /\ (Fr a = F32.div (F32.of_Z (samplefreq (Config a))) (F32.of_Z (fftlength (Config a))) ->
      Fr a' = Fr a).
Proof.
  unfold Begin. destruct (initialized a).
  - intro H; injection H as <- <- <-. repeat split; auto.
  - destruct (new h _) as [p1 h1]. destruct (new h1 _) as [p2 h2].
    destruct (new h2 _) as [p3 h3].
    intro H. apply bind_Some in H as ([[[m ms] h4] ok4] & _ & H).
    destruct (Begin_Signature h4 a ok4) as [[s h5] ok5].
    destruct (Begin_yin h5 a ok5) as [[y h6] ok6].
    injection H as <- <- <-. cbn. repeat split; auto.
Qed.

Lemma released_cases (g : Statics) (a : Analyzer) (cfg : AnalyzerConfig) :
  (initialized a = true /\ sizesDiffer a cfg = false /\ released g a cfg = (g, a))
  \/ (initialized a = true /\ sizesDiffer a cfg = true /\ released g a cfg = End g a)
  \/ (initialized a = false /\ released g a cfg = (g, a)).
Proof.
  unfold released. destruct (initialized a), (sizesDiffer a cfg); simpl; auto.
Qed.

Lemma End_plan (g : Statics) (a : Analyzer) :
  alloc_plan (heap (fst (End g a))) = alloc_plan (heap g)
  /\ next_addr (heap (fst (End g a))) = next_addr (heap g).
Proof.
  unfold End; cbn [fst heap]. rewrite !delete_plan, !next_addr_delete. auto.
Qed.

Lemma sizesDiffer_false (a : Analyzer) (cfg : AnalyzerConfig) :
  sizesDiffer a cfg = false ->
  fftlength cfg = fftlength (Config a) /\ samplefreq cfg = samplefreq (Config a)
  /\ numranges cfg = numranges (Config a) /\ mfcccoeff cfg = mfcccoeff (Config a).
Proof.
  unfold sizesDiffer. intro H.
  repeat (apply orb_false_iff in H; destruct H as [H ?]).
  repeat match goal with
         | H : negb _ = false |- _ => apply negb_false_iff, Z.eqb_eq in H
         end.
  auto.
Qed.

Lemma adaptRanges_total (g : Statics) (cfg : AnalyzerConfig) :
  ranges cfg <> DefaultRangesPtr \/ fftlength cfg = ANALYZER_DEFAULT_FFTLENGTH
  \/ (Z.to_nat (numranges cfg) <= length (DefaultRanges g))%nat ->
  adaptRanges g cfg <> None.
Proof.
  intro H. unfold adaptRanges.
  destruct (Z.eqb_spec (fftlength cfg) ANALYZER_DEFAULT_FFTLENGTH) as [E|E];
    [discriminate|].
  destruct (ranges cfg) eqn:Hr; simpl; try discriminate.
  destruct H as [H|[H|H]]; [congruence|contradiction|].
  destruct (rescaleLoop_nth (fftlength cfg) (Z.to_nat (numranges cfg)) 0
              (DefaultRanges g)) as (arr & -> & _); [lia|].
  discriminate.
Qed.

Lemma constructs_fields {libm : Libm} (cfg cfg' : AnalyzerConfig) :
  fftlength cfg' = fftlength cfg ->
  samplefreq cfg' = samplefreq cfg ->
  mfcccoeff cfg' = mfcccoeff cfg ->
  constructs cfg -> constructs cfg'.
Proof.
  unfold constructs. intros -> -> ->. exact (fun H => H).
Qed.

(** *** The constructor of [MFCC] on a sample rate below 2

    [samplingFrequency / 2] is then 0, and the division by it leaves an
    infinity or a NaN, which [(int)tmp] cannot convert. *)

Lemma div_zero_nonfinite (x : F64.t) :
  IEEE.nonfinite (F64.div x (F64.of_Z 0)) = true.
Proof. destruct x as [s|s| |s m e]; reflexivity. Qed.

Lemma mul_nonfinite (x y : F64.t) :
  IEEE.nonfinite y = true -> IEEE.nonfinite (F64.mul x y) = true.
Proof.
  destruct y as [s|s| |s m e]; try discriminate; intros _;
    destruct x as [s'|s'| |s' m' e']; reflexivity.
Qed.

Lemma add_nonfinite (x y : F64.t) :
  IEEE.nonfinite y = true -> IEEE.nonfinite (F64.add x y) = true.
Proof.
  destruct y as [s|s| |s m e]; try discriminate; intros _;
    destruct x as [s'|s'| |s' m' e']; try reflexivity;
    destruct s, s'; reflexivity.
Qed.

Lemma to_int_nonfinite (x : F64.t) :
  IEEE.nonfinite x = true -> IEEE.to_int (F64.floor x) = None.
Proof. destruct x as [s|s| |s m e]; try discriminate; reflexivity. Qed.

Section NoRate.
Variables log exp : F64.t -> F64.t.

Lemma centreIndex_no_rate (o : MFCC_h.t) (maxMel minMel i : Z) :
  Z.quot (MFCC_h.samplingFrequency o) 2 = 0 ->
  MFCC_h.centreIndex log exp o maxMel minMel i = None.
Proof.
  intro H0. unfold MFCC_h.centreIndex. rewrite H0.
  destruct (int32 (maxMel - minMel)) as [d|]; [cbn [bind]|reflexivity].
  destruct (int32 (i * d)) as [p|]; [cbn [bind]|reflexivity].
  destruct (int32 (MFCC_h.numCoefficents o + 1)) as [n1|]; [cbn [bind]|reflexivity].
  destruct (int32_div p n1) as [q|]; [cbn [bind]|reflexivity].
  destruct (int32 (q + minMel)) as [f|]; [cbn [bind]|reflexivity].
  apply to_int_nonfinite, add_nonfinite, mul_nonfinite, div_zero_nonfinite.
Qed.

Lemma calculateMelfilterBank_no_rate (o : MFCC_h.t) :
  Z.quot (MFCC_h.samplingFrequency o) 2 = 0 ->
  MFCC_h.calculateMelfilterBank log exp o = None.
Proof.
  intro H0. unfold MFCC_h.calculateMelfilterBank.
  destruct (int32 (MFCC_h.numCoefficents o + 2)) as [n2|]; [cbn [bind]|reflexivity].
  destruct (Z.ltb_spec 0 n2) as [Hn2|Hn2]; [cbn [guard bind]|reflexivity].
  destruct (IEEE.to_int _) as [maxMel|]; [cbn [bind]|reflexivity].
  destruct (IEEE.to_int _) as [minMel|]; [cbn [bind]|reflexivity].
  destruct (MFCC_h.zeroBank _ _ _) as [bank|]; [cbn [bind]|reflexivity].
  rewrite indices_cons by lia. cbn [MFCC_h.centreLoop].
  rewrite centreIndex_no_rate by exact H0. reflexivity.
Qed.

Lemma create_no_rate (frameSize_ samplingFrequency_ numCoefficents_ : Z) :
  0 <= samplingFrequency_ < 2 ->
  MFCC_h.create log exp frameSize_ samplingFrequency_ numCoefficents_ = None.
Proof.
  intro Hs. unfold MFCC_h.create.
  destruct (guard _) as [u|]; [cbn [bind]|reflexivity].
  destruct (guard _) as [u'|]; [cbn [bind]|reflexivity].
  rewrite calculateMelfilterBank_no_rate; [reflexivity|].
  cbn [MFCC_h.samplingFrequency].
  assert (E : to_int32 samplingFrequency_ = samplingFrequency_).
  { unfold to_int32, u32, wrap, UINT_BITS, INT_MAX.
    rewrite Z.mod_small by lia.
    destruct (Z.leb_spec samplingFrequency_ (2 ^ 31 - 1)); lia. }
  rewrite E. apply Z.quot_small. lia.
Qed.
End NoRate.

(** X2.  With memory available, [setConfig] completes and leaves the engine
    ready, if the constructor of the MFCC object completes on the sizes of
    the configuration: the engine is initialised, with signal, spectrum, FFT
    and pitch estimator, and with the MFCC object and the signature array
    whenever the configuration asks for coefficients or ranges.  This holds
    from any engine that is not initialised or is ready already, for a
    configuration that does not make the adaptation of the default ranges
    run past [DefaultRanges].  The constructor does not complete for a
    sample rate below 2, whatever the C library computes: it divides by
    [samplingFrequency / 2] and converts the outcome to [int]; a [setConfig]
    that allocates then faults when coefficients are asked for. *)
Theorem setConfig_ready {libm : Libm} (g : Statics) (a : Analyzer) (cfg : AnalyzerConfig) :
  alloc_plan (heap g) = [] ->
  (initialized a = true -> ready a = true) ->
  0 <= numranges cfg ->
  0 <= mfcccoeff cfg ->
  ranges cfg <> DefaultRangesPtr \/ fftlength cfg = ANALYZER_DEFAULT_FFTLENGTH
  \/ (Z.to_nat (numranges cfg) <= length (DefaultRanges g))%nat ->
  (constructs cfg ->
   exists g' a',
     setConfig g a cfg = Some (g', a')
     /\ ready a' = true
     /\ alloc_plan (heap g') = [])
  /\ (0 < mfcccoeff cfg -> 0 <= samplefreq cfg < 2 ->
      ~ constructs cfg
      /\ (initialized a = false \/ sizesDiffer a cfg = true ->
          setConfig g a cfg = None)).
Proof.
  intros Hplan Hready Hn Hm Hr. split.
  { intro Hcons.
  pose proof (setConfig_available g a cfg Hplan Hcons (adaptRanges_total g cfg Hr)) as Hs.
  destruct (setConfig g a cfg) as [[g' a']|] eqn:H; [|congruence].
  exists g', a'. split; [reflexivity|].
  apply setConfig_steps in H as (arr & cfg' & b & Had & HB & _).
  apply adaptRanges_fields in Had as (Hsf' & Hfl' & _ & _ & _ & Hn' & _ & Hm' & _).
  assert (Hcons' : constructs cfg')
    by (exact (constructs_fields cfg cfg' Hfl' Hsf' Hm' Hcons)).
  destruct (released_cases g a cfg) as [(Hi & Hsz & Hrel)|[(Hi & _ & Hrel)|(Hi & Hrel)]];
    rewrite Hrel in HB; cbn [fst snd] in HB.
  - rewrite Begin_initialized in HB by exact Hi.
    injection HB as Hh <- _. rewrite <- Hh. split; [|exact Hplan].
    apply sizesDiffer_false in Hsz as (_ & _ & Hn2 & Hm2).
    specialize (Hready Hi). unfold ready in *.
    cbn [initialized signal spectrum FFT yin mfcc Signature Config].
    rewrite Hn', Hm', Hn2, Hm2. exact Hready.
  - destruct (End_plan g a) as (Hp & _).
    match type of HB with Begin ?h ?x = _ =>
      destruct (Begin_fresh h x) as (h' & a2 & HB' & Hi' & Hp' & HC & H1 & H2 & H3
                                     & H4 & H5 & H6 & _)
    end; [rewrite Hp; exact Hplan|exact Hcons'|reflexivity|].
    rewrite HB' in HB. injection HB as Hh <- _. rewrite <- Hh. split; [|exact Hp'].
    cbn [Config] in *. rewrite Hn' in H5. rewrite Hm' in H4.
    unfold ready. rewrite HC, Hi', H6, Hn', Hm'.
    destruct (signal a2), (spectrum a2), (FFT a2); try discriminate.
    destruct (Z.ltb_spec 0 (mfcccoeff cfg)); destruct (Z.ltb_spec 0 (numranges cfg));
      rewrite ?H4, ?H5; simpl;
      repeat match goal with
             | |- context [?x =? 0] => destruct (Z.eqb_spec x 0); try lia
             end; reflexivity.
  - match type of HB with Begin ?h ?x = _ =>
      destruct (Begin_fresh h x) as (h' & a2 & HB' & Hi' & Hp' & HC & H1 & H2 & H3
                                     & H4 & H5 & H6 & _)
    end; [exact Hplan|exact Hcons'|exact Hi|].
    rewrite HB' in HB. injection HB as Hh <- _. rewrite <- Hh. split; [|exact Hp'].
    cbn [Config] in *. rewrite Hn' in H5. rewrite Hm' in H4.
    unfold ready. rewrite HC, Hi', H6, Hn', Hm'.
    destruct (signal a2), (spectrum a2), (FFT a2); try discriminate.
    destruct (Z.ltb_spec 0 (mfcccoeff cfg)); destruct (Z.ltb_spec 0 (numranges cfg));
      rewrite ?H4, ?H5; simpl;
      repeat match goal with
             | |- context [?x =? 0] => destruct (Z.eqb_spec x 0); try lia
             end; reflexivity. }
  intros Hpos Hrate.
  assert (Hno : ~ constructs cfg).
  { intro Hc. apply (Hc Hpos). apply create_no_rate. exact Hrate. }
  split; [exact Hno|]. intro Halloc.
  destruct (setConfig g a cfg) as [[g' a']|] eqn:H; [exfalso|reflexivity].
  apply setConfig_steps in H as (arr & cfg' & b & Had & HB & _).
  apply adaptRanges_fields in Had as (Hsf' & Hfl' & _ & _ & _ & _ & _ & Hm' & _).
  apply Hno.
  apply (constructs_fields cfg' cfg); try congruence.
  destruct (released_cases g a cfg) as [(Hi & Hsz & Hrel)|[(Hi & _ & Hrel)|(Hi & Hrel)]];
    rewrite Hrel in HB; cbn [fst snd] in HB.
  - destruct Halloc; congruence.
  - destruct (End_plan g a) as (Hp & _).
    apply Begin_constructs in HB; [exact HB|rewrite Hp; exact Hplan|reflexivity].
  - apply Begin_constructs in HB; [exact HB|exact Hplan|exact Hi].
Qed.

Lemma setConfig_ready_witness :
  alloc_plan (heap Statics0) = []
  /\ (initialized Analyzer_zero = true -> ready Analyzer_zero = true)
  /\ 0 <= numranges defaultConfig
  /\ 0 <= mfcccoeff defaultConfig
  /\ fftlength defaultConfig = ANALYZER_DEFAULT_FFTLENGTH
  /\ constructs defaultConfig
  /\ exists g' a',
       setConfig Statics0 Analyzer_zero defaultConfig = Some (g', a')
       /\ ready a' = true
       /\ alloc_plan (heap g') = [].
Proof.
  assert (H1 : alloc_plan (heap Statics0) = []) by reflexivity.
  assert (H2 : initialized Analyzer_zero = true -> ready Analyzer_zero = true)
    by (vm_compute; discriminate).
  assert (H3 : 0 <= numranges defaultConfig) by (vm_compute; discriminate).
  assert (H4 : 0 <= mfcccoeff defaultConfig) by (vm_compute; discriminate).
  assert (H5 : fftlength defaultConfig = ANALYZER_DEFAULT_FFTLENGTH) by reflexivity.
  assert (H6 : constructs defaultConfig) by (intros _; vm_compute; discriminate).
  refine (conj H1 (conj H2 (conj H3 (conj H4 (conj H5 (conj H6 _)))))).
  exact (proj1 (setConfig_ready Statics0 Analyzer_zero defaultConfig H1 H2 H3 H4
                  (or_intror (or_introl H5))) H6).
Defined.

(** X3.  After [setConfig] the members derived from the configuration agree
    with it: [NumBins] is half the transform length, [Fr] the sample rate
    divided by the transform length, [SignatureLen] the range count and
    [NumMfccCoeff] the coefficient count; [Config] holds the new
    configuration (only its fuzz factor may have been adapted), and the
    cached features are untouched. *)
Theorem setConfig_derived_members {libm : Libm}
  (g g' : Statics) (a a' : Analyzer) (cfg : AnalyzerConfig) :
  setConfig g a cfg = Some (g', a') ->
  NumBins a' = fftlength cfg / 2
  /\ Fr a' = F32.div (F32.of_Z (samplefreq cfg)) (F32.of_Z (fftlength cfg))
  /\ SignatureLen a' = numranges cfg
  /\ NumMfccCoeff a' = mfcccoeff cfg
  /\ samplefreq (Config a') = samplefreq cfg
  /\ fftlength (Config a') = fftlength cfg
  /\ sensitivity (Config a') = sensitivity cfg
  /\ gain (Config a') = gain cfg
  /\ roloffpercentile (Config a') = roloffpercentile cfg
  /\ numranges (Config a') = numranges cfg
  /\ ranges (Config a') = ranges cfg
  /\ mfcccoeff (Config a') = mfcccoeff cfg
  /\ Features a' = Features a.
Proof.
  intro H. apply setConfig_steps in H as (arr & cfg' & b & Had & HB & _).
  apply adaptRanges_fields in Had
    as (H1 & H2 & H3 & H4 & H5 & H6 & H7 & H8 & _).
  apply Begin_members in HB as (HC & HM & HS & HF & HN & HFr).
  cbn [Config NumMfccCoeff SignatureLen Features NumBins Fr] in *.
  rewrite HC, HM, HS, HF.
  rewrite HN by (rewrite H2; reflexivity).
  rewrite HFr by (rewrite H1, H2; reflexivity).
  repeat split; try assumption.
  unfold released. destruct (initialized a && sizesDiffer a cfg); reflexivity.
Qed.

Lemma setConfig_derived_members_witness :
  setConfig (fst Example1) Processor (configLength 1024)
  = Some (fst Example1024, snd Example1024)
  /\ NumBins (snd Example1024) = 512
  /\ SignatureLen (snd Example1024) = 6
  /\ NumMfccCoeff (snd Example1024) = 13.
Proof.
  assert (H1 : setConfig (fst Example1) Processor (configLength 1024)
               = Some (fst Example1024, snd Example1024))
    by (vm_compute; reflexivity).
  pose proof (setConfig_derived_members _ _ _ _ _ H1)
    as (HN & _ & HS & HM & _).
  exact (conj H1 (conj HN (conj HS HM))).
Defined.

(** X4.  No leak while memory is available.  Let the heap account for the
    engine ([accounted]): every object the engine holds is allocated, its
    objects are distinct, every allocated address has been handed out by the
    allocator, and the engine holds nothing unless it is initialised.  (The
    last condition is needed: an engine that a failed [Begin] left
    uninitialised with objects loses them at the next [setConfig].)  Then,
    when no allocation fails and [setConfig] returns, the heap accounts for
    the engine again, the engine is initialised, and the allocated addresses
    are exactly the objects the engine now holds together with the addresses
    that were allocated before and did not belong to it: what a resize
    releases is all of the old objects, and what it allocates is all held by
    the engine. *)
Theorem setConfig_no_leak {libm : Libm}
  (g g' : Statics) (a a' : Analyzer) (cfg : AnalyzerConfig) :
  accounted g a ->
  alloc_plan (heap g) = [] ->
  setConfig g a cfg = Some (g', a') ->
  accounted g' a'
  /\ initialized a' = true
  /\ alloc_plan (heap g') = []
  /\ forall ad, In ad (live (heap g'))
                <-> In ad (owned a') \/ (In ad (live (heap g)) /\ ~ In ad (owned a)).
Proof.
  intros (Hincl & Hnd & Hwf & Hnull) Hplan H.
  apply setConfig_steps in H as (arr & cfg' & b & _ & HB & _).
  destruct (released_cases g a cfg) as [(Hi & _ & Hrel)|[(Hi & _ & Hrel)|(Hi & Hrel)]];
    rewrite Hrel in HB; cbn [fst snd] in HB.
  - rewrite Begin_initialized in HB by exact Hi.
    injection HB as Hh <- _. unfold accounted, owned in *.
    cbn [signal spectrum Signature FFT mfcc yin initialized].
    rewrite <- Hh. repeat split; try assumption.
    + intro Hin. destruct (in_dec Nat.eq_dec ad
                   (addrs (signal a) ++ addrs (spectrum a) ++ addrs (Signature a)
                    ++ addrs (FFT a) ++ addrs (mfcc a) ++ addrs (yin a))); auto.
    + intros [Hin|[Hin _]]; [apply Hincl|]; assumption.
  - destruct (End_plan g a) as (Hp & Hn).
    match type of HB with Begin ?h ?x = _ =>
      destruct (Begin_from_null h x) as (h' & a2 & HB' & Hi' & Hp' & _ & _ & _ & Hnd'
                                         & Hlive & Hwf' & Hfresh & _)
    end.
    + rewrite Hp; exact Hplan.
    + eapply Begin_constructs; [| |exact HB]; [rewrite Hp; exact Hplan|reflexivity].
    + reflexivity.
    + reflexivity.
    + intros ad Had. rewrite Hn. apply Hwf. apply End_live in Had. tauto.
    + rewrite HB' in HB. injection HB as Hh <- _. unfold accounted. rewrite <- Hh.
      repeat split; try assumption.
      * intros ad Had. apply Hlive. auto.
      * intro E; rewrite Hi' in E; discriminate.
      * intro Had. apply Hlive in Had as [Had|Had]; [auto|].
        right. apply End_live. exact Had.
      * intros [Had|Had]; apply Hlive; [auto|]. right. apply End_live. exact Had.
  - specialize (Hnull Hi).
    match type of HB with Begin ?h ?x = _ =>
      destruct (Begin_from_null h x) as (h' & a2 & HB' & Hi' & Hp' & _ & _ & _ & Hnd'
                                         & Hlive & Hwf' & Hfresh & _)
    end.
    + exact Hplan.
    + eapply Begin_constructs; [| |exact HB]; [exact Hplan|exact Hi].
    + exact Hi.
    + exact Hnull.
    + exact Hwf.
    + rewrite HB' in HB. injection HB as Hh <- _. unfold accounted. rewrite <- Hh.
      repeat split; try assumption.
      * intros ad Had. apply Hlive. auto.
      * intro E; rewrite Hi' in E; discriminate.
      * intro Had. apply Hlive in Had as [Had|Had]; [auto|].
        right. split; [exact Had|]. rewrite Hnull. intros [].
      * intros [Had|[Had _]]; apply Hlive; auto.
Qed.

Lemma setConfig_no_leak_witness :
  accounted (fst Example1) Processor
  /\ alloc_plan (heap (fst Example1)) = []
  /\ setConfig (fst Example1) Processor (configLength 1024)
     = Some (fst Example1024, snd Example1024)
  /\ accounted (fst Example1024) (snd Example1024)
  /\ initialized (snd Example1024) = true.
Proof.
  assert (H0 : accounted (fst Example1) Processor).
  { assert (Ho : owned Processor = [1; 2; 5; 3; 4; 6]%nat) by (vm_compute; reflexivity).
    assert (Hl : live (heap (fst Example1)) = [6; 5; 4; 3; 2; 1]%nat)
      by (vm_compute; reflexivity).
    assert (Hn : next_addr (heap (fst Example1)) = 7%nat) by (vm_compute; reflexivity).
    unfold accounted. rewrite Ho, Hl, Hn.
    split; [intros x Hx; simpl in *; intuition|].
    split; [repeat constructor; simpl; intuition lia|].
    split; [intros ad Had; simpl in Had; lia|vm_compute; discriminate]. }
  assert (H1 : alloc_plan (heap (fst Example1)) = []) by (vm_compute; reflexivity).
  assert (H2 : setConfig (fst Example1) Processor (configLength 1024)
               = Some (fst Example1024, snd Example1024))
    by (vm_compute; reflexivity).
  pose proof (setConfig_no_leak _ _ _ _ _ H0 H1 H2) as (Ha & Hi & _).
  exact (conj H0 (conj H1 (conj H2 (conj Ha Hi)))).
Defined.

Lemma new_fresh {A} (h h' : Heap) (x : A) (p : ptr A) :
  new h x = (p, h') ->
  (next_addr h <= next_addr h')%nat
  /\ (forall ad, addr_of p = Some ad -> (next_addr h <= ad)%nat).
Proof.
  unfold new; destruct (alloc_plan h) as [|[|] plan]; intro E;
    injection E as <- <-; simpl; split; try lia;
    intros ad Had; try discriminate; injection Had as <-; lia.
Qed.

(** X5.  [setConfig] on an engine that is not initialised releases nothing
    ([End] is called for an initialised engine only): every object
    allocated before the call is still allocated afterwards, and the new
    [signal], [spectrum] and [FFT] pointers are null or refer to fresh
    objects, never to one of those.  So the objects that a failed [Begin]
    left with the engine are lost by the next [setConfig]. *)
Theorem setConfig_uninitialized_overwrites {libm : Libm}
  (g g' : Statics) (a a' : Analyzer) (cfg : AnalyzerConfig) :
  initialized a = false ->
  (forall ad, In ad (live (heap g)) -> (ad < next_addr (heap g))%nat) ->
  setConfig g a cfg = Some (g', a') ->
  forall ad, In ad (live (heap g)) ->
    In ad (live (heap g'))
    /\ addr_of (signal a') <> Some ad
    /\ addr_of (spectrum a') <> Some ad
    /\ addr_of (FFT a') <> Some ad.
Proof.
  intros Hi Hwf H ad Had.
  apply setConfig_steps in H as (arr & cfg' & b & _ & HB & _).
  destruct (released_cases g a cfg) as [(Hi' & _)|[(Hi' & _)|(_ & Hrel)]];
    try congruence.
  rewrite Hrel in HB; cbn [fst snd] in HB.
  split.
  - apply Begin_inv in HB as (_ & _ & Hincl & _). apply Hincl, Had.
  - specialize (Hwf ad Had).
    unfold Begin in HB. cbn [initialized] in HB. rewrite Hi in HB.
    destruct (new (heap g) _) as [p1 h1] eqn:E1.
    destruct (new h1 _) as [p2 h2] eqn:E2.
    destruct (new h2 _) as [p3 h3] eqn:E3.
    apply new_fresh in E1 as (L1 & F1), E2 as (L2 & F2), E3 as (L3 & F3).
    apply bind_Some in HB as ([[[m ms] h4] ok4] & _ & HB).
    destruct (Begin_Signature h4 _ ok4) as [[s h5] ok5].
    destruct (Begin_yin h5 _ ok5) as [[y h6] ok6].
    injection HB as _ <- _. cbn [signal spectrum FFT].
    repeat split; intro E;
      [apply F1 in E|apply F2 in E|apply F3 in E]; lia.
Qed.

Lemma setConfig_uninitialized_overwrites_witness :
  initialized (snd ExampleYinFails) = false
  /\ (forall ad, In ad (live (heap (fst ExampleYinFails))) ->
                 (ad < next_addr (heap (fst ExampleYinFails)))%nat)
  /\ setConfig (fst ExampleYinFails) (snd ExampleYinFails) defaultConfig
     = Some (fst ExampleRetry, snd ExampleRetry)
  /\ addr_of (signal (snd ExampleYinFails)) = Some 1%nat
  /\ In 1%nat (live (heap (fst ExampleYinFails)))
  /\ In 1%nat (live (heap (fst ExampleRetry)))
  /\ addr_of (signal (snd ExampleRetry)) <> Some 1%nat.
Proof.
  assert (H1 : initialized (snd ExampleYinFails) = false) by (vm_compute; reflexivity).
  assert (Hl : live (heap (fst ExampleYinFails)) = [5; 4; 3; 2; 1]%nat)
    by (vm_compute; reflexivity).
  assert (Hn : next_addr (heap (fst ExampleYinFails)) = 6%nat)
    by (vm_compute; reflexivity).
  assert (H2 : forall ad, In ad (live (heap (fst ExampleYinFails))) ->
                          (ad < next_addr (heap (fst ExampleYinFails)))%nat)
    by (rewrite Hl, Hn; intros ad Had; simpl in Had; lia).
  assert (H3 : setConfig (fst ExampleYinFails) (snd ExampleYinFails) defaultConfig
               = Some (fst ExampleRetry, snd ExampleRetry))
    by (vm_compute; reflexivity).
  assert (H4 : addr_of (signal (snd ExampleYinFails)) = Some 1%nat)
    by (vm_compute; reflexivity).
  assert (H5 : In 1%nat (live (heap (fst ExampleYinFails))))
    by (rewrite Hl; simpl; tauto).
  pose proof (setConfig_uninitialized_overwrites _ _ _ _ _ H1 H2 H3 1%nat H5)
    as (Ha & Hb & _).
  exact (conj H1 (conj H2 (conj H3 (conj H4 (conj H5 (conj Ha Hb)))))).
Defined.

(** X6.  With the default ranges pointer, a transform length other than 512
    and a range count above the size of [DefaultRanges], the rescaling loop
    of [setConfig] runs past the end of the array: the call faults. *)
Theorem setConfig_default_ranges_overrun {libm : Libm}
  (g : Statics) (a : Analyzer) (cfg : AnalyzerConfig) :
  ranges cfg = DefaultRangesPtr ->
  fftlength cfg <> ANALYZER_DEFAULT_FFTLENGTH ->
  (length (DefaultRanges g) < Z.to_nat (numranges cfg))%nat ->
  setConfig g a cfg = None.
Proof.
  intros Hr HL Hn.
  destruct (setConfig g a cfg) as [[g' a']|] eqn:H; [|reflexivity].
  apply setConfig_steps in H as (arr & cfg' & b & Had & _).
  apply (adaptRanges_prefix g cfg arr cfg' Hr HL) in Had as (Hk & _). lia.
Qed.

Lemma setConfig_default_ranges_overrun_witness :
  ranges configSeven = DefaultRangesPtr
  /\ fftlength configSeven <> ANALYZER_DEFAULT_FFTLENGTH
  /\ (length (DefaultRanges (fst Example1)) < Z.to_nat (numranges configSeven))%nat
  /\ setConfig (fst Example1) Processor configSeven = None.
Proof.
  assert (H1 : ranges configSeven = DefaultRangesPtr) by reflexivity.
  assert (H2 : fftlength configSeven <> ANALYZER_DEFAULT_FFTLENGTH)
    by (vm_compute; discriminate).
  assert (H3 : (length (DefaultRanges (fst Example1))
                < Z.to_nat (numranges configSeven))%nat)
    by (vm_compute; repeat constructor).
  refine (conj H1 (conj H2 (conj H3 _))).
  exact (setConfig_default_ranges_overrun (fst Example1) Processor configSeven
           H1 H2 H3).
Defined.

(** X7.  [setConfig] writes to no range array unless the configuration
    points to [DefaultRanges] and has a transform length other than 512: with
    a range array of the caller (or none), or with transform length 512,
    [DefaultRanges] and the caller's arrays are as before, and [Config] is
    the given configuration, fuzz factor included. *)
Theorem setConfig_other_ranges_untouched {libm : Libm}
  (g g' : Statics) (a a' : Analyzer) (cfg : AnalyzerConfig) :
  ranges cfg <> DefaultRangesPtr \/ fftlength cfg = ANALYZER_DEFAULT_FFTLENGTH ->
  setConfig g a cfg = Some (g', a') ->
  DefaultRanges g' = DefaultRanges g
  /\ (forall id, caller_ranges g' id = caller_ranges g id)
  /\ Config a' = cfg.
Proof.
  intros Hc H.
  apply setConfig_steps in H as (arr & cfg' & b & Had & HB & Hd & _ & Hcr).
  assert (E : adaptRanges g cfg = Some (DefaultRanges g, cfg)).
  { unfold adaptRanges.
    destruct Hc as [Hc|Hc].
    - destruct (ranges cfg); try congruence; rewrite andb_false_r; reflexivity.
    - rewrite Hc, Z.eqb_refl. reflexivity. }
  rewrite E in Had. injection Had as <- <-.
  apply Begin_members in HB as (HC & _).
  split; [exact Hd|]. split; [intro id; rewrite Hcr; reflexivity|exact HC].
Qed.

Lemma setConfig_other_ranges_untouched_witness :
  fftlength (configGain 80) = ANALYZER_DEFAULT_FFTLENGTH
  /\ setConfig (fst Example1) Processor (configGain 80)
     = Some (fst ExampleGain, snd ExampleGain)
  /\ DefaultRanges (fst ExampleGain) = DefaultRanges (fst Example1)
  /\ Config (snd ExampleGain) = configGain 80.
Proof.
  assert (H1 : fftlength (configGain 80) = ANALYZER_DEFAULT_FFTLENGTH) by reflexivity.
  assert (H2 : setConfig (fst Example1) Processor (configGain 80)
               = Some (fst ExampleGain, snd ExampleGain))
    by (vm_compute; reflexivity).
  pose proof (setConfig_other_ranges_untouched _ _ _ _ _ (or_intror H1) H2)
    as (Ha & _ & Hc).
  exact (conj H1 (conj H2 (conj Ha Hc))).
Defined.

(** X8.  Going back to the default transform length does not undo the
    rescaling.  After a configuration with the default ranges pointer and a
    length L other than 512, a configuration with the default ranges pointer
    and length 512 leaves [DefaultRanges] as the first call rescaled it: the
    engine then runs at length 512 with boundaries scaled for L, and with the
    fuzz factor of the configuration it was given. *)
Theorem setConfig_default_length_does_not_restore {libm : Libm}
  (g g1 g2 : Statics) (a a1 a2 : Analyzer) (cfg cfg0 : AnalyzerConfig) :
  ranges cfg = DefaultRangesPtr ->
  fftlength cfg <> ANALYZER_DEFAULT_FFTLENGTH ->
  ranges cfg0 = DefaultRangesPtr ->
  fftlength cfg0 = ANALYZER_DEFAULT_FFTLENGTH ->
  setConfig g a cfg = Some (g1, a1) ->
  setConfig g1 a1 cfg0 = Some (g2, a2) ->
  let k := Z.to_nat (numranges cfg) in
  let L := fftlength cfg in
  DefaultRanges g2
  = map (fun r => u32 (r * L) / 512) (firstn k (DefaultRanges g))
    ++ skipn k (DefaultRanges g)
  /\ deref g2 (ranges (Config a2)) = Some (DefaultRanges g2)
  /\ fftlength (Config a2) = 512
  /\ fuzzfactor (Config a2) = fuzzfactor cfg0.
Proof.
  intros Hr HL Hr0 HL0 H1 H2 k L.
  apply setConfig_steps in H1 as (arr & cfg' & b & Had & _ & Hd & _).
  apply (adaptRanges_prefix g cfg arr cfg' Hr HL) in Had as (_ & Harr & _).
  apply setConfig_steps in H2 as (arr2 & cfg2 & b2 & Had2 & HB2 & Hd2 & _).
  assert (E : adaptRanges g1 cfg0 = Some (DefaultRanges g1, cfg0)).
  { unfold adaptRanges. rewrite HL0, Z.eqb_refl. reflexivity. }
  rewrite E in Had2. injection Had2 as <- <-.
  apply Begin_members in HB2 as (HC & _). cbn [Config] in HC.
  rewrite HC, Hr0. cbn [deref]. rewrite Hd2, Hd, Harr.
  split; [reflexivity|]. split; [reflexivity|]. split; [exact HL0|reflexivity].
Qed.

Lemma setConfig_default_length_does_not_restore_witness :
  ranges (configLength 1024) = DefaultRangesPtr
  /\ fftlength (configLength 1024) <> ANALYZER_DEFAULT_FFTLENGTH
  /\ ranges defaultConfig = DefaultRangesPtr
  /\ fftlength defaultConfig = ANALYZER_DEFAULT_FFTLENGTH
  /\ setConfig (fst Example1) Processor (configLength 1024)
     = Some (fst Example1024, snd Example1024)
  /\ setConfig (fst Example1024) (snd Example1024) defaultConfig
     = Some (fst ExampleBackTo512, snd ExampleBackTo512)
  /\ deref (fst ExampleBackTo512) (ranges (Config (snd ExampleBackTo512)))
     = Some (DefaultRanges (fst ExampleBackTo512))
  /\ DefaultRanges (fst ExampleBackTo512) = [10; 20; 40; 80; 160; 512]
  /\ fftlength (Config (snd ExampleBackTo512)) = 512
  /\ fuzzfactor (Config (snd ExampleBackTo512)) = 32.
Proof.
  assert (H1 : ranges (configLength 1024) = DefaultRangesPtr) by reflexivity.
  assert (H2 : fftlength (configLength 1024) <> ANALYZER_DEFAULT_FFTLENGTH)
    by (vm_compute; discriminate).
  assert (H3 : ranges defaultConfig = DefaultRangesPtr) by reflexivity.
  assert (H4 : fftlength defaultConfig = ANALYZER_DEFAULT_FFTLENGTH) by reflexivity.
  assert (H5 : setConfig (fst Example1) Processor (configLength 1024)
               = Some (fst Example1024, snd Example1024))
    by (vm_compute; reflexivity).
  assert (H6 : setConfig (fst Example1024) (snd Example1024) defaultConfig
               = Some (fst ExampleBackTo512, snd ExampleBackTo512))
    by (vm_compute; reflexivity).
  pose proof (setConfig_default_length_does_not_restore _ _ _ _ _ _ _ _
                H1 H2 H3 H4 H5 H6) as (_ & Hd & HL & _).
  refine (conj H1 (conj H2 (conj H3 (conj H4 (conj H5 (conj H6 (conj Hd _))))))).
  split; [vm_compute; reflexivity|]. split; [exact HL|vm_compute; reflexivity].
Defined.

(** X28.  Except for the rescaling of the default ranges, [setConfig] is
    idempotent: when the configuration points to ranges of the caller or has
    transform length 512, and the call has left the engine initialised, the
    same call again changes nothing, neither in the engine nor outside
    it. *)
Theorem setConfig_idempotent {libm : Libm}
  (g g1 : Statics) (a a1 : Analyzer) (cfg : AnalyzerConfig) :
  ranges cfg <> DefaultRangesPtr \/ fftlength cfg = ANALYZER_DEFAULT_FFTLENGTH ->
  setConfig g a cfg = Some (g1, a1) ->
  initialized a1 = true ->
  setConfig g1 a1 cfg = Some (g1, a1).
Proof.
  intros Hc H Hi.
  assert (E : forall g0, adaptRanges g0 cfg = Some (DefaultRanges g0, cfg)).
  { intro g0. unfold adaptRanges. destruct Hc as [Hc|Hc].
    - destruct (ranges cfg); try congruence; rewrite andb_false_r; reflexivity.
    - rewrite Hc, Z.eqb_refl. reflexivity. }
  apply setConfig_steps in H as (arr & cfg' & b & Had & HB & _).
  rewrite E in Had. injection Had as _ <-.
  apply Begin_members in HB as (HC & HM & HS & _ & HN & HF).
  cbn [Config NumMfccCoeff SignatureLen NumBins Fr] in *.
  specialize (HN eq_refl). specialize (HF eq_refl).
  unfold setConfig, released.
  assert (Hsz : sizesDiffer a1 cfg = false).
  { unfold sizesDiffer. rewrite HC, !Z.eqb_refl. reflexivity. }
  rewrite Hi, Hsz. cbn [andb]. rewrite E. cbn [bind].
  rewrite Begin_initialized by exact Hi. cbn [bind].
  destruct a1, g1. cbn in *. subst. reflexivity.
Qed.

Lemma setConfig_idempotent_witness :
  fftlength (configGain 80) = ANALYZER_DEFAULT_FFTLENGTH
  /\ setConfig (fst Example1) Processor (configGain 80)
     = Some (fst ExampleGain, snd ExampleGain)
  /\ initialized (snd ExampleGain) = true
  /\ setConfig (fst ExampleGain) (snd ExampleGain) (configGain 80)
     = Some (fst ExampleGain, snd ExampleGain).
Proof.
  assert (H1 : fftlength (configGain 80) = ANALYZER_DEFAULT_FFTLENGTH) by reflexivity.
  assert (H2 : setConfig (fst Example1) Processor (configGain 80)
               = Some (fst ExampleGain, snd ExampleGain))
    by (vm_compute; reflexivity).
  assert (H3 : initialized (snd ExampleGain) = true) by (vm_compute; reflexivity).
  exact (conj H1 (conj H2 (conj H3
           (setConfig_idempotent _ _ _ _ _ (or_intror H1) H2 H3)))).
Defined.

Lemma Begin_mfcc_result {libm : Libm} (h h' : Heap) (a : Analyzer) (memok ok : bool)
      (m : ptr MFCC_h.t) (ms : option nat) :
  Begin_mfcc h a memok = Some (m, ms, h', ok) ->
  ok = memok /\ (memok = true -> 0 < mfcccoeff (Config a) -> is_null m = false).
Proof.
  unfold Begin_mfcc.
  destruct (Z.ltb_spec 0 (mfcccoeff (Config a))) as [Hc|Hc]; destruct memok;
    cbn [andb].
  - destruct (new h _) as [[[ad v]|] h1]; [|discriminate].
    intro H. apply bind_Some in H as (o & _ & H).
    injection H as <- <- <- <-. split; [reflexivity|]. reflexivity.
  - intro H; injection H as <- <- <- <-. split; [reflexivity|discriminate].
  - intro H; injection H as <- <- <- <-. split; [reflexivity|]. intros; lia.
  - intro H; injection H as <- <- <- <-. split; [reflexivity|discriminate].
Qed.

(** X9.  What the result of [Begin] stands for.  On an engine that is not
    initialised, [Begin] returns the new value of [initialized], and it
    returns true exactly when the pitch estimator was obtained, the signature
    array was obtained if the configuration has ranges, the MFCC object if it
    has coefficients, and at least one of the signal buffer, the spectrum
    buffer and the FFT object: [memok = (signal || spectrum || FFT)] does not
    ask for all three. *)
Theorem Begin_success {libm : Libm} (h h' : Heap) (a a' : Analyzer) (b : bool) :
  initialized a = false ->
  Begin h a = Some (h', a', b) ->
  initialized a' = b
  /\ (b = true <->
      (is_null (signal a') = false \/ is_null (spectrum a') = false
       \/ is_null (FFT a') = false)
      /\ (0 < mfcccoeff (Config a) -> is_null (mfcc a') = false)
      /\ (0 < numranges (Config a) -> is_null (Signature a') = false)
      /\ is_null (yin a') = false).
Proof.
  intros Hi H. unfold Begin in H. rewrite Hi in H.
  destruct (new h _) as [p1 h1]. destruct (new h1 _) as [p2 h2].
  destruct (new h2 _) as [p3 h3].
  apply bind_Some in H as ([[[m ms] h4] ok4] & Hm & H).
  apply Begin_mfcc_result in Hm as (-> & Hm).
  set (memok := negb (is_null p1) || negb (is_null p2) || negb (is_null p3)) in *.
  assert (H3 : memok = true <->
               is_null p1 = false \/ is_null p2 = false \/ is_null p3 = false).
  { subst memok. destruct (is_null p1), (is_null p2), (is_null p3); simpl;
      intuition discriminate. }
  unfold Begin_Signature, Begin_yin in H.
  destruct memok.
  - destruct (Z.ltb_spec 0 (numranges (Config a))) as [Hr|Hr]; cbn [andb] in H.
    + destruct (new h4 _) as [s h5]. destruct (is_null s) eqn:Hs; cbn [negb] in H.
      * injection H as <- <- <-. cbn. split; [reflexivity|].
        split; [discriminate|]. intros (_ & _ & Hx & _).
        specialize (Hx Hr). congruence.
      * destruct (new h5 _) as [y h6]. injection H as <- <- <-. cbn.
        split; [reflexivity|]. destruct (is_null y); cbn;
          (split; [intro Hb; try discriminate; repeat split; auto;
                   try (apply H3; reflexivity); try (intro; lia)
                  |intros (_ & _ & _ & Hy); try discriminate; reflexivity]).
    + destruct (new h4 _) as [y h6]. injection H as <- <- <-. cbn.
      split; [reflexivity|]. destruct (is_null y); cbn;
          (split; [intro Hb; try discriminate; repeat split; auto;
                   try (apply H3; reflexivity); try (intro; lia)
                  |intros (_ & _ & _ & Hy); try discriminate; reflexivity]).
  - rewrite andb_false_r in H. injection H as <- <- <-. cbn.
    split; [reflexivity|]. split; [discriminate|].
    intros (Hx & _). apply H3 in Hx. discriminate.
Qed.

Lemma Begin_success_witness :
  initialized Analyzer_zero = false
  /\ Begin (mkHeap 1 [] [false]) Analyzer_zero
     = Some (fst (fst ExampleBegin), snd (fst ExampleBegin), snd ExampleBegin)
  /\ snd ExampleBegin = true
  /\ initialized (snd (fst ExampleBegin)) = true
  /\ is_null (signal (snd (fst ExampleBegin))) = true
  /\ is_null (yin (snd (fst ExampleBegin))) = false.
Proof.
  assert (H1 : initialized Analyzer_zero = false) by reflexivity.
  assert (H2 : Begin (mkHeap 1 [] [false]) Analyzer_zero
               = Some (fst (fst ExampleBegin), snd (fst ExampleBegin),
                       snd ExampleBegin))
    by (vm_compute; reflexivity).
  assert (H3 : snd ExampleBegin = true) by (vm_compute; reflexivity).
  assert (H4 : is_null (signal (snd (fst ExampleBegin))) = true)
    by (vm_compute; reflexivity).
  pose proof (Begin_success _ _ _ _ _ H1 H2) as (Hi & Hiff).
  pose proof (proj1 Hiff H3) as (_ & _ & _ & Hy).
  refine (conj H1 (conj H2 (conj H3 (conj _ (conj H4 Hy))))).
  rewrite Hi. exact H3.
Defined.

Lemma Begin_Bins {libm : Libm} (h h' : Heap) (a a' : Analyzer) (b : bool) :
  initialized a = false ->
  Begin h a = Some (h', a', b) ->
  Bins a' = addr_of (spectrum a').
Proof.
  intros Hi H. unfold Begin in H. rewrite Hi in H.
  destruct (new h _) as [p1 h1]. destruct (new h1 _) as [p2 h2].
  destruct (new h2 _) as [p3 h3].
  apply bind_Some in H as ([[[m ms] h4] ok4] & _ & H).
  destruct (Begin_Signature h4 a ok4) as [[s h5] ok5].
  destruct (Begin_yin h5 a ok5) as [[y h6] ok6].
  injection H as <- <- <-. reflexivity.
Qed.

(** X10.  [setConfig] keeps the public alias [Bins] at the spectrum buffer:
    if it held the buffer's address on an initialised engine before, it does
    afterwards.  [amplitude(bin)] then is [amplitude(mag)] of that bin of the
    spectrum buffer, and a fault for a bin outside the buffer or without a
    buffer; [amplitude(mag)] does not depend on the sign of [mag]. *)
Theorem setConfig_Bins_alias {libm : Libm}
  (g g' : Statics) (a a' : Analyzer) (cfg : AnalyzerConfig) :
  (initialized a = true -> Bins a = addr_of (spectrum a)) ->
  setConfig g a cfg = Some (g', a') ->
  Bins a' = addr_of (spectrum a')
  /\ (forall bin,
        amplitude_bin a' bin
        = match spectrum a' with
          | Some (_, s) => option_map (amplitude_mag a') (rd s bin)
          | None => None
          end)
  /\ (forall mag, amplitude_mag a' (SFopp mag) = amplitude_mag a' mag).
Proof.
  intros Halias H.
  assert (HB : Bins a' = addr_of (spectrum a')).
  { apply setConfig_steps in H as (arr & cfg' & b & _ & HB & _).
    destruct (released_cases g a cfg) as [(Hi & _ & Hrel)|[(Hi & _ & Hrel)|(Hi & Hrel)]];
      rewrite Hrel in HB; cbn [fst snd] in HB.
    - rewrite Begin_initialized in HB by exact Hi.
      injection HB as _ <- _. cbn. apply Halias, Hi.
    - apply Begin_Bins in HB; [exact HB|reflexivity].
    - apply Begin_Bins in HB; [exact HB|exact Hi]. }
  split; [exact HB|]. split.
  - intro bin. unfold amplitude_bin, BinsArray. rewrite HB.
    destruct (spectrum a') as [[ad s]|]; [|reflexivity].
    cbn [addr_of]. rewrite Nat.eqb_refl. cbn [bind].
    destruct (rd s bin); reflexivity.
  - intro mag. unfold amplitude_mag. destruct mag; reflexivity.
Qed.

Lemma setConfig_Bins_alias_witness :
  (initialized Processor = true -> Bins Processor = addr_of (spectrum Processor))
  /\ setConfig (fst Example1) Processor (configLength 1024)
     = Some (fst Example1024, snd Example1024)
  /\ Bins (snd Example1024) = addr_of (spectrum (snd Example1024))
  /\ Bins (snd Example1024) = Some 8%nat.
Proof.
  assert (H1 : initialized Processor = true ->
               Bins Processor = addr_of (spectrum Processor))
    by (intros _; vm_compute; reflexivity).
  assert (H2 : setConfig (fst Example1) Processor (configLength 1024)
               = Some (fst Example1024, snd Example1024))
    by (vm_compute; reflexivity).
  pose proof (setConfig_Bins_alias _ _ _ _ _ H1 H2) as (Hb & _).
  refine (conj H1 (conj H2 (conj Hb _))). vm_compute. reflexivity.
Defined.

(** ** The fingerprint hash: faults and range *)

Lemma signatureHashFrom_zero_fuzz (sig : list Z) (n off : nat) :
  n <> O -> signatureHashFrom 0 sig n off = None.
Proof.
  destruct n as [|n]; [congruence|]. intros _. simpl.
  destruct (signatureHashFrom 0 sig n (S off)); [|reflexivity]. simpl.
  destruct (nth_error sig off); reflexivity.
Qed.

Lemma lxor_bound (n x y : Z) :
  0 < n -> 0 <= x < 2 ^ n -> 0 <= y < 2 ^ n -> 0 <= Z.lxor x y < 2 ^ n.
Proof.
  intros Hn Hx Hy.
  assert (H0 : 0 <= Z.lxor x y) by (apply Z.lxor_nonneg; lia).
  split; [exact H0|].
  destruct (Z.eq_dec (Z.lxor x y) 0) as [E|E]; [rewrite E; apply Z.pow_pos_nonneg; lia|].
  assert (Hp : 0 < Z.lxor x y) by lia.
  apply (proj2 (Z.log2_lt_pow2 _ n Hp)).
  eapply Z.le_lt_trans; [apply Z.log2_lxor; lia|].
  apply Z.max_lub_lt.
  - destruct (Z.eq_dec x 0) as [->|]; [simpl; lia|].
    apply (proj1 (Z.log2_lt_pow2 x n ltac:(lia))). lia.
  - destruct (Z.eq_dec y 0) as [->|]; [simpl; lia|].
    apply (proj1 (Z.log2_lt_pow2 y n ltac:(lia))). lia.
Qed.

Lemma quantize_bound (fuzz v b : Z) :
  0 < fuzz -> 0 <= v < b -> 0 <= quantize fuzz v < b.
Proof.
  intros Hf Hv. unfold quantize.
  pose proof (Z.mod_pos_bound v fuzz Hf).
  pose proof (Z.mod_le v fuzz ltac:(lia) Hf). lia.
Qed.

Lemma hashStep_bound (fuzz v h : Z) :
  0 < fuzz -> 0 <= v < 2 ^ 16 -> 0 <= hashStep fuzz v h < 2 ^ 32.
Proof.
  intros Hf Hv. unfold hashStep, wrap, hash_t_bits.
  apply lxor_bound; [lia| |].
  - apply Z.mod_pos_bound. lia.
  - pose proof (quantize_bound fuzz v (2 ^ 16) Hf Hv). lia.
Qed.

Lemma signatureHashFrom_bound (fuzz : Z) (sig : list Z) (n off : nat) :
  0 < fuzz ->
  (off + n <= length sig)%nat ->
  (forall i v, (off <= i < off + n)%nat -> nth_error sig i = Some v -> 0 <= v < 2 ^ 16) ->
  exists h, signatureHashFrom fuzz sig n off = Some h /\ 0 <= h < 2 ^ 32.
Proof.
  intros Hf. revert off. induction n as [|n IH]; intros off Hlen Hv; simpl.
  - exists 5381. split; [reflexivity|lia].
  - destruct (IH (S off)) as (h & -> & _); [lia|intros i v Hi; apply Hv; lia|].
    simpl. destruct (nth_error sig off) as [v|] eqn:E;
      [|apply nth_error_None in E; lia].
    simpl. destruct (Z.eqb_spec fuzz 0); [lia|]. simpl.
    eexists; split; [reflexivity|]. apply hashStep_bound; [exact Hf|].
    apply (Hv off); [lia|exact E].
Qed.

Lemma signatureHashFrom_short (fuzz : Z) (sig : list Z) (n off : nat) :
  n <> O -> (length sig < off + n)%nat -> signatureHashFrom fuzz sig n off = None.
Proof.
  revert off. induction n as [|n IH]; intros off Hn Hlen; [congruence|].
  simpl. destruct n as [|n].
  - simpl. destruct (nth_error sig off) eqn:E; [|reflexivity].
    assert (off < length sig)%nat by (apply nth_error_Some; congruence). lia.
  - rewrite IH by (try discriminate; lia). reflexivity.
Qed.

(** X11.  A transform length below 16 together with the default ranges
    pointer makes [setConfig] compute the fuzz factor 32 * L / 512 = 0;
    with at least one range, [getSignatureHash] then takes a remainder by
    zero, whatever signature it is given: the call faults. *)
Theorem getSignatureHash_small_transform {libm : Libm}
  (g g' : Statics) (a a' : Analyzer) (cfg : AnalyzerConfig) :
  ranges cfg = DefaultRangesPtr ->
  0 <= fftlength cfg < 16 ->
  0 < numranges cfg ->
  setConfig g a cfg = Some (g', a') ->
  fuzzfactor (Config a') = 0
  /\ forall Sig, getSignatureHash a' Sig = None.
Proof.
  intros Hr HL Hn H.
  assert (Hf : fuzzfactor (Config a') = 0).
  { apply setConfig_inv in H as (arr & cfg' & Had & _ & Hc & _).
    rewrite Hc.
    apply adaptRanges_prefix in Had as (_ & _ & ->);
      [|exact Hr|unfold ANALYZER_DEFAULT_FFTLENGTH; lia].
    unfold u32, wrap, UINT_BITS, ANALYZER_DEFAULT_FUZZFACTOR,
      ANALYZER_DEFAULT_FFTLENGTH.
    rewrite Z.mod_small by lia. apply Z.div_small. lia. }
  split; [exact Hf|]. intro Sig.
  unfold getSignatureHash, signatureHash. rewrite Hf, Nat.sub_0_r.
  apply signatureHashFrom_zero_fuzz.
  assert (Hl : SignatureLen a' = numranges cfg).
  { apply setConfig_steps in H as (arr & cfg' & b & _ & HB & _).
    apply Begin_members in HB as (_ & _ & HS & _). exact HS. }
  rewrite Hl. lia.
Qed.

Lemma getSignatureHash_small_transform_witness :
  ranges (configLength 8) = DefaultRangesPtr
  /\ 0 <= fftlength (configLength 8) < 16
  /\ 0 < numranges (configLength 8)
  /\ setConfig (fst Example1) Processor (configLength 8)
     = Some (fst Example8, snd Example8)
  /\ fuzzfactor (Config (snd Example8)) = 0
  /\ getSignatureHash (snd Example8) None = None.
Proof.
  assert (H1 : ranges (configLength 8) = DefaultRangesPtr) by reflexivity.
  assert (H2 : 0 <= fftlength (configLength 8) < 16) by (vm_compute; split; [discriminate|reflexivity]).
  assert (H3 : 0 < numranges (configLength 8)) by reflexivity.
  assert (H4 : setConfig (fst Example1) Processor (configLength 8)
               = Some (fst Example8, snd Example8))
    by (vm_compute; reflexivity).
  pose proof (getSignatureHash_small_transform _ _ _ _ _ H1 H2 H3 H4) as (Hf & Hh).
  exact (conj H1 (conj H2 (conj H3 (conj H4 (conj Hf (Hh None)))))).
Defined.

(** X12.  With a positive fuzz factor and 16-bit signature values,
    [getSignatureHash] returns a value below 2 ^ 32 when the array (the
    caller's, or the engine's for a null argument) has at least
    [SignatureLen] entries, and reads past the end of the array, a fault,
    when it has fewer. *)
Theorem getSignatureHash_bounded (a : Analyzer) (Sig : option (list Z)) :
  let S := match Sig with
           | Some s => s
           | None => match Signature a with Some (_, s) => s | None => [] end
           end in
  let n := Z.to_nat (SignatureLen a) in
  0 < fuzzfactor (Config a) ->
  (forall i v, (i < n)%nat -> nth_error S i = Some v -> 0 <= v < 2 ^ 16) ->
  ((n <= length S)%nat ->
   exists h, getSignatureHash a Sig = Some h /\ 0 <= h < 2 ^ 32)
  /\ ((length S < n)%nat -> getSignatureHash a Sig = None).
Proof.
  intros S n Hf Hv. unfold getSignatureHash, signatureHash. fold S n.
  rewrite Nat.sub_0_r. split; intro Hlen.
  - apply signatureHashFrom_bound; [exact Hf|lia|].
    intros i v Hi. apply Hv. lia.
  - apply signatureHashFrom_short; lia.
Qed.

Lemma getSignatureHash_bounded_witness :
  let Sig := Some [33; 0; 0; 0; 0; 0] in
  0 < fuzzfactor (Config Processor)
  /\ (forall i v, (i < Z.to_nat (SignatureLen Processor))%nat ->
                  nth_error [33; 0; 0; 0; 0; 0] i = Some v -> 0 <= v < 2 ^ 16)
  /\ (Z.to_nat (SignatureLen Processor) <= length [33; 0; 0; 0; 0; 0])%nat
  /\ exists h, getSignatureHash Processor Sig = Some h /\ 0 <= h < 2 ^ 32.
Proof.
  intro Sig.
  assert (H1 : 0 < fuzzfactor (Config Processor)) by reflexivity.
  assert (H2 : forall i v, (i < Z.to_nat (SignatureLen Processor))%nat ->
                 nth_error [33; 0; 0; 0; 0; 0] i = Some v -> 0 <= v < 2 ^ 16).
  { intros i v _ Hv.
    do 6 (destruct i as [|i]; [injection Hv as <-; lia|]).
    destruct i; discriminate. }
  assert (H3 : (Z.to_nat (SignatureLen Processor) <= length [33; 0; 0; 0; 0; 0])%nat)
    by (vm_compute; repeat constructor).
  refine (conj H1 (conj H2 (conj H3 _))).
  exact (proj1 (getSignatureHash_bounded Processor Sig H1 H2) H3).
Defined.

(** ** The ranges of the fingerprint *)

(** X27.  [rangeIndex] is monotone, whatever the boundaries are: with at
    least one range and a range array of the configured size it returns for
    every bin, the result is a valid range, and a higher bin never goes to a
    lower range. *)
Theorem rangeIndex_monotone (ranges : list Z) (numranges i j : Z) :
  0 < numranges ->
  (Z.to_nat numranges <= length ranges)%nat ->
  i <= j ->
  exists r s,
    rangeIndex ranges numranges i = Some r
    /\ rangeIndex ranges numranges j = Some s
    /\ 0 <= r /\ r <= s /\ s < numranges.
Proof.
  intros Hn Hlen Hij.
  destruct (rangeIndex_in_range ranges numranges i Hn Hlen) as (r & Hr & Hrr).
  destruct (rangeIndex_in_range ranges numranges j Hn Hlen) as (s & Hs & Hss).
  exists r, s. split; [exact Hr|]. split; [exact Hs|]. split; [lia|]. split; [|lia].
  assert (Fi : firstAboveOrLast ranges numranges i r).
  { unfold rangeIndex in Hr.
    apply (rangeIndexFrom_spec ranges numranges i (Z.to_nat numranges) 0 r);
      [lia|lia|intros r' Hr'; lia|exact Hr]. }
  assert (Fj : firstAboveOrLast ranges numranges j s).
  { unfold rangeIndex in Hs.
    apply (rangeIndexFrom_spec ranges numranges j (Z.to_nat numranges) 0 s);
      [lia|lia|intros r' Hr'; lia|exact Hs]. }
  destruct (Z.le_gt_cases r s) as [|Hgt]; [assumption|exfalso].
  destruct Fj as [(_ & (b & Hb & Hjb) & _)|(-> & _)]; [|lia].
  destruct Fi as [(_ & _ & Hbelow)|(_ & Hbelow)];
    destruct (Hbelow s ltac:(lia)) as (b' & Hb' & Hle);
    rewrite Hb in Hb'; injection Hb' as <-; lia.
Qed.

Lemma rangeIndex_monotone_witness :
  0 < 6
  /\ (Z.to_nat 6 <= length ANALYZER_DEFAULT_RANGES_256)%nat
  /\ 30 <= 100
  /\ exists r s,
       rangeIndex ANALYZER_DEFAULT_RANGES_256 6 30 = Some r
       /\ rangeIndex ANALYZER_DEFAULT_RANGES_256 6 100 = Some s
       /\ 0 <= r /\ r <= s /\ s < 6.
Proof.
  assert (H1 : 0 < 6) by lia.
  assert (H2 : (Z.to_nat 6 <= length ANALYZER_DEFAULT_RANGES_256)%nat)
    by (vm_compute; lia).
  assert (H3 : 30 <= 100) by lia.
  exact (conj H1 (conj H2 (conj H3
           (rangeIndex_monotone ANALYZER_DEFAULT_RANGES_256 6 30 100 H1 H2 H3)))).
Defined.

(** ** The fingerprint: what the entries are *)

Lemma suppress_length (avg : F32.t) (Sig : list Z) (mags : list F32.t) :
  length (suppress avg Sig mags) = length Sig.
Proof.
  revert mags. induction Sig as [|s Sig IH]; intros [|m mags]; simpl; auto.
Qed.

Lemma signatureOf_range (a : Analyzer) (i v : Z) :
  signatureOf a i = Some v -> 0 <= v < 2 ^ 16.
Proof.
  unfold signatureOf. intro H. apply bind_Some in H as (f & _ & H).
  injection H as <-. unfold wrap, signature_t_bits. apply Z.mod_pos_bound. lia.
Qed.

Section Fingerprints.
Variable logf : F32.t -> F32.t.

(** every entry is zero or the frequency of a bin of its range *)
Lemma scanLoop_entries (a : Analyzer) (ranges : list Z) (n : Z)
      (bins : list F32.t) (I : Z -> Prop) (idxs : list Z) :
  let from_bin Sig :=
    forall j v, rd Sig j = Some v -> 0 <= j < n ->
      v = 0 \/ exists i, I i /\ signatureOf a i = Some v
                         /\ rangeIndex ranges n i = Some j in
  forall Sig mags Sig' mags',
    (forall i, In i idxs -> I i) ->
    from_bin Sig ->
    scanLoop logf a ranges n bins idxs (Sig, mags) = Some (Sig', mags') ->
    from_bin Sig'.
Proof.
  intro from_bin.
  induction idxs as [|i idxs IH]; intros Sig mags Sig' mags' HI HS H; simpl in H.
  - injection H as <- <-. exact HS.
  - apply bind_Some in H as ([Sig1 mags1] & H1 & H).
    apply (IH _ _ _ _ (fun j Hj => HI j (or_intror Hj))) in H; [exact H|].
    apply scanBin_spec in H1 as (r & b & m & Hr & _ & _ & _ & Hup & Hsame & Hoth & _).
    destruct (IEEE.gtb (logMagnitude logf b) m).
    + intros j v Hv Hj. destruct (Z.eq_dec j r) as [->|Hne].
      * right. exists i. split; [apply HI; left; reflexivity|].
        rewrite <- Hup by reflexivity. auto.
      * apply HS; [|exact Hj]. rewrite <- (proj2 (Hoth j Hne)). exact Hv.
    + rewrite (Hsame eq_refl). exact HS.
Qed.

(** X13.  When [getSignature] returns, it returns the engine's signature
    array, and each of its [numranges] entries is below 2 ^ 16 and is either
    0 or the frequency, truncated to [signature_t], of a scanned bin i
    (1 <= i < NumBins) that [rangeIndex] assigns to that entry's range.
    With a positive fuzz factor and [SignatureLen] equal to the range count,
    [getSignatureHash] of the engine's own signature then returns, with a
    value below 2 ^ 32. *)
Theorem getSignature_entries
  (g : Statics) (a a' : Analyzer) (Spectrum : option (list F32.t)) (len : Z)
  (p : option nat) :
  let n := numranges (Config a) in
  let ranges := match deref g (ranges (Config a)) with Some r => r | None => [] end in
  let N := if len =? 0 then NumBins a else len in
  0 < n ->
  getSignature logf g a Spectrum len = Some (a', p) ->
  exists ad Sig,
    Signature a' = Some (ad, Sig)
    /\ p = Some ad
    /\ (Z.to_nat n <= length Sig)%nat
    /\ (forall j v, 0 <= j < n -> rd Sig j = Some v ->
          0 <= v < 2 ^ 16
          /\ (v = 0 \/ exists i, 1 <= i < N
                                 /\ rangeIndex ranges n i = Some j
                                 /\ signatureOf a i = Some v))
    /\ (0 < fuzzfactor (Config a) -> SignatureLen a = n ->
        exists h, getSignatureHash a' None = Some h /\ 0 <= h < 2 ^ 32).
Proof.
  intros n ranges N Hn H. unfold getSignature in H. fold n in H.
  destruct (Z.eqb_spec n 0) as [E|_]; [lia|].
  apply bind_Some in H as ([Sig mags] & Hscan & H).
  apply bind_Some in H as ([ad old] & Hsig & H).
  injection H as <- <-. cbn [Signature Config SignatureLen].
  unfold scan in Hscan. fold n ranges N in Hscan. rewrite Hsig in Hscan.
  cbn [bind] in Hscan.
  apply bind_Some in Hscan as (u & Hguard & Hscan).
  assert (Hlen0 : (Z.to_nat n <= length old)%nat).
  { unfold guard in Hguard.
    destruct (Nat.leb_spec (Z.to_nat n) (length old)); [assumption|discriminate]. }
  pose proof (scanLoop_length logf _ _ _ _ _ _ _ _ _ Hscan) as (HlS & HlM).
  rewrite repeat_length in HlM.
  rewrite length_app, repeat_length, length_skipn in HlS.
  assert (Hent : forall j v, rd Sig j = Some v -> 0 <= j < n ->
            v = 0 \/ exists i, 1 <= i < N /\ signatureOf a i = Some v
                               /\ rangeIndex ranges n i = Some j).
  { apply (scanLoop_entries a ranges n (binsOf a Spectrum) (fun i => 1 <= i < N)
             (indices 1 N) _ _ _ _ (fun i Hi => proj1 (In_indices 1 N i) Hi))
      with (2 := Hscan).
    intros j v Hv Hj. left. unfold rd in Hv.
    destruct (Z.ltb_spec j 0); [lia|].
    rewrite nth_error_app1 in Hv by (rewrite repeat_length; lia).
    apply nth_error_In, repeat_spec in Hv. exact Hv. }
  assert (Hfin : forall j v, 0 <= j < n ->
            rd (suppress (average mags n) Sig mags) j = Some v ->
            0 <= v < 2 ^ 16
            /\ (v = 0 \/ exists i, 1 <= i < N
                                   /\ rangeIndex ranges n i = Some j
                                   /\ signatureOf a i = Some v)).
  { intros j v Hj Hv. unfold rd in Hv.
    destruct (Z.ltb_spec j 0); [lia|]. rewrite suppress_nth in Hv.
    destruct (nth_error Sig (Z.to_nat j)) as [s|] eqn:Es; [|discriminate].
    destruct (nth_error mags (Z.to_nat j)) as [m|] eqn:Em;
      [|apply nth_error_None in Em; lia].
    assert (Hs : v = 0 \/ v = s)
      by (injection Hv as <-; destruct (IEEE.ltb m (average mags n)); auto).
    destruct Hs as [-> | ->]; [split; [lia|left; reflexivity]|].
    destruct (Hent j s) as [->|(i & Hi & Hso & Hri)];
      [unfold rd; destruct (Z.ltb_spec j 0); [lia|exact Es]|exact Hj| |].
    - split; [lia|left; reflexivity].
    - split; [eapply signatureOf_range; exact Hso|right; eauto]. }
  exists ad, (suppress (average mags n) Sig mags).
  split; [reflexivity|]. split; [reflexivity|].
  split; [rewrite suppress_length; lia|].
  split; [exact Hfin|].
  intros Hf HS. unfold getSignatureHash, signatureHash.
  cbn [Signature SignatureLen Config]. rewrite HS, Nat.sub_0_r.
  apply signatureHashFrom_bound; [exact Hf|rewrite suppress_length; lia|].
  intros i v Hi Hv.
  apply (Hfin (Z.of_nat i) v); [lia|].
  unfold rd. destruct (Z.ltb_spec (Z.of_nat i) 0); [lia|].
  rewrite Nat2Z.id. exact Hv.
Qed.

Lemma logMagnitude_zero (sg : bool) :
  logf (F32.of_Z 1) = IEEE.zero ->
  logMagnitude logf (S754_zero sg) = IEEE.zero.
Proof.
  intro H. unfold logMagnitude.
  replace (F32.add (IEEE.fabs (S754_zero sg)) (F32.of_Z 1))
    with (F32.of_Z 1) by (destruct sg; vm_compute; reflexivity).
  exact H.
Qed.

Lemma scanLoop_silent (a : Analyzer) (ranges : list Z) (n : Z)
      (bins : list F32.t) (idxs : list Z) (Sig : list Z) :
  logf (F32.of_Z 1) = IEEE.zero ->
  0 < n ->
  (Z.to_nat n <= length ranges)%nat ->
  zeroBins bins idxs ->
  scanLoop logf a ranges n bins idxs (Sig, repeat IEEE.zero (Z.to_nat n))
  = Some (Sig, repeat IEEE.zero (Z.to_nat n)).
Proof.
  intros Hlog Hn Hr. induction idxs as [|i idxs IH]; intro Hz;
    cbn [scanLoop]; [reflexivity|]. unfold scanBin.
  destruct (rangeIndex_in_range ranges n i Hn Hr) as (r & -> & Hrr). cbn [bind].
  destruct (Hz i (or_introl eq_refl)) as (sg & ->). cbn [bind].
  rewrite (logMagnitude_zero sg Hlog).
  assert (Hm : rd (repeat IEEE.zero (Z.to_nat n)) r = Some IEEE.zero).
  { unfold rd. destruct (Z.ltb_spec r 0); [lia|].
    destruct (nth_error_Some_ex (repeat IEEE.zero (Z.to_nat n)) (Z.to_nat r))
      as (x & Hx); [rewrite repeat_length; lia|].
    rewrite Hx. apply nth_error_In, repeat_spec in Hx. rewrite Hx. reflexivity. }
  unfold F32.t in *. rewrite Hm. cbn [bind].
  change (IEEE.gtb IEEE.zero IEEE.zero) with false. cbv iota. cbn [bind].
  apply IH. intros j Hj. apply Hz. right. exact Hj.
Qed.

Lemma fold_add_zeros (k : nat) :
  fold_left F32.add (repeat IEEE.zero k) IEEE.zero = IEEE.zero.
Proof. induction k as [|k IH]; simpl; [reflexivity|exact IH]. Qed.

Lemma average_zeros (n : Z) :
  0 < n -> average (repeat IEEE.zero (Z.to_nat n)) n = IEEE.zero.
Proof.
  intro Hn. unfold average. rewrite fold_add_zeros.
  change (F64.mul (F64.of_float IEEE.zero) (F64.of_Z 1)) with IEEE.zero.
  rewrite F64_zero_div_of_Z by exact Hn. reflexivity.
Qed.

Lemma suppress_zeros (Sig : list Z) (k : nat) :
  suppress IEEE.zero Sig (repeat IEEE.zero k) = Sig.
Proof.
  revert k. induction Sig as [|s Sig IH]; intros [|k]; simpl; try reflexivity.
  rewrite IH. reflexivity.
Qed.

(** X14.  A silent spectrum has the zero fingerprint.  When bins
    1..NumBins-1 are zeros and [logf], the C library's logarithm on [float], maps 1 to 0,
    [getSignature] completes without converting any frequency, and the
    first [numranges] entries of the signature array are 0 (the rest of the
    array is as it was): no peak is above the initial 0, and no peak is
    below the mean. *)
Theorem getSignature_silent
  (g : Statics) (a : Analyzer) (Spectrum : option (list F32.t)) (len : Z)
  (ad : nat) (Sig0 : list Z) :
  let n := numranges (Config a) in
  let ranges := match deref g (ranges (Config a)) with Some r => r | None => [] end in
  let N := if len =? 0 then NumBins a else len in
  logf (F32.of_Z 1) = IEEE.zero ->
  0 < n ->
  Signature a = Some (ad, Sig0) ->
  (Z.to_nat n <= length Sig0)%nat ->
  (Z.to_nat n <= length ranges)%nat ->
  (forall i, 1 <= i < N ->
             exists s, rd (binsOf a Spectrum) i = Some (S754_zero s)) ->
  exists a',
    getSignature logf g a Spectrum len = Some (a', Some ad)
    /\ Signature a'
       = Some (ad, repeat 0 (Z.to_nat n) ++ skipn (Z.to_nat n) Sig0)
    /\ forall j v, 0 <= j < n ->
         rd (repeat 0 (Z.to_nat n) ++ skipn (Z.to_nat n) Sig0) j = Some v -> v = 0.
Proof.
  intros n ranges N Hlog Hn HSig HlS Hlr Hz.
  assert (Hz' : zeroBins (binsOf a Spectrum) (indices 1 N))
    by (intros i Hi; apply Hz, In_indices, Hi).
  unfold getSignature. fold n.
  destruct (Z.eqb_spec n 0) as [E|_]; [lia|].
  unfold scan. fold n ranges N. rewrite HSig. cbn [bind].
  replace (Z.to_nat n <=? length Sig0)%nat with true
    by (symmetry; apply Nat.leb_le; exact HlS).
  cbn [guard bind].
  rewrite (scanLoop_silent a ranges n _ _ _ Hlog Hn Hlr Hz'). cbn [bind].
  rewrite average_zeros by exact Hn. rewrite suppress_zeros.
  eexists. split; [reflexivity|]. split; [reflexivity|].
  intros j v Hj Hv. unfold rd in Hv. destruct (Z.ltb_spec j 0); [lia|].
  rewrite nth_error_app1 in Hv by (rewrite repeat_length; lia).
  apply nth_error_In, repeat_spec in Hv. exact Hv.
Qed.

End Fingerprints.

Lemma getSignature_entries_witness :
  0 < numranges (Config Processor)
  /\ getSignature (fun x => x) (fst Example1) Processor ExampleSpectrum 8
     = Some (fst ExampleFingerprint, snd ExampleFingerprint)
  /\ exists ad Sig,
       Signature (fst ExampleFingerprint) = Some (ad, Sig)
       /\ snd ExampleFingerprint = Some ad
       /\ (Z.to_nat (numranges (Config Processor)) <= length Sig)%nat.
Proof.
  assert (H1 : 0 < numranges (Config Processor)) by reflexivity.
  assert (H2 : getSignature (fun x => x) (fst Example1) Processor ExampleSpectrum 8
               = Some (fst ExampleFingerprint, snd ExampleFingerprint))
    by (vm_compute; reflexivity).
  refine (conj H1 (conj H2 _)).
  destruct (getSignature_entries (fun x => x) (fst Example1) Processor _
              ExampleSpectrum 8 _ H1 H2) as (ad & Sig & Ha & Hb & Hc & _).
  exists ad, Sig. exact (conj Ha (conj Hb Hc)).
Defined.

Lemma getSignature_silent_witness :
  let logf := fun _ : F32.t => IEEE.zero in
  let Spectrum := Some (repeat IEEE.zero 8) in
  logf (F32.of_Z 1) = IEEE.zero
  /\ 0 < numranges (Config Processor)
  /\ Signature Processor = Some (5%nat, [0; 0; 0; 0; 0; 0])
  /\ (forall i, 1 <= i < 8 ->
                exists s, rd (binsOf Processor Spectrum) i = Some (S754_zero s))
  /\ exists a',
       getSignature logf (fst Example1) Processor Spectrum 8 = Some (a', Some 5%nat)
       /\ Signature a' = Some (5%nat, [0; 0; 0; 0; 0; 0]).
Proof.
  intros logf Spectrum.
  assert (H1 : logf (F32.of_Z 1) = IEEE.zero) by reflexivity.
  assert (H2 : 0 < numranges (Config Processor)) by reflexivity.
  assert (H3 : Signature Processor = Some (5%nat, [0; 0; 0; 0; 0; 0]))
    by (vm_compute; reflexivity).
  assert (H4 : (Z.to_nat (numranges (Config Processor))
                <= length [0; 0; 0; 0; 0; 0])%nat)
    by (vm_compute; repeat constructor).
  assert (H5 : (Z.to_nat (numranges (Config Processor))
                <= length (match deref (fst Example1) (ranges (Config Processor)) with
                           | Some r => r
                           | None => []
                           end))%nat)
    by (vm_compute; repeat constructor).
  assert (H6 : forall i, 1 <= i < 8 ->
                 exists s, rd (binsOf Processor Spectrum) i = Some (S754_zero s)).
  { intros i Hi.
    assert (Hc : i = 1 \/ i = 2 \/ i = 3 \/ i = 4 \/ i = 5 \/ i = 6 \/ i = 7) by lia.
    destruct Hc as [->|[->|[->|[->|[->|[->| ->]]]]]]; exists false; reflexivity. }
  refine (conj H1 (conj H2 (conj H3 (conj H6 _)))).
  destruct (getSignature_silent logf (fst Example1) Processor Spectrum 8 5%nat
              [0; 0; 0; 0; 0; 0] H1 H2 H3 H4 H5 H6) as (a' & Ha & Hb & _).
  exists a'. exact (conj Ha Hb).
Defined.

(** ** Spectral statistics: what is read, and the peak *)

Section Features.
Variables log exp : F64.t -> F64.t.
Variable pow : F64.t -> F64.t -> F64.t.

Lemma sumsLoop_ext (a1 a2 : Analyzer) (bins1 bins2 : list F32.t) (idxs : list Z) :
  Fr a1 = Fr a2 ->
  (forall i, In i idxs -> rd bins1 i = rd bins2 i) ->
  forall s, sumsLoop log a1 bins1 idxs s = sumsLoop log a2 bins2 idxs s.
Proof.
  intros HFr. induction idxs as [|i idxs IH]; intros Hb s; simpl; [reflexivity|].
  rewrite <- (Hb i (or_introl eq_refl)).
  destruct (rd bins1 i) as [Mag|]; [simpl|reflexivity].
  replace (sumsStep log a2 i Mag s) with (sumsStep log a1 i Mag s)
    by (unfold sumsStep, frequency; rewrite HFr; reflexivity).
  apply IH. intros j Hj; apply Hb; right; exact Hj.
Qed.

Lemma momentsLoop_ext (N : Z) (c m t : F32.t) (bins1 bins2 : list F32.t)
      (idxs : list Z) :
  (forall i, In i idxs -> rd bins1 i = rd bins2 i) ->
  forall s, momentsLoop pow N c m t bins1 idxs s = momentsLoop pow N c m t bins2 idxs s.
Proof.
  induction idxs as [|i idxs IH]; intros Hb s; simpl; [reflexivity|].
  rewrite <- (Hb i (or_introl eq_refl)).
  destruct (rd bins1 i) as [Mag|]; [simpl|reflexivity].
  apply IH. intros j Hj; apply Hb; right; exact Hj.
Qed.

Lemma sumsLoop_defined (a : Analyzer) (bins : list F32.t) (idxs : list Z) :
  forall s, sumsLoop log a bins idxs s <> None
            <-> forall i, In i idxs -> rd bins i <> None.
Proof.
  induction idxs as [|i idxs IH]; intro s; simpl.
  - split; [intros _ i []|discriminate].
  - destruct (rd bins i) as [Mag|] eqn:E; simpl.
    + rewrite IH. split.
      * intros H j [<-|Hj]; [congruence|auto].
      * intros H j Hj; apply H; right; exact Hj.
    + split; [congruence|]. intro H. exfalso. apply (H i); auto.
Qed.

Lemma momentsLoop_defined (N : Z) (c m t : F32.t) (bins : list F32.t) (idxs : list Z) :
  forall s, momentsLoop pow N c m t bins idxs s <> None
            <-> forall i, In i idxs -> rd bins i <> None.
Proof.
  induction idxs as [|i idxs IH]; intro s; simpl.
  - split; [intros _ i []|discriminate].
  - destruct (rd bins i) as [Mag|] eqn:E; simpl.
    + rewrite IH. split.
      * intros H j [<-|Hj]; [congruence|auto].
      * intros H j Hj; apply H; right; exact Hj.
    + split; [congruence|]. intro H. exfalso. apply (H i); auto.
Qed.

Lemma rd_defined {A} (l : list A) (i : Z) :
  rd l i <> None <-> 0 <= i < Z.of_nat (length l).
Proof.
  unfold rd. destruct (Z.ltb_spec i 0).
  - split; [congruence|lia].
  - rewrite nth_error_Some. lia.
Qed.

Lemma reads_defined {A} (l : list A) (N : Z) :
  (forall i, In i (indices 1 N) -> rd l i <> None)
  <-> N <= 1 \/ N <= Z.of_nat (length l).
Proof.
  split.
  - intro H. destruct (Z.le_gt_cases N 1) as [|HN]; [left; assumption|right].
    assert (Hr : rd l (N - 1) <> None) by (apply H, In_indices; lia).
    apply rd_defined in Hr. lia.
  - intros H i Hi. apply In_indices in Hi. apply rd_defined. lia.
Qed.

(** X15.  [getFeatures] reads bins 1..N-1 of the spectrum, where N is [len],
    or [NumBins] for [len] 0: it completes exactly when N <= 1 or the array
    has at least N bins, and otherwise reads past its end. *)
Theorem getFeatures_defined
  (a : Analyzer) (Spectrum : option (list F32.t)) (len : Z) :
  let N := if len =? 0 then NumBins a else len in
  getFeatures log exp pow a Spectrum len <> None
  <-> N <= 1 \/ N <= Z.of_nat (length (binsOf a Spectrum)).
Proof.
  intro N. rewrite <- reads_defined. unfold getFeatures. fold N.
  split.
  - intro H.
    destruct (sumsLoop log a (binsOf a Spectrum) (indices 1 N) Sums0) eqn:E;
      [|exfalso; apply H; reflexivity].
    apply (sumsLoop_defined a _ _ Sums0). congruence.
  - intro H.
    destruct (sumsLoop log a (binsOf a Spectrum) (indices 1 N) Sums0) as [s|] eqn:E;
      [|apply (sumsLoop_defined a _ _ Sums0) in H; congruence].
    cbn [bind].
    match goal with
    | |- context [momentsLoop pow ?n ?c ?m ?t ?b ?i ?s0] =>
        pose proof (proj2 (momentsLoop_defined n c m t b i s0) H) as Hm;
        destruct (momentsLoop pow n c m t b i s0); [|congruence]
    end.
    discriminate.
Qed.

(** X16.  The ten features depend on bins 1..N-1, on N, on [Fr] and on the
    rolloff percentile, and on nothing else: two calls that agree on these
    fault together or yield the same features.  In particular bin 0 and the
    features cached by an earlier call (or by [doFft]) have no influence. *)
Theorem getFeatures_inputs
  (a1 a2 : Analyzer) (S1 S2 : option (list F32.t)) (len1 len2 : Z) :
  let N1 := if len1 =? 0 then NumBins a1 else len1 in
  let N2 := if len2 =? 0 then NumBins a2 else len2 in
  N1 = N2 ->
  Fr a1 = Fr a2 ->
  roloffpercentile (Config a1) = roloffpercentile (Config a2) ->
  (forall i, 1 <= i < N1 -> rd (binsOf a1 S1) i = rd (binsOf a2 S2) i) ->
  match getFeatures log exp pow a1 S1 len1, getFeatures log exp pow a2 S2 len2 with
  | Some F1, Some F2 => forall f, F1 f = F2 f
  | None, None => True
  | _, _ => False
  end.
Proof.
  intros N1 N2 HN HFr Hro Hb.
  assert (Hb' : forall i, In i (indices 1 N1) -> rd (binsOf a1 S1) i = rd (binsOf a2 S2) i)
    by (intros i Hi; apply Hb, In_indices, Hi).
  unfold getFeatures. fold N1 N2. rewrite <- HN, <- Hro.
  rewrite <- (sumsLoop_ext a1 a2 _ _ _ HFr Hb' Sums0).
  destruct (sumsLoop log a1 (binsOf a1 S1) (indices 1 N1) Sums0) as [s|];
    [cbn [bind]|exact I].
  match goal with
  | |- context [momentsLoop pow ?n ?c ?m ?t (binsOf a2 S2) ?i ?s0] =>
      rewrite <- (momentsLoop_ext n c m t _ _ i Hb' s0)
  end.
  match goal with
  | |- context [momentsLoop pow ?n ?c ?m ?t ?b ?i ?s0] =>
      destruct (momentsLoop pow n c m t b i s0) as [m'|]; [cbn [bind]|exact I]
  end.
  intro f; destruct f; reflexivity.
Qed.

Lemma sumsLoop_peak_bound (a : Analyzer) (bins : list F32.t) (idxs : list Z) :
  forall (P : F32.t -> Prop) (s s' : Sums),
    (forall b, P b -> IEEE.gtb b (peakMag s) = false) ->
    sumsLoop log a bins idxs s = Some s' ->
    (forall b, P b -> IEEE.gtb b (peakMag s') = false)
    /\ (forall i, In i idxs ->
                  exists b, rd bins i = Some b /\ IEEE.gtb b (peakMag s') = false).
Proof.
  induction idxs as [|i idxs IH]; intros P s s' HP H; simpl in H.
  - injection H as <-. split; [exact HP|intros i []].
  - apply bind_Some in H as (Mag & Hrd & H).
    destruct (IH (fun b => P b \/ b = Mag) (sumsStep log a i Mag s) s')
      as (H1 & H2); [|exact H|].
    + unfold sumsStep; cbn [peakMag]. unfold IEEE.gtb in *.
      intros b [Hb| ->].
      * destruct (SFltb (peakMag s) Mag) eqn:E; [|apply HP, Hb].
        destruct (SFltb Mag b) eqn:E2; [|reflexivity].
        rewrite <- (HP b Hb). symmetry. eapply SFltb_trans; eassumption.
      * destruct (SFltb (peakMag s) Mag) eqn:E; [apply SFltb_irrefl|exact E].
    + split.
      * intros b Hb. apply H1. left; exact Hb.
      * intros j [<-|Hj]; [|apply H2, Hj].
        exists Mag. split; [exact Hrd|]. apply H1. right; reflexivity.
Qed.

Lemma sumsLoop_peak_attained (a : Analyzer) (bins : list F32.t) (I : Z -> Prop)
      (idxs : list Z) :
  let attained s :=
    (peakMag s = IEEE.zero /\ peakFreq s = IEEE.zero)
    \/ exists i, I i /\ rd bins i = Some (peakMag s)
                 /\ peakFreq s = frequency a i
                 /\ IEEE.gtb (peakMag s) IEEE.zero = true in
  forall s s',
    (forall i, In i idxs -> I i) ->
    attained s ->
    sumsLoop log a bins idxs s = Some s' ->
    attained s'.
Proof.
  intro attained. induction idxs as [|i idxs IH]; intros s s' HI Hs H; simpl in H.
  - injection H as <-. exact Hs.
  - apply bind_Some in H as (Mag & Hrd & H).
    apply (IH _ _ (fun j Hj => HI j (or_intror Hj))) in H; [exact H|].
    unfold attained, sumsStep; cbn [peakMag peakFreq].
    destruct (IEEE.gtb Mag (peakMag s)) eqn:E; [|exact Hs].
    right. exists i. split; [apply HI; left; reflexivity|].
    split; [exact Hrd|]. split; [reflexivity|].
    unfold IEEE.gtb in *.
    destruct Hs as [(Hz & _)|(j & _ & _ & _ & Hpos)].
    + rewrite <- Hz. exact E.
    + eapply SFltb_trans; eassumption.
Qed.

(** X17.  The peak of [getFeatures].  No bin in 1..N-1 compares above
    [Features[Fpeakmag]]; and either the peak is 0 with peak frequency 0 (no
    bin is above 0), or it is positive, it is the value of some bin i in
    1..N-1, and [Features[Fpeakfreq]] is [frequency(i)] of that bin. *)
Theorem getFeatures_peak
  (a : Analyzer) (Spectrum : option (list F32.t)) (len : Z)
  (F : SpectrumFeature -> F32.t) :
  let N := if len =? 0 then NumBins a else len in
  let bins := binsOf a Spectrum in
  getFeatures log exp pow a Spectrum len = Some F ->
  (forall i, 1 <= i < N ->
             exists b, rd bins i = Some b /\ IEEE.gtb b (F Fpeakmag) = false)
  /\ ((F Fpeakmag = IEEE.zero /\ F Fpeakfreq = IEEE.zero)
      \/ exists i, 1 <= i < N
                   /\ rd bins i = Some (F Fpeakmag)
                   /\ F Fpeakfreq = frequency a i
                   /\ IEEE.gtb (F Fpeakmag) IEEE.zero = true).
Proof.
  intros N bins H. unfold getFeatures in H. fold N bins in H.
  apply bind_Some in H as (s & Hs & H).
  apply bind_Some in H as (m & _ & H).
  injection H as <-.
  change (setFeature _ Fkurtosis _ Fpeakmag) with (peakMag s).
  change (setFeature _ Fkurtosis _ Fpeakfreq) with (peakFreq s).
  split.
  - intros i Hi.
    apply (sumsLoop_peak_bound a bins (indices 1 N) (fun _ => False) Sums0 s);
      [intros b []|exact Hs|apply In_indices, Hi].
  - apply (sumsLoop_peak_attained a bins (fun i => 1 <= i < N) (indices 1 N) Sums0 s);
      [intros i Hi; apply In_indices, Hi|left; split; reflexivity|exact Hs].
Qed.

End Features.

Lemma getFeatures_inputs_witness :
  let id := fun x : F64.t => x in
  let pw := fun x _ : F64.t => x in
  let S1 := Some (map F32.of_Z [0; 1; 1; 1; 1; 100; 100; 100]) in
  let S2 := Some (map F32.of_Z [7; 1; 1; 1; 1; 100; 100; 100]) in
  Fr Processor = Fr Processor
  /\ (forall i, 1 <= i < 8 -> rd (binsOf Processor S1) i = rd (binsOf Processor S2) i)
  /\ match getFeatures id id pw Processor S1 8, getFeatures id id pw Processor S2 8 with
     | Some F1, Some F2 => forall f, F1 f = F2 f
     | None, None => True
     | _, _ => False
     end.
Proof.
  intros id pw S1 S2.
  assert (H1 : Fr Processor = Fr Processor) by reflexivity.
  assert (H2 : forall i, 1 <= i < 8 ->
                 rd (binsOf Processor S1) i = rd (binsOf Processor S2) i).
  { intros i Hi.
    assert (Hc : i = 1 \/ i = 2 \/ i = 3 \/ i = 4 \/ i = 5 \/ i = 6 \/ i = 7) by lia.
    destruct Hc as [->|[->|[->|[->|[->|[->| ->]]]]]]; reflexivity. }
  refine (conj H1 (conj H2 _)).
  exact (getFeatures_inputs id id pw Processor Processor S1 S2 8 8
           eq_refl H1 eq_refl H2).
Defined.

Lemma getFeatures_peak_witness :
  let id := fun x : F64.t => x in
  let pw := fun x _ : F64.t => x in
  getFeatures id id pw Processor ExampleSpectrum 8 = Some ExampleFeatures
  /\ ExampleFeatures Fpeakmag = F32.of_Z 100
  /\ (forall i, 1 <= i < 8 ->
        exists b, rd (binsOf Processor ExampleSpectrum) i = Some b
                  /\ IEEE.gtb b (ExampleFeatures Fpeakmag) = false).
Proof.
  intros id pw.
  assert (H1 : getFeatures id id pw Processor ExampleSpectrum 8 = Some ExampleFeatures)
    by (vm_compute; reflexivity).
  refine (conj H1 (conj _ _)).
  - vm_compute. reflexivity.
  - exact (proj1 (getFeatures_peak id id pw Processor ExampleSpectrum 8
                    ExampleFeatures H1)).
Defined.

(** ** The level of a silent signal *)

Section TimeDomain.
Variable log10 : F64.t -> F64.t.
Variable T : Type.
Variable toFloat : T -> F32.t.

Lemma rmsLoop_silent (Signal : list T) (n i : nat) :
  (forall j, (i <= j < i + n)%nat ->
             exists s sg, nth_error Signal j = Some s /\ toFloat s = S754_zero sg) ->
  rmsLoop T toFloat Signal n i IEEE.zero = Some IEEE.zero.
Proof.
  revert i. induction n as [|n IH]; intros i H; simpl; [reflexivity|].
  destruct (H i) as (s & sg & -> & Hs); [lia|]. simpl. rewrite Hs.
  replace (F64.add IEEE.zero (F64.of_float (F32.sq (IEEE.fabs (S754_zero sg)))))
    with IEEE.zero by (destruct sg; reflexivity).
  apply IH. intros j Hj. apply H. lia.
Qed.

Lemma rmsLoop_ext (S1 S2 : list T) (n i : nat) (acc : F64.t) :
  (forall j, (i <= j < i + n)%nat ->
             option_map (fun s => IEEE.fabs (toFloat s)) (nth_error S1 j)
             = option_map (fun s => IEEE.fabs (toFloat s)) (nth_error S2 j)) ->
  rmsLoop T toFloat S1 n i acc = rmsLoop T toFloat S2 n i acc.
Proof.
  revert i acc. induction n as [|n IH]; intros i acc H; simpl; [reflexivity|].
  pose proof (H i ltac:(lia)) as Hi.
  destruct (nth_error S1 i) as [s1|], (nth_error S2 i) as [s2|]; simpl in *;
    try discriminate; [|reflexivity].
  injection Hi as ->. apply IH. intros j Hj. apply H. lia.
Qed.

Lemma rms_silent_zero (a : Analyzer) (Signal : list T) (siglen : Z) :
  let len := if siglen =? 0 then fftlength (Config a) else siglen in
  1 <= len ->
  (forall j, (j < Z.to_nat len)%nat ->
             exists s sg, nth_error Signal j = Some s /\ toFloat s = S754_zero sg) ->
  rms T toFloat a Signal siglen = Some IEEE.zero.
Proof.
  intros len Hlen H. unfold rms. fold len.
  rewrite rmsLoop_silent by (intros j Hj; apply H; lia).
  cbn [bind]. rewrite F64_zero_div_of_Z by lia. reflexivity.
Qed.

(** X18.  Silence has no level.  For a signal whose first [len] samples
    convert to zero ([len] >= 1), [rms] is 0; with a positive finite
    sensitivity, and a C library whose [log10] maps 0 to -infinity, the level
    in dB is -infinity, and [decibelSPL] converts that to [decibel_t]: the
    result is undefined. *)
Theorem decibelSPL_silent (a : Analyzer) (Signal : list T) (siglen : Z)
        (m : positive) (e : Z) :
  let len := if siglen =? 0 then fftlength (Config a) else siglen in
  log10 IEEE.zero = S754_infinity true ->
  sensitivity (Config a) = S754_finite false m e ->
  0 <= gain (Config a) ->
  1 <= len ->
  (forall j, (j < Z.to_nat len)%nat ->
             exists s sg, nth_error Signal j = Some s /\ toFloat s = S754_zero sg) ->
  rms T toFloat a Signal siglen = Some IEEE.zero
  /\ decibels log10 T toFloat a Signal siglen = Some (S754_infinity true)
  /\ decibelSPL log10 T toFloat a Signal siglen = None.
Proof.
  intros len Hlog Hsens Hgain Hlen H.
  assert (Hr : rms T toFloat a Signal siglen = Some IEEE.zero)
    by (apply rms_silent_zero; assumption).
  assert (Hd : decibels log10 T toFloat a Signal siglen = Some (S754_infinity true)).
  { unfold decibels. rewrite Hr. cbn [bind]. rewrite Hsens.
    change (F64.div (F64.of_float IEEE.zero) (F64.of_float (S754_finite false m e)))
      with IEEE.zero.
    rewrite Hlog.
    change (F64.mul (F64.of_Z 20) (S754_infinity true)) with (S754_infinity true).
    f_equal.
    assert (Hg : F64.sub (S754_infinity true) (F64.of_Z (gain (Config a)))
                 = S754_infinity true).
    { destruct (Z.eq_dec (gain (Config a)) 0) as [->|Hne]; [reflexivity|].
      destruct (F64_of_Z_positive (gain (Config a))) as [(m' & e' & ->)| ->];
        [lia|reflexivity|reflexivity]. }
    rewrite Hg. reflexivity. }
  split; [exact Hr|]. split; [exact Hd|].
  unfold decibelSPL. rewrite Hd. reflexivity.
Qed.

(** X19.  [rms] depends on the magnitudes of the first [len] samples only:
    signals whose samples have the same absolute values there (and are
    missing at the same places) have the same RMS, whatever the signs and
    whatever follows. *)
Theorem rms_depends_on_magnitudes (a : Analyzer) (S1 S2 : list T) (siglen : Z) :
  let len := if siglen =? 0 then fftlength (Config a) else siglen in
  (forall j, (j < Z.to_nat len)%nat ->
             option_map (fun s => IEEE.fabs (toFloat s)) (nth_error S1 j)
             = option_map (fun s => IEEE.fabs (toFloat s)) (nth_error S2 j)) ->
  rms T toFloat a S1 siglen = rms T toFloat a S2 siglen.
Proof.
  intros len H. unfold rms. fold len.
  rewrite (rmsLoop_ext S1 S2) by (intros j Hj; apply H; lia).
  reflexivity.
Qed.

End TimeDomain.

Lemma decibelSPL_silent_witness :
  let log10 := fun _ : F64.t => S754_infinity true in
  log10 IEEE.zero = S754_infinity true
  /\ sensitivity (Config Processor) = S754_finite false 10510926 (-21)
  /\ 0 <= gain (Config Processor)
  /\ (forall j, (j < Z.to_nat 2)%nat ->
        exists s sg, nth_error [0; 0] j = Some s /\ F32.of_Z s = S754_zero sg)
  /\ rms Z F32.of_Z Processor [0; 0] 2 = Some IEEE.zero
  /\ decibelSPL log10 Z F32.of_Z Processor [0; 0] 2 = None.
Proof.
  intro log10.
  assert (H1 : log10 IEEE.zero = S754_infinity true) by reflexivity.
  assert (H2 : sensitivity (Config Processor) = S754_finite false 10510926 (-21))
    by (vm_compute; reflexivity).
  assert (H3 : 0 <= gain (Config Processor)) by (vm_compute; discriminate).
  assert (H4 : 1 <= (if 2 =? 0 then fftlength (Config Processor) else 2))
    by (vm_compute; discriminate).
  assert (H5 : forall j, (j < Z.to_nat 2)%nat ->
                 exists s sg, nth_error [0; 0] j = Some s /\ F32.of_Z s = S754_zero sg).
  { intros j Hj. destruct j as [|[|j]];
      [exists 0, false; split; reflexivity|exists 0, false; split; reflexivity|].
    exfalso. change (Z.to_nat 2) with 2%nat in Hj. lia. }
  pose proof (decibelSPL_silent log10 Z F32.of_Z Processor [0; 0] 2 _ _
                H1 H2 H3 H4 H5) as (Hr & _ & Hd).
  exact (conj H1 (conj H2 (conj H3 (conj H5 (conj Hr Hd))))).
Defined.

Lemma rms_depends_on_magnitudes_witness :
  (forall j, (j < Z.to_nat 2)%nat ->
     option_map (fun s => IEEE.fabs (F32.of_Z s)) (nth_error [3; -4] j)
     = option_map (fun s => IEEE.fabs (F32.of_Z s)) (nth_error [-3; 4; 9] j))
  /\ rms Z F32.of_Z Processor [3; -4] 2 = rms Z F32.of_Z Processor [-3; 4; 9] 2.
Proof.
  assert (H1 : forall j, (j < Z.to_nat 2)%nat ->
     option_map (fun s => IEEE.fabs (F32.of_Z s)) (nth_error [3; -4] j)
     = option_map (fun s => IEEE.fabs (F32.of_Z s)) (nth_error [-3; 4; 9] j)).
  { intros j Hj. destruct j as [|[|j]]; [reflexivity|reflexivity|].
    exfalso. change (Z.to_nat 2) with 2%nat in Hj. lia. }
  refine (conj H1 _).
  exact (rms_depends_on_magnitudes Z F32.of_Z Processor [3; -4] [-3; 4; 9] 2 H1).
Defined.

(** ** The pitch estimator: what it reads and what it finds *)

(** *** What the difference function reads *)
Lemma sumSquaredDifferences_ext (f1 f2 : list F32.t) (tau : nat) (js : list nat) :
  (forall j, In j js -> nth_error f1 j = nth_error f2 j
                        /\ nth_error f1 (j + tau) = nth_error f2 (j + tau)) ->
  forall acc, YIN.sumSquaredDifferences f1 tau js acc
              = YIN.sumSquaredDifferences f2 tau js acc.
Proof.
  induction js as [|j js IH]; intros H acc; cbn [YIN.sumSquaredDifferences];
    [reflexivity|].
  destruct (H j (or_introl eq_refl)) as [-> ->].
  destruct (nth_error f2 j); [cbn [bind]|reflexivity].
  destruct (nth_error f2 (j + tau)); [cbn [bind]|reflexivity].
  apply IH. intros j' Hj'. apply H. right. exact Hj'.
Qed.

Lemma differenceLoop_ext (f1 f2 : list F32.t) (L : nat) (taus : list nat) :
  (forall tau j, In tau taus -> (j < L)%nat ->
     nth_error f1 j = nth_error f2 j
     /\ nth_error f1 (j + tau) = nth_error f2 (j + tau)) ->
  forall cum, YIN.differenceLoop f1 L taus cum = YIN.differenceLoop f2 L taus cum.
Proof.
  induction taus as [|tau taus IH]; intros H cum; cbn [YIN.differenceLoop];
    [reflexivity|].
  rewrite (sumSquaredDifferences_ext f1 f2)
    by (intros j Hj; apply in_seq in Hj; apply H; [left; reflexivity|lia]).
  destruct (YIN.sumSquaredDifferences f2 tau (seq 0 L) IEEE.zero);
    [cbn [bind]|reflexivity].
  rewrite IH by (intros tau' j Ht Hj; apply H; [right; exact Ht|exact Hj]).
  reflexivity.
Qed.

Lemma sumSquaredDifferences_fault (frame : list F32.t) (tau : nat) (js : list nat) :
  (exists j, In j js /\ (length frame <= j + tau)%nat) ->
  forall acc, YIN.sumSquaredDifferences frame tau js acc = None.
Proof.
  induction js as [|j js IH]; intros (j0 & Hin & Hlen) acc; [destruct Hin|].
  cbn [YIN.sumSquaredDifferences].
  destruct (nth_error frame j) eqn:E1; [cbn [bind]|reflexivity].
  destruct (nth_error frame (j + tau)) eqn:E2; [cbn [bind]|reflexivity].
  destruct Hin as [<-|Hin].
  - apply nth_error_None in Hlen. congruence.
  - apply IH. eauto.
Qed.

Lemma differenceLoop_fault (frame : list F32.t) (L : nat) (taus : list nat) :
  (exists tau, In tau taus /\ (1 <= L)%nat /\ (length frame < L + tau)%nat) ->
  forall cum, YIN.differenceLoop frame L taus cum = None.
Proof.
  induction taus as [|tau taus IH]; intros (t0 & Hin & HL & Hlen) cum;
    [destruct Hin|].
  cbn [YIN.differenceLoop]. destruct Hin as [<-|Hin].
  - rewrite sumSquaredDifferences_fault; [reflexivity|].
    exists (L - 1)%nat. split; [apply in_seq; lia|lia].
  - destruct (YIN.sumSquaredDifferences frame tau (seq 0 L) IEEE.zero);
      [cbn [bind]|reflexivity].
    rewrite IH by eauto. reflexivity.
Qed.

(** X20.  The difference function of [YIN].  With L = framesz/2,
    [cumulativeMeanNormalisedDifferenceFunction] completes exactly when
    L >= 1 and the frame has at least 2L-1 samples (it reads
    [frame[j + tau]] for j, tau < L, and writes [delta[0]]); the new [delta]
    then has L entries, the first of which is 1. *)
Theorem cumulativeMeanNormalisedDifferenceFunction_shape
  (y : YIN.t) (frame : list F32.t) :
  let L := YIN.framesz y / 2 in
  (YIN.cumulativeMeanNormalisedDifferenceFunction y frame <> None
   <-> 1 <= L /\ 2 * L - 1 <= Z.of_nat (length frame))
  /\ forall d, YIN.cumulativeMeanNormalisedDifferenceFunction y frame = Some d ->
       Z.of_nat (length d) = L /\ rd d 0 = Some (F32.of_Z 1).
Proof.
  intro L. unfold YIN.cumulativeMeanNormalisedDifferenceFunction. fold L.
  split; [split|].
  - intro H.
    destruct (Z.le_gt_cases L 0) as [HL|HL].
    { exfalso. apply H. replace (Z.to_nat L) with O by lia. reflexivity. }
    split; [lia|].
    destruct (Z.le_gt_cases (2 * L - 1) (Z.of_nat (length frame))) as [|Hlen];
      [assumption|].
    exfalso. apply H.
    rewrite differenceLoop_fault; [reflexivity|].
    exists (Z.to_nat L - 1)%nat. split; [apply in_seq; lia|lia].
  - intros (HL & Hlen).
    destruct (differenceLoop_total frame (Z.to_nat L)
                (seq 0 (Z.to_nat L)) IEEE.zero) as (d & -> & Hd).
    { intros tau Ht. apply in_seq in Ht. lia. }
    rewrite length_seq in Hd. cbn [bind].
    destruct (upd_nth_In_range 0 (F32.of_Z 1) d) as (d' & ->); [lia|].
    discriminate.
  - intros d H. apply bind_Some in H as (d0 & Hd0 & H).
    split.
    + rewrite (upd_nth_length _ _ _ _ H).
      destruct (Z.le_gt_cases L 0) as [HL|HL].
      { replace (Z.to_nat L) with O in Hd0 by lia. injection Hd0 as <-.
        discriminate. }
      assert (Hfr : (2 * Z.to_nat L - 1 <= length frame)%nat).
      { destruct (Nat.le_gt_cases (2 * Z.to_nat L - 1) (length frame)); [assumption|].
        rewrite differenceLoop_fault in Hd0; [discriminate|].
        exists (Z.to_nat L - 1)%nat. split; [apply in_seq; lia|lia]. }
      destruct (differenceLoop_total frame (Z.to_nat L)
                  (seq 0 (Z.to_nat L)) IEEE.zero) as (d1 & Hd1 & Hl).
      { intros tau Ht. apply in_seq in Ht. lia. }
      rewrite Hd1 in Hd0. injection Hd0 as <-. rewrite Hl, length_seq. lia.
    + unfold rd. cbn. apply (upd_nth_same _ _ _ _ H).
Qed.

(** X21.  [pitchYin] looks at the first 2L-1 samples of the frame only
    (L = framesz/2): on two frames that agree there it does the same.  For
    an even frame size the last sample of the frame is never read. *)
Theorem pitchYin_reads_prefix (y : YIN.t) (frame1 frame2 : list F32.t) :
  let L := Z.to_nat (YIN.framesz y / 2) in
  firstn (2 * L - 1) frame1 = firstn (2 * L - 1) frame2 ->
  YIN.pitchYin y frame1 = YIN.pitchYin y frame2.
Proof.
  intros L H.
  assert (Hn : forall j, (j < 2 * L - 1)%nat -> nth_error frame1 j = nth_error frame2 j).
  { intros j Hj.
    transitivity (nth_error (firstn (2 * L - 1) frame1) j).
    - rewrite nth_error_firstn. destruct (Nat.ltb_spec j (2 * L - 1)); [reflexivity|lia].
    - rewrite H, nth_error_firstn.
      destruct (Nat.ltb_spec j (2 * L - 1)); [reflexivity|lia]. }
  unfold YIN.pitchYin, YIN.cumulativeMeanNormalisedDifferenceFunction. fold L.
  rewrite (differenceLoop_ext frame1 frame2); [reflexivity|].
  intros tau j Ht Hj. apply in_seq in Ht. split; apply Hn; lia.
Qed.

Lemma pitchYin_reads_prefix_witness :
  let frame2 := map F32.of_Z [0; 0; 1; 0; 1; 0; 0; 5] in
  firstn (2 * Z.to_nat (YIN.framesz ExampleYin / 2) - 1) ExampleFrame
  = firstn (2 * Z.to_nat (YIN.framesz ExampleYin / 2) - 1) frame2
  /\ YIN.pitchYin ExampleYin ExampleFrame = YIN.pitchYin ExampleYin frame2.
Proof.
  intro frame2.
  assert (H1 : firstn (2 * Z.to_nat (YIN.framesz ExampleYin / 2) - 1) ExampleFrame
               = firstn (2 * Z.to_nat (YIN.framesz ExampleYin / 2) - 1) frame2)
    by (vm_compute; reflexivity).
  refine (conj H1 _).
  exact (pitchYin_reads_prefix ExampleYin ExampleFrame frame2 H1).
Defined.

Lemma candidateScan_spec (delta : list F32.t) (hi : Z) (n : nat) :
  forall lo minVal minInd p,
    n = Z.to_nat (hi - lo) ->
    30 <= lo ->
    (forall i, 30 <= i < lo ->
       YIN.accepts delta i = Some false
       /\ exists di, rd delta i = Some di /\ IEEE.ltb di minVal = false) ->
    (minInd = 0 /\ minVal = YIN.minVal0
     \/ 30 <= minInd < lo /\ rd delta minInd = Some minVal
        /\ IEEE.ltb minVal YIN.minVal0 = true) ->
    YIN.candidateScan delta (indices lo hi) minVal minInd = Some p ->
    (lo <= p < hi /\ YIN.accepts delta p = Some true
     /\ forall i, 30 <= i < p -> YIN.accepts delta i = Some false)
    \/ ((forall i, 30 <= i < Z.max lo hi -> YIN.accepts delta i = Some false)
        /\ (p = 0
            /\ (forall i, 30 <= i < Z.max lo hi ->
                  exists di, rd delta i = Some di /\ IEEE.ltb di YIN.minVal0 = false)
            \/ 30 <= p < Z.max lo hi
               /\ exists dp, rd delta p = Some dp
                  /\ IEEE.ltb dp YIN.minVal0 = true
                  /\ forall i, 30 <= i < Z.max lo hi ->
                       exists di, rd delta i = Some di /\ IEEE.ltb di dp = false)).
Proof.
  induction n as [|n IH]; intros lo minVal minInd p Hn Hlo Hseen Hmin H.
  - rewrite indices_nil in H by lia. injection H as <-.
    right. replace (Z.max lo hi) with lo by lia.
    split; [intros i Hi; apply Hseen, Hi|].
    destruct Hmin as [(-> & ->)|(Hr & Hd & Hlt)].
    + left. split; [reflexivity|]. intros i Hi. apply Hseen, Hi.
    + right. split; [exact Hr|]. exists minVal. split; [exact Hd|].
      split; [exact Hlt|]. intros i Hi. apply Hseen, Hi.
  - rewrite indices_cons in H by lia. cbn [YIN.candidateScan] in H.
    apply bind_Some in H as (di & Hdi & H).
    assert (Hstep :
      forall i, 30 <= i < lo + 1 ->
        i <> lo \/ YIN.accepts delta lo = Some false ->
        YIN.accepts delta i = Some false
        /\ exists d, rd delta i = Some d
             /\ IEEE.ltb d (if IEEE.ltb di minVal then di else minVal) = false).
    { intros i Hi Hacc. destruct (Z.eq_dec i lo) as [->|Hne].
      - split; [destruct Hacc as [Hx|Hx]; [congruence|exact Hx]|].
        exists di. split; [exact Hdi|].
        destruct (IEEE.ltb di minVal) eqn:E; [apply SFltb_irrefl|exact E].
      - destruct (Hseen i ltac:(lia)) as (Ha & d & Hd & Hlt).
        split; [exact Ha|]. exists d. split; [exact Hd|].
        destruct (IEEE.ltb di minVal) eqn:E; [|exact Hlt].
        destruct (IEEE.ltb d di) eqn:E2; [|reflexivity].
        rewrite <- Hlt. symmetry. unfold IEEE.ltb in *.
        eapply SFltb_trans; eassumption. }
    assert (Hmin' :
      (if IEEE.ltb di minVal then lo else minInd) = 0
      /\ (if IEEE.ltb di minVal then di else minVal) = YIN.minVal0
      \/ 30 <= (if IEEE.ltb di minVal then lo else minInd) < lo + 1
         /\ rd delta (if IEEE.ltb di minVal then lo else minInd)
            = Some (if IEEE.ltb di minVal then di else minVal)
         /\ IEEE.ltb (if IEEE.ltb di minVal then di else minVal) YIN.minVal0 = true).
    { destruct (IEEE.ltb di minVal) eqn:E.
      - right. split; [lia|]. split; [exact Hdi|].
        destruct Hmin as [(_ & ->)|(_ & _ & Hlt)]; [exact E|].
        unfold IEEE.ltb in *. eapply SFltb_trans; eassumption.
      - destruct Hmin as [Hm|(Hr & Hd & Hlt)]; [left; exact Hm|].
        right. split; [lia|]. split; assumption. }
    assert (Hcont :
      YIN.accepts delta lo = Some false ->
      YIN.candidateScan delta (indices (lo + 1) hi)
        (if IEEE.ltb di minVal then di else minVal)
        (if IEEE.ltb di minVal then lo else minInd) = Some p ->
      (lo <= p < hi /\ YIN.accepts delta p = Some true
       /\ forall i, 30 <= i < p -> YIN.accepts delta i = Some false)
      \/ ((forall i, 30 <= i < Z.max lo hi -> YIN.accepts delta i = Some false)
        /\ (p = 0
            /\ (forall i, 30 <= i < Z.max lo hi ->
                  exists di, rd delta i = Some di /\ IEEE.ltb di YIN.minVal0 = false)
            \/ 30 <= p < Z.max lo hi
               /\ exists dp, rd delta p = Some dp
                  /\ IEEE.ltb dp YIN.minVal0 = true
                  /\ forall i, 30 <= i < Z.max lo hi ->
                       exists di, rd delta i = Some di /\ IEEE.ltb di dp = false))).
    { intros Hacc Hrest.
      replace (Z.max lo hi) with (Z.max (lo + 1) hi) by lia.
      destruct (IH (lo + 1) _ _ p ltac:(lia) ltac:(lia)
                  (fun i Hi => Hstep i Hi (or_intror Hacc)) Hmin' Hrest)
        as [(Hp & Ha & Hb)|Hfb]; [left|right; exact Hfb].
      split; [lia|]. split; assumption. }
    destruct (IEEE.ltb di YIN.thresh) eqn:Eth.
    + apply bind_Some in H as (m & Hm & H). destruct m.
      * injection H as <-. left. split; [lia|].
        split; [unfold YIN.accepts; rewrite Hdi; cbn [bind]; rewrite Eth; exact Hm|].
        intros i Hi. apply Hseen, Hi.
      * apply Hcont; [|exact H].
        unfold YIN.accepts. rewrite Hdi. cbn [bind]. rewrite Eth. exact Hm.
    + apply Hcont; [|exact H].
      unfold YIN.accepts. rewrite Hdi. cbn [bind]. rewrite Eth. reflexivity.
Qed.

(** X22.  [getPeriodCandidate] searches the lags from 30 up to, not
    including, the loop bound [lastLag]: framesz/2 - 1 computed in [size_t],
    which is L - 1 (L = framesz/2) for a frame size from 2 on and wraps
    around to the largest [size_t] below that.  (The 30 is the local
    [minPeriod], not the member set by [setMaxFrequency].)  Whenever the
    search returns, it returns the first lag whose difference value is below
    the threshold and a strict local minimum, if there is one.  Otherwise it
    returns a lag whose value is below 100000 and not above the value at any
    other lag of the range, or 0 when no value in the range is below 100000,
    as for every frame with 2 <= framesz and L <= 31. *)
Theorem getPeriodCandidate_spec (y : YIN.t) (delta : list F32.t) (p : Z) :
  let hi := YIN.lastLag y in
  YIN.getPeriodCandidate y delta = Some p ->
  (2 <= YIN.framesz y < 2 ^ 32 -> hi = YIN.framesz y / 2 - 1)
  /\ (0 <= YIN.framesz y < 2 -> hi = 2 ^ 32 - 1)
  /\ ((30 <= p < hi /\ YIN.accepts delta p = Some true
       /\ forall i, 30 <= i < p -> YIN.accepts delta i = Some false)
      \/ ((forall i, 30 <= i < hi -> YIN.accepts delta i = Some false)
          /\ (p = 0
              /\ (forall i, 30 <= i < hi ->
                    exists di, rd delta i = Some di /\ IEEE.ltb di YIN.minVal0 = false)
              \/ 30 <= p < hi
                 /\ exists dp, rd delta p = Some dp
                    /\ IEEE.ltb dp YIN.minVal0 = true
                    /\ forall i, 30 <= i < hi ->
                         exists di, rd delta i = Some di /\ IEEE.ltb di dp = false))).
Proof.
  intros hi H.
  split; [intro Hf; apply lastLag_small; exact Hf|].
  split; [intro Hf; apply lastLag_wraps; exact Hf|].
  rewrite getPeriodCandidate_scan in H. fold hi in H.
  apply (candidateScan_spec delta hi _ 30 _ _ p eq_refl ltac:(lia)) in H.
  - destruct H as [H|(H1 & H2)]; [left; exact H|right].
    split.
    + intros i Hi. apply H1. lia.
    + destruct H2 as [(Hp & Ha)|(Hp & dp & Hd & Hlt & Ha)].
      * left. split; [exact Hp|]. intros i Hi. apply Ha. lia.
      * right. destruct (Z.le_gt_cases hi 30); [lia|].
        split; [lia|]. exists dp. split; [exact Hd|]. split; [exact Hlt|].
        intros i Hi. apply Ha. lia.
  - intros i Hi. lia.
  - left. split; reflexivity.
Qed.

Lemma getPeriodCandidate_spec_witness :
  YIN.getPeriodCandidate ExampleYin80 ExampleDelta80 = Some 33
  /\ YIN.accepts ExampleDelta80 33 = Some true
  /\ forall i, 30 <= i < 33 -> YIN.accepts ExampleDelta80 i = Some false.
Proof.
  assert (H1 : YIN.getPeriodCandidate ExampleYin80 ExampleDelta80 = Some 33)
    by (vm_compute; reflexivity).
  refine (conj H1 _).
  destruct (getPeriodCandidate_spec ExampleYin80 ExampleDelta80 33 H1)
    as (_ & _ & [(_ & Ha & Hb)|(Hn & _)]).
  - exact (conj Ha Hb).
  - exfalso.
    assert (Hx : YIN.accepts ExampleDelta80 33 = Some true) by (vm_compute; reflexivity).
    rewrite Hn in Hx; [discriminate|]. vm_compute. split; [discriminate|reflexivity].
Defined.

(** X23.  [searchForOtherRecentMinima] looks at the three lags around the
    rounded previous estimate.  It returns -1 when none of those that lie
    strictly inside the difference function is a strict local minimum, and
    otherwise the largest of them that is one. *)
Theorem searchForOtherRecentMinima_spec
  (y : YIN.t) (delta : list F32.t) (prevEst r : Z) :
  let L := YIN.framesz y / 2 in
  IEEE.round_half_away (YIN.prevPeriodEstimate y) = Some prevEst ->
  - 2 ^ 31 < prevEst < 2 ^ 31 - 1 ->
  YIN.searchForOtherRecentMinima y delta = Some r ->
  (r = -1
   /\ forall i, prevEst - 1 <= i <= prevEst + 1 -> 0 < i < L - 1 ->
                YIN.isLocalMinimum delta i = Some false)
  \/ (prevEst - 1 <= r <= prevEst + 1
      /\ 0 < r < L - 1
      /\ YIN.isLocalMinimum delta r = Some true
      /\ forall i, r < i <= prevEst + 1 -> 0 < i < L - 1 ->
                   YIN.isLocalMinimum delta i = Some false).
Proof.
  intros L Hround Hrange H.
  destruct (Z.eq_dec prevEst (2 ^ 31 - 2)) as [Hlast|Hne].
  { subst prevEst.
    rewrite (searchForOtherRecentMinima_last_long y delta Hround) in H.
    discriminate. }
  rewrite (searchForOtherRecentMinima_anchor y delta prevEst Hround ltac:(lia)) in H.
  fold L in H. cbn [YIN.searchLoop] in H.
  assert (Hcase : forall i, prevEst - 1 <= i <= prevEst + 1 ->
            i = prevEst - 1 \/ i = prevEst \/ i = prevEst + 1) by (intros; lia).
  destruct (Z.ltb_spec 0 (prevEst - 1)), (Z.ltb_spec (prevEst - 1) (L - 1)),
    (Z.ltb_spec 0 prevEst), (Z.ltb_spec prevEst (L - 1)),
    (Z.ltb_spec 0 (prevEst + 1)), (Z.ltb_spec (prevEst + 1) (L - 1));
    cbn [andb] in H; try lia;
    repeat match type of H with
           | bind (YIN.isLocalMinimum ?d ?i) _ = Some _ =>
               let m := fresh "m" in
               let Hm := fresh "Hm" in
               apply bind_Some in H as (m & Hm & H); destruct m
           end;
    injection H as <-;
    first
      [ left; split; [reflexivity|];
        intros i Hi Hint; destruct (Hcase i Hi) as [->|[->| ->]];
        first [assumption|lia]
      | right; split; [lia|]; split; [lia|]; split; [assumption|];
        intros i Hi Hint;
        assert (Hc : i = prevEst \/ i = prevEst + 1) by lia;
        destruct Hc as [->| ->]; first [assumption|lia] ].
Qed.

Lemma searchForOtherRecentMinima_spec_witness :
  let delta := YIN.delta (fst ExamplePitch) in
  IEEE.round_half_away (YIN.prevPeriodEstimate ExampleYin) = Some 1
  /\ - 2 ^ 31 < 1 < 2 ^ 31 - 1
  /\ YIN.searchForOtherRecentMinima ExampleYin delta = Some 2
  /\ YIN.isLocalMinimum delta 2 = Some true.
Proof.
  intro delta.
  assert (H1 : IEEE.round_half_away (YIN.prevPeriodEstimate ExampleYin) = Some 1)
    by (vm_compute; reflexivity).
  assert (H2 : - 2 ^ 31 < 1 < 2 ^ 31 - 1) by (split; reflexivity).
  assert (H3 : YIN.searchForOtherRecentMinima ExampleYin delta = Some 2)
    by (vm_compute; reflexivity).
  refine (conj H1 (conj H2 (conj H3 _))).
  destruct (searchForOtherRecentMinima_spec ExampleYin delta 1 2 H1 H2 H3)
    as [(Hx & _)|(_ & _ & Hm & _)]; [discriminate|exact Hm].
Defined.

Lemma sumSquaredDifferences_silent (frame : list F32.t) (n tau : nat) (js : list nat) :
  silent frame n ->
  (forall j, In j js -> (j + tau < n)%nat) ->
  YIN.sumSquaredDifferences frame tau js IEEE.zero = Some IEEE.zero.
Proof.
  intro Hs. induction js as [|j js IH]; intro H; cbn [YIN.sumSquaredDifferences];
    [reflexivity|].
  pose proof (H j (or_introl eq_refl)) as Hj.
  destruct (Hs j) as (sa & ->); [lia|].
  destruct (Hs (j + tau)%nat) as (sb & ->); [lia|].
  cbn [bind].
  replace (F32.add IEEE.zero
             (F32.mul (F32.sub (S754_zero sa) (S754_zero sb))
                      (F32.sub (S754_zero sa) (S754_zero sb))))
    with IEEE.zero by (destruct sa, sb; reflexivity).
  apply IH. intros j' Hj'. apply H. right. exact Hj'.
Qed.

Lemma differenceLoop_silent (frame : list F32.t) (n L : nat) (taus : list nat) :
  silent frame n ->
  (forall tau, In tau taus -> (L + tau <= n)%nat) ->
  YIN.differenceLoop frame L taus IEEE.zero = Some (repeat IEEE.zero (length taus)).
Proof.
  intro Hs. induction taus as [|tau taus IH]; intro H; cbn [YIN.differenceLoop];
    [reflexivity|].
  rewrite (sumSquaredDifferences_silent frame n)
    by (try exact Hs; intros j Hj; apply in_seq in Hj;
        specialize (H tau (or_introl eq_refl)); lia).
  cbn [bind]. change (F32.add IEEE.zero IEEE.zero) with IEEE.zero.
  change (IEEE.gtb IEEE.zero IEEE.zero) with false. cbv iota.
  rewrite IH by (intros t Ht; apply H; right; exact Ht).
  reflexivity.
Qed.

(** the difference function of a silent frame *)
Lemma differenceFunction_silent (y : YIN.t) (frame : list F32.t) :
  let L := Z.to_nat (YIN.framesz y / 2) in
  (1 <= L)%nat ->
  silent frame (2 * L - 1) ->
  YIN.cumulativeMeanNormalisedDifferenceFunction y frame
  = Some (F32.of_Z 1 :: repeat IEEE.zero (L - 1)).
Proof.
  intros L HL Hs. unfold YIN.cumulativeMeanNormalisedDifferenceFunction. fold L.
  rewrite (differenceLoop_silent frame (2 * L - 1))
    by (try exact Hs; intros tau Ht; apply in_seq in Ht; lia).
  rewrite length_seq. cbn [bind].
  destruct L as [|L']; [lia|]. simpl. rewrite Nat.sub_0_r. reflexivity.
Qed.

Lemma rd_silent_delta (k : nat) (i : Z) :
  1 <= i <= Z.of_nat k ->
  rd (F32.of_Z 1 :: repeat IEEE.zero k) i = Some IEEE.zero.
Proof.
  intro Hi. unfold rd. destruct (Z.ltb_spec i 0); [lia|].
  replace (Z.to_nat i) with (S (Z.to_nat (i - 1))) by lia. cbn [nth_error].
  destruct (nth_error_Some_ex (repeat IEEE.zero k) (Z.to_nat (i - 1))) as (x & Hx);
    [rewrite repeat_length; lia|].
  unfold F32.t in *. rewrite Hx. apply nth_error_In, repeat_spec in Hx.
  rewrite Hx. reflexivity.
Qed.

Lemma isLocalMinimum_silent (k : nat) (i : Z) :
  1 <= i < Z.of_nat k ->
  YIN.isLocalMinimum (F32.of_Z 1 :: repeat IEEE.zero k) i = Some false.
Proof.
  intro Hi. unfold YIN.isLocalMinimum.
  rewrite rd_silent_delta by lia. cbn [bind].
  destruct (Z.eq_dec i 1) as [->|Hne].
  - change (rd (F32.of_Z 1 :: repeat IEEE.zero k) (1 - 1)) with (Some (F32.of_Z 1)).
    cbn [bind]. change (IEEE.ltb IEEE.zero (F32.of_Z 1)) with true. cbv iota.
    rewrite rd_silent_delta by lia. reflexivity.
  - rewrite rd_silent_delta by lia. reflexivity.
Qed.

Lemma searchLoop_silent (k : nat) (half : Z) (cands : list Z) :
  half <= Z.of_nat k + 1 ->
  YIN.searchLoop (F32.of_Z 1 :: repeat IEEE.zero k) half cands (-1) = Some (-1).
Proof.
  intro Hh. induction cands as [|i cands IH]; cbn [YIN.searchLoop]; [reflexivity|].
  destruct (Z.ltb_spec 0 i); destruct (Z.ltb_spec i (half - 1)); cbn [andb];
    try exact IH.
  rewrite isLocalMinimum_silent by lia. cbn [bind]. exact IH.
Qed.

Lemma candidateScan_silent (k : nat) (cands : list Z) :
  (forall i, In i cands -> 2 <= i < Z.of_nat k) ->
  YIN.candidateScan (F32.of_Z 1 :: repeat IEEE.zero k) cands IEEE.zero 30 = Some 30.
Proof.
  induction cands as [|i cands IH]; intro H; cbn [YIN.candidateScan]; [reflexivity|].
  pose proof (H i (or_introl eq_refl)) as Hi.
  rewrite rd_silent_delta by lia. cbn [bind].
  change (IEEE.ltb IEEE.zero IEEE.zero) with false. cbv iota.
  change (IEEE.ltb IEEE.zero YIN.thresh) with true. cbv iota.
  rewrite isLocalMinimum_silent by lia. cbn [bind].
  apply IH. intros j Hj. apply H. right. exact Hj.
Qed.

Lemma half_bounds (y : YIN.t) :
  1 <= YIN.framesz y / 2 -> 2 <= YIN.framesz y.
Proof.
  intro H. destruct (Z.lt_ge_cases (YIN.framesz y) 2) as [Hlt|Hge]; [|exact Hge].
  pose proof (Z.div_lt_upper_bound (YIN.framesz y) 2 1 ltac:(lia) ltac:(lia)). lia.
Qed.

Lemma getPeriodCandidate_silent (y : YIN.t) (k : nat) :
  YIN.framesz y < 2 ^ 32 ->
  Z.of_nat k + 1 = YIN.framesz y / 2 ->
  YIN.getPeriodCandidate y (F32.of_Z 1 :: repeat IEEE.zero k)
  = Some (if 31 <? YIN.framesz y / 2 then 30 else 0).
Proof.
  intros Hsz Hk. rewrite getPeriodCandidate_scan.
  rewrite lastLag_small by (split; [apply half_bounds; lia|exact Hsz]).
  destruct (Z.ltb_spec 31 (YIN.framesz y / 2)) as [HL|HL].
  - rewrite indices_cons by lia. cbn [YIN.candidateScan].
    rewrite rd_silent_delta by lia. cbn [bind].
    change (IEEE.ltb IEEE.zero YIN.minVal0) with true. cbv iota.
    change (IEEE.ltb IEEE.zero YIN.thresh) with true. cbv iota.
    rewrite isLocalMinimum_silent by lia. cbn [bind].
    apply candidateScan_silent. intros i Hi. apply In_indices in Hi. lia.
  - rewrite indices_nil by lia. reflexivity.
Qed.

(** X24.  The pitch of silence.  On a frame whose first 2L-1 samples are
    zeros (L = framesz/2 >= 1, the frame size a [size_t]) the difference
    function is 1, 0, 0, ...; no lag is a strict local minimum, so the search
    falls back to the first lag of its range: [pitchYin] returns fs/30 and
    stores the period 30 when L > 31, and returns fs/0 and stores the period
    0 otherwise.  This holds from every stored estimate that rounds to a
    [long] with room for the loop counter of [searchForOtherRecentMinima],
    which runs from prevEst-1 up to prevEst+2.  From any other stored
    estimate (a NaN, an infinity, a value whose rounding is not a [long] or
    leaves no room for the counter) the call has no defined result: the
    conversion to [long] or the loop counter overflows. *)
Theorem pitchYin_silence (y : YIN.t) (frame : list F32.t) :
  let L := YIN.framesz y / 2 in
  let period := if 31 <? L then 30 else 0 in
  1 <= L ->
  YIN.framesz y < 2 ^ 32 ->
  silent frame (Z.to_nat (2 * L - 1)) ->
  (forall prevEst,
     IEEE.round_half_away (YIN.prevPeriodEstimate y) = Some prevEst ->
     - 2 ^ 31 < prevEst < 2 ^ 31 - 2 ->
     YIN.pitchYin y frame
     = Some (YIN.mk (F32.of_Z period) (YIN.fs y) (YIN.framesz y)
                    (F32.of_Z 1 :: repeat IEEE.zero (Z.to_nat L - 1)),
             F32.div (F32.of_Z (YIN.fs y)) (F32.of_Z period)))
  /\ ((forall prevEst,
         IEEE.round_half_away (YIN.prevPeriodEstimate y) = Some prevEst ->
         ~ - 2 ^ 31 < prevEst < 2 ^ 31 - 2) ->
      YIN.pitchYin y frame = None).
Proof.
  intros L period HL Hsz Hs.
  assert (Hd : YIN.cumulativeMeanNormalisedDifferenceFunction y frame
               = Some (F32.of_Z 1 :: repeat IEEE.zero (Z.to_nat L - 1))).
  { apply differenceFunction_silent; fold L; [lia|].
    replace (2 * Z.to_nat L - 1)%nat with (Z.to_nat (2 * L - 1)) by lia. exact Hs. }
  split.
  - intros prevEst Hround Hrange. unfold YIN.pitchYin. rewrite Hd.
    cbn [bind]. set (k := (Z.to_nat L - 1)%nat).
    assert (Hk : Z.of_nat k + 1 = L) by lia.
    unfold YIN.choosePeriod.
    rewrite (searchForOtherRecentMinima_anchor y _ prevEst Hround Hrange). fold L.
    rewrite searchLoop_silent by lia. cbn [bind].
    change (-1 =? -1) with true. cbv iota.
    rewrite (getPeriodCandidate_silent y k Hsz Hk). fold L period. cbn [bind].
    unfold YIN.refine, YIN.periodToPitch.
    rewrite lastLag_small by (split; [apply half_bounds; exact HL|exact Hsz]).
    fold L. subst period.
    destruct (Z.ltb_spec 31 L) as [H31|H31].
    + destruct (Z.ltb_spec 30 (L - 1)); [|lia].
      change (0 <? 30) with true. cbn [andb].
      rewrite !rd_silent_delta by lia. cbn [bind]. reflexivity.
    + reflexivity.
  - intro Hout. unfold YIN.pitchYin. rewrite Hd. cbn [bind].
    unfold YIN.choosePeriod, YIN.searchForOtherRecentMinima, YIN.roundToLong.
    destruct (IEEE.round_half_away (YIN.prevPeriodEstimate y)) as [z|];
      [|reflexivity].
    specialize (Hout z eq_refl). cbn [bind]. unfold IEEE.in_range.
    destruct (Z.leb_spec (- 2 ^ 31) z); [|reflexivity].
    destruct (Z.leb_spec z (2 ^ 31 - 1)); [|reflexivity].
    cbn [andb bind].
    destruct (Z.leb_spec (- 2 ^ 31) (z - 1)); [|reflexivity].
    destruct (Z.leb_spec (z - 1) (2 ^ 31 - 1)); [|lia].
    cbn [andb bind].
    destruct (Z.leb_spec (- 2 ^ 31) (z + 1)); [|lia].
    destruct (Z.leb_spec (z + 1) (2 ^ 31 - 1)); [|reflexivity].
    cbn [andb bind].
    destruct (Z.leb_spec (- 2 ^ 31) (z + 2)); [|lia].
    destruct (Z.leb_spec (z + 2) (2 ^ 31 - 1)); [|reflexivity].
    lia.
Qed.

Lemma silent_repeat (n : nat) : silent (repeat IEEE.zero n) n.
Proof.
  intros j Hj. exists false. unfold F32.t.
  destruct (nth_error_Some_ex (repeat IEEE.zero n) j) as (x & Hx);
    [rewrite repeat_length; lia|].
  rewrite Hx. apply nth_error_In, repeat_spec in Hx. rewrite Hx. reflexivity.
Qed.

Lemma pitchYin_silence_witness :
  let frame := repeat IEEE.zero 79 in
  1 <= YIN.framesz ExampleYin80 / 2
  /\ YIN.framesz ExampleYin80 < 2 ^ 32
  /\ silent frame (Z.to_nat (2 * (YIN.framesz ExampleYin80 / 2) - 1))
  /\ IEEE.round_half_away (YIN.prevPeriodEstimate ExampleYin80) = Some 1
  /\ - 2 ^ 31 < 1 < 2 ^ 31 - 2
  /\ YIN.pitchYin ExampleYin80 frame
     = Some (YIN.mk (F32.of_Z 30) 8000 80 (F32.of_Z 1 :: repeat IEEE.zero 39),
             F32.div (F32.of_Z 8000) (F32.of_Z 30)).
Proof.
  intro frame.
  assert (H1 : 1 <= YIN.framesz ExampleYin80 / 2) by (vm_compute; discriminate).
  assert (H0 : YIN.framesz ExampleYin80 < 2 ^ 32) by reflexivity.
  assert (H2 : silent frame (Z.to_nat (2 * (YIN.framesz ExampleYin80 / 2) - 1)))
    by (apply (silent_repeat 79)).
  assert (H3 : IEEE.round_half_away (YIN.prevPeriodEstimate ExampleYin80) = Some 1)
    by (vm_compute; reflexivity).
  assert (H4 : - 2 ^ 31 < 1 < 2 ^ 31 - 2) by (split; reflexivity).
  refine (conj H1 (conj H0 (conj H2 (conj H3 (conj H4 _))))).
  exact (proj1 (pitchYin_silence ExampleYin80 frame H1 H0 H2) 1 H3 H4).
Defined.

(** ** Copying the samples: getPitch and doFft *)

Section Copy.
Variable T : Type.
Variable toFloat : T -> F32.t.

Lemma copyLoop_nth (Signal : list T) (n : nat) :
  forall i buf buf',
    copyLoop T toFloat Signal n i buf = Some buf' ->
    (n <> O -> (i + n <= length Signal)%nat /\ (i + n <= length buf)%nat)
    /\ length buf' = length buf
    /\ forall j, nth_error buf' j
                 = if ((i <=? j) && (j <? i + n))%nat
                   then option_map toFloat (nth_error Signal j)
                   else nth_error buf j.
Proof.
  induction n as [|n IH]; intros i buf buf' H; cbn [copyLoop] in H.
  - injection H as <-. split; [congruence|]. split; [reflexivity|].
    intro j. destruct (Nat.leb_spec i j), (Nat.ltb_spec j (i + 0)); simpl;
      try reflexivity; lia.
  - apply bind_Some in H as (s & Hs & H).
    apply bind_Some in H as (buf1 & Hu & H).
    pose proof (upd_nth_length _ _ _ _ Hu) as Hl1.
    apply IH in H as (Hb & Hl & Hnth).
    assert (Hi1 : (i < length Signal)%nat) by (apply nth_error_Some; congruence).
    assert (Hi2 : (i < length buf)%nat).
    { destruct (Nat.lt_ge_cases i (length buf)) as [|Hge]; [assumption|].
      rewrite <- Hl1 in Hge. apply nth_error_None in Hge.
      rewrite (upd_nth_same _ _ _ _ Hu) in Hge. discriminate. }
    split; [|split; [congruence|]].
    + intros _. destruct n as [|n]; [lia|].
      destruct Hb as [H1 H2]; [discriminate|]. lia.
    + intro j. rewrite Hnth.
      destruct (Nat.eq_dec i j) as [<-|Hij].
      * rewrite (upd_nth_same _ _ _ _ Hu), Hs.
        destruct (Nat.leb_spec (S i) i); [lia|].
        destruct (Nat.leb_spec i i); [|lia].
        destruct (Nat.ltb_spec i (i + S n)); [|lia]. reflexivity.
      * rewrite (upd_nth_other _ _ _ _ _ Hu Hij).
        destruct (Nat.leb_spec (S i) j), (Nat.leb_spec i j),
          (Nat.ltb_spec j (S i + n)), (Nat.ltb_spec j (i + S n));
          simpl; try reflexivity; lia.
Qed.

Lemma copyLoop_result (Signal : list T) (n : nat) (buf buf' : list F32.t) :
  copyLoop T toFloat Signal n 0 buf = Some buf' ->
  (n <> O -> (n <= length Signal)%nat /\ (n <= length buf)%nat)
  /\ buf' = map toFloat (firstn n Signal) ++ skipn n buf.
Proof.
  intro H. apply copyLoop_nth in H as (Hb & Hl & Hnth).
  split; [exact Hb|].
  destruct n as [|n]; [apply nth_error_ext; intro j; rewrite Hnth; reflexivity|].
  destruct Hb as [H1 H2]; [discriminate|]. cbn [Nat.add] in H1, H2.
  apply nth_error_ext; intro j. rewrite Hnth.
  assert (Hlen : length (map toFloat (firstn (S n) Signal)) = S n)
    by (rewrite length_map, length_firstn; lia).
  cbn [Nat.leb andb Nat.add].
  destruct (Nat.ltb_spec j (S n)) as [Hj|Hj].
  - rewrite nth_error_app1 by lia.
    rewrite nth_error_map, nth_error_firstn.
    destruct (Nat.ltb_spec j (S n)); [reflexivity|lia].
  - rewrite nth_error_app2 by lia.
    rewrite Hlen, nth_error_skipn. f_equal. lia.
Qed.

(** X25.  [getPitch] converts the first [fftlength] samples into the
    engine's signal buffer and runs [pitchYin] of the engine's estimator on
    that buffer.  When it returns, there were at least [fftlength] samples
    and a buffer of at least that size; the returned pitch is the sample rate
    of the estimator divided by the period that the estimator keeps for its
    next call; and spectrum, features and configuration are untouched. *)
Theorem getPitch_spec (a a' : Analyzer) (Signal : list T) (pitch : F32.t) :
  let n := Z.to_nat (fftlength (Config a)) in
  getPitch T toFloat a Signal = Some (a', pitch) ->
  exists sad buf yad y y',
    signal a = Some (sad, buf)
    /\ yin a = Some (yad, y)
    /\ (n <> O -> (n <= length Signal)%nat /\ (n <= length buf)%nat)
    /\ signal a' = Some (sad, map toFloat (firstn n Signal) ++ skipn n buf)
    /\ YIN.pitchYin y (map toFloat (firstn n Signal) ++ skipn n buf)
       = Some (y', pitch)
    /\ yin a' = Some (yad, y')
    /\ pitch = F32.div (F32.of_Z (YIN.fs y)) (YIN.prevPeriodEstimate y')
    /\ spectrum a' = spectrum a /\ Features a' = Features a
    /\ Config a' = Config a.
Proof.
  intros n H. unfold getPitch in H. fold n in H.
  apply bind_Some in H as ([sad buf] & Hs & H).
  apply bind_Some in H as (buf' & Hc & H).
  apply bind_Some in H as ([yad y] & Hy & H).
  apply bind_Some in H as ([y' p] & Hp & H).
  injection H as <- <-.
  apply copyLoop_result in Hc as (Hb & ->).
  exists sad, buf, yad, y, y'. cbn.
  repeat (split; [first [assumption|reflexivity]|]).
  split.
  - unfold YIN.pitchYin in Hp.
    apply bind_Some in Hp as (d & _ & Hp).
    apply bind_Some in Hp as (per & _ & Hp).
    apply bind_Some in Hp as (f & _ & Hp).
    injection Hp as <- <-. reflexivity.
  - repeat split.
Qed.

Section Transform.
Variables hammingWindow removeDC execute complexToMagnitude :
  ESP_fft.t -> list F32.t * list F32.t -> list F32.t * list F32.t.
Variables majorPeakFreq majorPeak :
  ESP_fft.t -> list F32.t * list F32.t -> F32.t.

(** X26.  [doFft], whatever the external transform does to the two
    buffers: when it returns, there were at least [fftlength] samples; with
    [removeDC] the spectrum buffer ends with bin 0 equal to 0; of the cached
    features only the peak frequency and the peak magnitude have been
    written; and the engine holds the same objects, configuration and
    signature as before. *)
Theorem doFft_spec (a a' : Analyzer) (Signal : list T) (dc : bool) :
  let n := Z.to_nat (fftlength (Config a)) in
  doFft T toFloat hammingWindow removeDC execute complexToMagnitude
        majorPeakFreq majorPeak a Signal dc = Some a' ->
  (n <> O -> (n <= length Signal)%nat)
  /\ (dc = true ->
      exists ad s, spectrum a' = Some (ad, s) /\ rd s 0 = Some IEEE.zero)
  /\ (forall f, f <> Fpeakfreq -> f <> Fpeakmag -> Features a' f = Features a f)
  /\ owned a' = owned a
  /\ Config a' = Config a
  /\ Signature a' = Signature a.
Proof.
  intros n H. unfold doFft in H. fold n in H.
  apply bind_Some in H as ([sad buf] & Hs & H).
  apply bind_Some in H as (buf' & Hc & H).
  apply bind_Some in H as ([fad fft] & Hf & H).
  apply bind_Some in H as ([pad spec] & Hp & H).
  apply bind_Some in H as (spec' & Hw & H).
  injection H as <-. cbn [spectrum Features Config Signature].
  apply copyLoop_result in Hc as (Hb & _).
  split; [intro Hn; apply Hb, Hn|].
  split.
  - intros ->. exists pad, spec'. split; [reflexivity|].
    apply (rd_wr_same _ _ _ _ Hw).
  - split.
    + intros f H1 H2. unfold setFeature.
      destruct f; try reflexivity; congruence.
    + split; [|split; reflexivity].
      unfold owned. cbn [signal spectrum Signature FFT mfcc yin].
      rewrite Hs, Hp. reflexivity.
Qed.

End Transform.
End Copy.

Lemma getPitch_spec_witness :
  getPitch Z F32.of_Z (snd Example8) ExampleSamples
  = Some (fst ExampleGetPitch, snd ExampleGetPitch)
  /\ snd ExampleGetPitch = S754_finite false 11289600 (-9)
  /\ exists sad buf yad y y',
       signal (snd Example8) = Some (sad, buf)
       /\ yin (snd Example8) = Some (yad, y)
       /\ yin (fst ExampleGetPitch) = Some (yad, y')
       /\ snd ExampleGetPitch
          = F32.div (F32.of_Z (YIN.fs y)) (YIN.prevPeriodEstimate y').
Proof.
  assert (H1 : getPitch Z F32.of_Z (snd Example8) ExampleSamples
               = Some (fst ExampleGetPitch, snd ExampleGetPitch))
    by (vm_compute; reflexivity).
  refine (conj H1 (conj _ _)); [vm_compute; reflexivity|].
  destruct (getPitch_spec Z F32.of_Z (snd Example8) _ ExampleSamples _ H1)
    as (sad & buf & yad & y & y' & Hs & Hy & _ & _ & _ & Hy' & Hp & _).
  exists sad, buf, yad, y, y'. exact (conj Hs (conj Hy (conj Hy' Hp))).
Defined.

Lemma doFft_spec_witness :
  let same := fun (_ : ESP_fft.t) (b : list F32.t * list F32.t) => b in
  let none := fun (_ : ESP_fft.t) (_ : list F32.t * list F32.t) => IEEE.zero in
  doFft Z F32.of_Z same same same same none none (snd Example8) ExampleSamples true
  = Some ExampleDoFft
  /\ exists ad s, spectrum ExampleDoFft = Some (ad, s) /\ rd s 0 = Some IEEE.zero.
Proof.
  intros same none.
  assert (H1 : doFft Z F32.of_Z same same same same none none (snd Example8)
                     ExampleSamples true = Some ExampleDoFft)
    by (vm_compute; reflexivity).
  refine (conj H1 _).
  exact (proj1 (proj2 (doFft_spec Z F32.of_Z same same same same none none
                         (snd Example8) ExampleDoFft ExampleSamples true H1))
           eq_refl).
Defined.

(** ** MFCC.h: the computation on one frame *)

Section MelCepstrum.
Import MFCC_h.
Variables logf cosf : F32.t -> F32.t.

Lemma melCoefficient_total (spectrum : list F32.t) (bank : list (list F32.t))
      (i : nat) (row : list F32.t) (js : list nat) :
  nth_error bank i = Some row ->
  (forall j, In j js -> (j < length spectrum)%nat /\ (j < length row)%nat) ->
  forall coeff, exists c, melCoefficient spectrum bank i js coeff = Some c.
Proof.
  intros Hrow. induction js as [|j js IH]; intros H coeff; cbn [melCoefficient];
    [eauto|].
  destruct (H j (or_introl eq_refl)) as [H1 H2].
  destruct (nth_error_Some_ex spectrum j H1) as (m & ->). cbn [bind].
  rewrite Hrow. cbn [bind].
  destruct (nth_error_Some_ex row j H2) as (w & ->). cbn [bind].
  apply IH. intros j' Hj'. apply H. right. exact Hj'.
Qed.

Lemma melCoefficient_fault (spectrum : list F32.t) (bank : list (list F32.t))
      (i : nat) (js : list nat) :
  (exists j, In j js /\ (length spectrum <= j)%nat) ->
  forall coeff, melCoefficient spectrum bank i js coeff = None.
Proof.
  induction js as [|j js IH]; intros (j0 & Hin & Hlen) coeff; [destruct Hin|].
  cbn [melCoefficient].
  destruct (nth_error spectrum j) eqn:E1; [cbn [bind]|reflexivity].
  destruct (nth_error bank i); [cbn [bind]|reflexivity].
  destruct (nth_error l j); [cbn [bind]|reflexivity].
  destruct Hin as [<-|Hin].
  - apply nth_error_None in Hlen. congruence.
  - apply IH. eauto.
Qed.

Lemma melLoop_total (spectrum : list F32.t) (bank : list (list F32.t))
      (size : nat) (idxs : list nat) :
  (size <= length spectrum)%nat ->
  (forall row, In row bank -> length row = size) ->
  forall mel,
    (forall i, In i idxs -> (i < length bank)%nat /\ (i < length mel)%nat) ->
    exists mel', melLoop spectrum bank size idxs mel = Some mel'
                 /\ length mel' = length mel.
Proof.
  intros Hs Hrows. induction idxs as [|i idxs IH]; intros mel H; cbn [melLoop];
    [eauto|].
  destruct (H i (or_introl eq_refl)) as [H1 H2].
  destruct (nth_error_Some_ex bank i H1) as (row & Hrow).
  destruct (melCoefficient_total spectrum bank i row (seq 0 size) Hrow) with
    (coeff := IEEE.zero) as (c & ->).
  { intros j Hj. apply in_seq in Hj.
    rewrite (Hrows row (nth_error_In _ _ Hrow)). lia. }
  cbn [bind].
  destruct (upd_nth_In_range i (F32.of_double c) mel H2) as (mel1 & Hu).
  rewrite Hu. cbn [bind].
  pose proof (upd_nth_length _ _ _ _ Hu) as Hl.
  destruct (IH mel1) as (mel' & -> & Hl').
  { intros i' Hi'. rewrite Hl. apply H. right. exact Hi'. }
  exists mel'. split; [reflexivity|congruence].
Qed.

Lemma melLoop_length (spectrum : list F32.t) (bank : list (list F32.t))
      (size : nat) (idxs : list nat) :
  forall mel mel', melLoop spectrum bank size idxs mel = Some mel' ->
                   length mel' = length mel.
Proof.
  induction idxs as [|i idxs IH]; intros mel mel' H; cbn [melLoop] in H.
  - injection H as <-. reflexivity.
  - apply bind_Some in H as (c & _ & H). apply bind_Some in H as (mel1 & Hu & H).
    rewrite (IH _ _ H). apply (upd_nth_length _ _ _ _ Hu).
Qed.

Lemma written (A : Type) (v : A) (n : nat) (l : list A) :
  length l = n ->
  (forall j, (j < n)%nat -> nth_error l j = Some v) ->
  l = repeat v n.
Proof.
  intros Hl H. apply nth_error_ext. intro j.
  destruct (Nat.lt_ge_cases j n) as [Hj|Hj].
  - rewrite (H j Hj).
    destruct (nth_error_Some_ex (repeat v n) j) as (x & Hx);
      [rewrite repeat_length; exact Hj|].
    rewrite Hx. apply nth_error_In, repeat_spec in Hx. congruence.
  - rewrite (proj2 (nth_error_None l j)) by lia.
    symmetry. apply nth_error_None. rewrite repeat_length. exact Hj.
Qed.

Lemma melCoefficient_silent (spectrum : list F32.t) (bank : list (list F32.t))
      (i : nat) (row : list F32.t) (js : list nat) :
  nth_error bank i = Some row ->
  (forall w, In w row -> w <> S754_nan /\ forall s, w <> S754_infinity s) ->
  (forall j, In j js ->
     (exists s, nth_error spectrum j = Some (S754_zero s)) /\ (j < length row)%nat) ->
  melCoefficient spectrum bank i js IEEE.zero = Some IEEE.zero.
Proof.
  intros Hrow Hfin. induction js as [|j js IH]; intro H; cbn [melCoefficient];
    [reflexivity|].
  destruct (H j (or_introl eq_refl)) as [(s & ->) H2]. cbn [bind].
  rewrite Hrow. cbn [bind].
  destruct (nth_error_Some_ex row j H2) as (w & Hw). rewrite Hw. cbn [bind].
  destruct (Hfin w (nth_error_In _ _ Hw)) as [Hnan Hinf].
  replace (F64.add IEEE.zero
             (F64.of_float (F32.mul (F32.mul (S754_zero s) (S754_zero s)) w)))
    with IEEE.zero.
  - apply IH. intros j' Hj'. apply H. right. exact Hj'.
  - destruct w as [sw|sw| |sw mw ew].
    + destruct s, sw; reflexivity.
    + exfalso. apply (Hinf sw). reflexivity.
    + congruence.
    + destruct s, sw; reflexivity.
Qed.

Lemma melLoop_silent (spectrum : list F32.t) (bank : list (list F32.t))
      (size : nat) (idxs : list nat) :
  (forall row w, In row bank -> In w row ->
                 w <> S754_nan /\ forall s, w <> S754_infinity s) ->
  (forall row, In row bank -> length row = size) ->
  (forall j, (j < size)%nat -> exists s, nth_error spectrum j = Some (S754_zero s)) ->
  forall mel,
    (forall i, In i idxs -> (i < length bank)%nat /\ (i < length mel)%nat) ->
    exists mel',
      melLoop spectrum bank size idxs mel = Some mel'
      /\ length mel' = length mel
      /\ forall j, nth_error mel' j
                   = if in_dec Nat.eq_dec j idxs then Some IEEE.zero
                     else nth_error mel j.
Proof.
  intros Hfin Hrows Hs. induction idxs as [|i idxs IH]; intros mel H;
    cbn [melLoop].
  - exists mel. repeat split. 
  - destruct (H i (or_introl eq_refl)) as [H1 H2].
    destruct (nth_error_Some_ex bank i H1) as (row & Hrow).
    pose proof (nth_error_In _ _ Hrow) as Hin.
    rewrite (melCoefficient_silent spectrum bank i row (seq 0 size) Hrow
               (fun w => Hfin row w Hin)).
    2:{ intros j Hj. apply in_seq in Hj. split; [apply Hs; lia|].
        rewrite (Hrows row Hin). lia. }
    cbn [bind].
    match goal with |- context [upd_nth i ?v mel] =>
      destruct (upd_nth_In_range i v mel H2) as (mel1 & Hu); rewrite Hu end.
    cbn [bind]. pose proof (upd_nth_length _ _ _ _ Hu) as Hl.
    destruct (IH mel1) as (mel' & -> & Hl' & Hnth).
    { intros i' Hi'. rewrite Hl. apply H. right. exact Hi'. }
    exists mel'. split; [reflexivity|]. split; [congruence|].
    intro j. rewrite Hnth.
    destruct (in_dec Nat.eq_dec j idxs) as [Hj|Hj];
      destruct (in_dec Nat.eq_dec j (i :: idxs)) as [Hj'|Hj']; try reflexivity.
    + exfalso. apply Hj'. right. exact Hj.
    + destruct Hj' as [<-|Hj']; [|contradiction].
      apply (upd_nth_same _ _ _ _ Hu).
    + apply (upd_nth_other _ _ _ _ _ Hu). intros ->. apply Hj'. left. reflexivity.
Qed.


Lemma logLoop_length (mel : list F32.t) (idxs : list nat) :
  forall out out', logLoop logf mel idxs out = Some out' -> length out' = length out.
Proof.
  induction idxs as [|i idxs IH]; intros out out' H; cbn [logLoop] in H.
  - injection H as <-. reflexivity.
  - apply bind_Some in H as (e & _ & H). apply bind_Some in H as (out1 & Hu & H).
    rewrite (IH _ _ H). apply (upd_nth_length _ _ _ _ Hu).
Qed.

Lemma copyIn_length (src : list F32.t) (idxs : list nat) :
  forall dst dst', copyIn src idxs dst = Some dst' -> length dst' = length dst.
Proof.
  induction idxs as [|i idxs IH]; intros dst dst' H; cbn [copyIn] in H.
  - injection H as <-. reflexivity.
  - apply bind_Some in H as (e & _ & H). apply bind_Some in H as (dst1 & Hu & H).
    rewrite (IH _ _ H). apply (upd_nth_length _ _ _ _ Hu).
Qed.

Lemma cosineLoop_length (dct : list F32.t) (piOverN : F32.t) (count : nat)
      (ks : list nat) :
  forall out out', cosineLoop cosf dct piOverN count ks out = Some out' ->
                   length out' = length out.
Proof.
  induction ks as [|k ks IH]; intros out out' H; cbn [cosineLoop] in H.
  - injection H as <-. reflexivity.
  - apply bind_Some in H as (e & _ & H). apply bind_Some in H as (out1 & Hu & H).
    rewrite (IH _ _ H). apply (upd_nth_length _ _ _ _ Hu).
Qed.

Lemma logLoop_total (mel : list F32.t) (idxs : list nat) :
  forall out,
    (forall i, In i idxs -> (i < length mel)%nat /\ (i < length out)%nat) ->
    exists out', logLoop logf mel idxs out = Some out' /\ length out' = length out.
Proof.
  induction idxs as [|i idxs IH]; intros out H; cbn [logLoop]; [eauto|].
  destruct (H i (or_introl eq_refl)) as [H1 H2].
  destruct (nth_error_Some_ex mel i H1) as (e & ->). cbn [bind].
  match goal with |- context [upd_nth i ?v out] =>
    destruct (upd_nth_In_range i v out H2) as (out1 & Hu); rewrite Hu end.
  cbn [bind]. pose proof (upd_nth_length _ _ _ _ Hu) as Hl.
  destruct (IH out1) as (out' & -> & Hl').
  { intros i' Hi'. rewrite Hl. apply H. right. exact Hi'. }
  exists out'. split; [reflexivity|congruence].
Qed.

Lemma copyIn_total (src : list F32.t) (idxs : list nat) :
  forall dst,
    (forall i, In i idxs -> (i < length src)%nat /\ (i < length dst)%nat) ->
    exists dst', copyIn src idxs dst = Some dst' /\ length dst' = length dst.
Proof.
  induction idxs as [|i idxs IH]; intros dst H; cbn [copyIn]; [eauto|].
  destruct (H i (or_introl eq_refl)) as [H1 H2].
  destruct (nth_error_Some_ex src i H1) as (e & ->). cbn [bind].
  destruct (upd_nth_In_range i e dst H2) as (dst1 & Hu). rewrite Hu.
  cbn [bind]. pose proof (upd_nth_length _ _ _ _ Hu) as Hl.
  destruct (IH dst1) as (dst' & -> & Hl').
  { intros i' Hi'. rewrite Hl. apply H. right. exact Hi'. }
  exists dst'. split; [reflexivity|congruence].
Qed.

Lemma cosineSum_total (dct : list F32.t) (piOverN kVal : F32.t) (ns : list nat) :
  (forall n, In n ns -> (n < length dct)%nat) ->
  forall sum, exists s, cosineSum cosf dct piOverN kVal ns sum = Some s.
Proof.
  induction ns as [|n ns IH]; intros H sum; cbn [cosineSum]; [eauto|].
  destruct (nth_error_Some_ex dct n (H n (or_introl eq_refl))) as (x & ->).
  cbn [bind]. apply IH. intros n' Hn'. apply H. right. exact Hn'.
Qed.

Lemma cosineLoop_total (dct : list F32.t) (piOverN : F32.t) (count : nat)
      (ks : list nat) :
  (count <= length dct)%nat ->
  forall out,
    (forall k, In k ks -> (k < length out)%nat) ->
    exists out', cosineLoop cosf dct piOverN count ks out = Some out'
                 /\ length out' = length out.
Proof.
  intro Hc. induction ks as [|k ks IH]; intros out H; cbn [cosineLoop]; [eauto|].
  destruct (cosineSum_total dct piOverN (F32.of_Z (Z.of_nat k)) (seq 0 count))
    with (sum := IEEE.zero) as (s & ->).
  { intros n Hn. apply in_seq in Hn. lia. }
  cbn [bind].
  match goal with |- context [upd_nth k ?v out] =>
    destruct (upd_nth_In_range k v out (H k (or_introl eq_refl))) as (out1 & Hu);
    rewrite Hu end.
  cbn [bind]. pose proof (upd_nth_length _ _ _ _ Hu) as Hl.
  destruct (IH out1) as (out' & -> & Hl').
  { intros k' Hk'. rewrite Hl. apply H. right. exact Hk'. }
  exists out'. split; [reflexivity|congruence].
Qed.

(** X29.  The MFCC computation on a frame, for an object with arrays of the
    sizes its constructor allocates: it completes exactly when there are no
    coefficients or the magnitude spectrum has at least
    [magnitudeSpectrumSize] bins (every one of them is read, bin 0
    included; a shorter array is read past its end), and it leaves a
    well-formed object with the same filter bank. *)
Theorem calculateMelFrequencyCepstralCoefficients_defined
  (o : t) (magnitudeSpectrum : list F32.t) :
  wellFormed o ->
  (calculateMelFrequencyCepstralCoefficients logf cosf o magnitudeSpectrum <> None
   <-> numCoefficents o = 0
       \/ magnitudeSpectrumSize o <= Z.of_nat (length magnitudeSpectrum))
  /\ forall o',
       calculateMelFrequencyCepstralCoefficients logf cosf o magnitudeSpectrum = Some o' ->
       wellFormed o' /\ filterBank o' = filterBank o.
Proof.
  intros (Hn & Hs & Hmel & Hmf & Hdct & Hbank & Hrows).
  assert (Un : u32 (numCoefficents o) = numCoefficents o)
    by (unfold u32, wrap, UINT_BITS; apply Z.mod_small; lia).
  assert (Us : u32 (magnitudeSpectrumSize o) = magnitudeSpectrumSize o)
    by (unfold u32, wrap, UINT_BITS; apply Z.mod_small; lia).
  unfold calculateMelFrequencyCepstralCoefficients, calculateMelFrequencySpectrum,
    discreteCosineTransform, withArrays. cbn [numCoefficents MFCCs dctSignal].
  rewrite Un, Us.
  set (n := Z.to_nat (numCoefficents o)) in *.
  set (size := Z.to_nat (magnitudeSpectrumSize o)) in *.
  split; [split|].
  - intro H.
    destruct (Z.eq_dec (numCoefficents o) 0) as [|Hne]; [left; assumption|right].
    destruct (Z.le_gt_cases (magnitudeSpectrumSize o)
                (Z.of_nat (length magnitudeSpectrum))) as [|Hgt]; [assumption|].
    exfalso. apply H.
    replace (seq 0 n) with (O :: seq 1 (n - 1))
      by (destruct n as [|n'] eqn:E; [lia|cbn; rewrite Nat.sub_0_r; reflexivity]).
    cbn [melLoop]. rewrite melCoefficient_fault; [reflexivity|].
    exists (length magnitudeSpectrum). split; [apply in_seq; lia|lia].
  - intro H.
    assert (Hmelloop : exists mel,
              melLoop magnitudeSpectrum (filterBank o) size (seq 0 n) (melSpectrum o)
              = Some mel /\ length mel = n).
    { destruct H as [H0|Hle].
      - replace n with O by lia. cbn. exists (melSpectrum o). split; [reflexivity|].
        rewrite Hmel. lia.
      - destruct (melLoop_total magnitudeSpectrum (filterBank o) size (seq 0 n))
          with (mel := melSpectrum o) as (mel & Hm & Hl); [lia|exact Hrows| |].
        + intros i Hi. apply in_seq in Hi. lia.
        + exists mel. split; [exact Hm|]. rewrite Hl. exact Hmel. }
    destruct Hmelloop as (mel & -> & Hlmel). cbn [bind].
    destruct (logLoop_total mel (seq 0 n) (MFCCs o)) as (logs & -> & Hll).
    { intros i Hi. apply in_seq in Hi. lia. }
    cbn [bind].
    destruct (copyIn_total logs (seq 0 n) (dctSignal o)) as (dct & -> & Hld).
    { intros i Hi. apply in_seq in Hi. lia. }
    cbn [bind].
    match goal with |- context [cosineLoop cosf dct ?p n (seq 0 n) logs] =>
      destruct (cosineLoop_total dct p n (seq 0 n)) with (out := logs)
        as (out & -> & Hlo) end; [lia| |].
    { intros k Hk. apply in_seq in Hk. lia. }
    cbn [bind]. discriminate.
  - intros o' H.
    apply bind_Some in H as (mel & Hm & H).
    apply bind_Some in H as (logs & Hlg & H).
    apply bind_Some in H as ([dct out] & Hd & H).
    injection H as <-.
    apply bind_Some in Hd as (dct' & Hc & Hd).
    apply bind_Some in Hd as (out' & Hco & Hd).
    injection Hd as <- <-.
    split; [|reflexivity].
    apply melLoop_length in Hm. apply logLoop_length in Hlg.
    apply copyIn_length in Hc. apply cosineLoop_length in Hco.
    unfold wellFormed. cbn [numCoefficents magnitudeSpectrumSize melSpectrum
                            MFCCs dctSignal filterBank].
    repeat split; try lia; try assumption; congruence.
Qed.

Lemma logLoop_constant (mel : list F32.t) (e0 : F32.t) (idxs : list nat) :
  (forall i, In i idxs -> nth_error mel i = Some e0) ->
  forall out,
    (forall i, In i idxs -> (i < length out)%nat) ->
    exists out',
      logLoop logf mel idxs out = Some out'
      /\ length out' = length out
      /\ forall j, nth_error out' j
                   = if in_dec Nat.eq_dec j idxs
                     then Some (logf (F32.add e0 FLT_MIN))
                     else nth_error out j.
Proof.
  intro Hm. induction idxs as [|i idxs IH]; intros out H; cbn [logLoop].
  - exists out. repeat split.
  - rewrite (Hm i (or_introl eq_refl)). cbn [bind].
    match goal with |- context [upd_nth i ?v out] =>
      destruct (upd_nth_In_range i v out (H i (or_introl eq_refl))) as (out1 & Hu);
      rewrite Hu end.
    cbn [bind]. pose proof (upd_nth_length _ _ _ _ Hu) as Hl.
    destruct (IH (fun i' Hi' => Hm i' (or_intror Hi')) out1) as (out' & -> & Hl' & Hnth).
    { intros i' Hi'. rewrite Hl. apply H. right. exact Hi'. }
    exists out'. split; [reflexivity|]. split; [congruence|].
    intro j. rewrite Hnth.
    destruct (in_dec Nat.eq_dec j idxs) as [Hj|Hj];
      destruct (in_dec Nat.eq_dec j (i :: idxs)) as [Hj'|Hj']; try reflexivity.
    + exfalso. apply Hj'. right. exact Hj.
    + destruct Hj' as [<-|Hj']; [|contradiction].
      apply (upd_nth_same _ _ _ _ Hu).
    + apply (upd_nth_other _ _ _ _ _ Hu). intros ->. apply Hj'. left. reflexivity.
Qed.

Lemma copyIn_constant (src : list F32.t) (c : F32.t) (idxs : list nat) :
  (forall i, In i idxs -> nth_error src i = Some c) ->
  forall dst,
    (forall i, In i idxs -> (i < length dst)%nat) ->
    exists dst',
      copyIn src idxs dst = Some dst'
      /\ length dst' = length dst
      /\ forall j, nth_error dst' j
                   = if in_dec Nat.eq_dec j idxs then Some c else nth_error dst j.
Proof.
  intro Hm. induction idxs as [|i idxs IH]; intros dst H; cbn [copyIn].
  - exists dst. repeat split.
  - rewrite (Hm i (or_introl eq_refl)). cbn [bind].
    destruct (upd_nth_In_range i c dst (H i (or_introl eq_refl))) as (dst1 & Hu).
    rewrite Hu. cbn [bind]. pose proof (upd_nth_length _ _ _ _ Hu) as Hl.
    destruct (IH (fun i' Hi' => Hm i' (or_intror Hi')) dst1) as (dst' & -> & Hl' & Hnth).
    { intros i' Hi'. rewrite Hl. apply H. right. exact Hi'. }
    exists dst'. split; [reflexivity|]. split; [congruence|].
    intro j. rewrite Hnth.
    destruct (in_dec Nat.eq_dec j idxs) as [Hj|Hj];
      destruct (in_dec Nat.eq_dec j (i :: idxs)) as [Hj'|Hj']; try reflexivity.
    + exfalso. apply Hj'. right. exact Hj.
    + destruct Hj' as [<-|Hj']; [|contradiction].
      apply (upd_nth_same _ _ _ _ Hu).
    + apply (upd_nth_other _ _ _ _ _ Hu). intros ->. apply Hj'. left. reflexivity.
Qed.

(** X30.  The MFCC computation on a silent spectrum.  With finite filter
    weights and zeros in the first [magnitudeSpectrumSize] bins, the
    computation completes, every mel energy is 0, and the cosine transform
    starts from the constant vector log(FLT_MIN), the logarithm on [float]:
    the added [FLT_MIN] keeps the logarithm away from 0. *)
Theorem calculateMelFrequencyCepstralCoefficients_silent
  (o : t) (magnitudeSpectrum : list F32.t) :
  let n := Z.to_nat (numCoefficents o) in
  wellFormed o ->
  finiteWeights o ->
  SoundAnalyzer.silent magnitudeSpectrum (Z.to_nat (magnitudeSpectrumSize o)) ->
  exists o',
    calculateMelFrequencyCepstralCoefficients logf cosf o magnitudeSpectrum = Some o'
    /\ melSpectrum o' = repeat IEEE.zero n
    /\ dctSignal o' = repeat (logf FLT_MIN) n.
Proof.
  intros n (Hn & Hs & Hmel & Hmf & Hdct & Hbank & Hrows) Hfin Hsil.
  assert (Un : u32 (numCoefficents o) = numCoefficents o)
    by (unfold u32, wrap, UINT_BITS; apply Z.mod_small; lia).
  assert (Us : u32 (magnitudeSpectrumSize o) = magnitudeSpectrumSize o)
    by (unfold u32, wrap, UINT_BITS; apply Z.mod_small; lia).
  unfold calculateMelFrequencyCepstralCoefficients, calculateMelFrequencySpectrum,
    discreteCosineTransform, withArrays. cbn [numCoefficents MFCCs dctSignal].
  rewrite Un, Us. fold n.
  destruct (melLoop_silent magnitudeSpectrum (filterBank o)
              (Z.to_nat (magnitudeSpectrumSize o)) (seq 0 n) Hfin Hrows Hsil
              (melSpectrum o)) as (mel & -> & Hlm & Hnm).
  { intros i Hi. apply in_seq in Hi. lia. }
  cbn [bind].
  assert (Emel : mel = repeat IEEE.zero n).
  { apply written; [exact (eq_trans Hlm Hmel)|]. intros j Hj. rewrite Hnm.
    destruct (in_dec Nat.eq_dec j (seq 0 n)) as [|Hx]; [reflexivity|].
    exfalso. apply Hx, in_seq. lia. }
  destruct (logLoop_constant mel IEEE.zero (seq 0 n)) with (out := MFCCs o)
    as (logs & -> & Hll & Hnl).
  { intros i Hi. apply in_seq in Hi. rewrite Emel.
    destruct (nth_error_Some_ex (repeat IEEE.zero n) i) as (x & Hx);
      [rewrite repeat_length; lia|].
    unfold F32.t in *. rewrite Hx. apply nth_error_In, repeat_spec in Hx.
    rewrite Hx. reflexivity. }
  { intros i Hi. apply in_seq in Hi. lia. }
  cbn [bind].
  change (F32.add IEEE.zero FLT_MIN) with FLT_MIN in Hnl.
  destruct (copyIn_constant logs (logf FLT_MIN)
              (seq 0 n)) with (dst := dctSignal o) as (dct & -> & Hld & Hnd).
  { intros i Hi. rewrite Hnl.
    destruct (in_dec Nat.eq_dec i (seq 0 n)); [reflexivity|contradiction]. }
  { intros i Hi. apply in_seq in Hi. lia. }
  cbn [bind].
  match goal with |- context [cosineLoop cosf dct ?p n (seq 0 n) logs] =>
    destruct (cosineLoop_total dct p n (seq 0 n)) with (out := logs)
      as (out & -> & Hlo) end; [lia| |].
  { intros k Hk. apply in_seq in Hk. lia. }
  cbn [bind]. eexists. split; [reflexivity|].
  cbn [melSpectrum dctSignal]. split; [exact Emel|].
  apply written; [exact (eq_trans Hld Hdct)|]. intros j Hj. rewrite Hnd.
  destruct (in_dec Nat.eq_dec j (seq 0 n)) as [|Hx]; [reflexivity|].
  exfalso. apply Hx, in_seq. lia.
Qed.

End MelCepstrum.

(** the object of [ExampleMfcc] has the sizes and the weights that the two
    theorems ask for *)
Lemma ExampleMfcc_wellFormed : MFCC_h.wellFormed ExampleMfcc.
Proof.
  unfold MFCC_h.wellFormed. cbn.
  repeat split; try lia.
  intros row [<- | [<- | []]]; reflexivity.
Defined.

Lemma ExampleMfcc_finiteWeights : MFCC_h.finiteWeights ExampleMfcc.
Proof.
  intros row w Hrow Hw. cbn in Hrow.
  destruct Hrow as [<- | [<- | []]]; cbn in Hw;
    repeat (destruct Hw as [<- | Hw]); try contradiction;
    (split; [discriminate | intro s; discriminate]).
Defined.

Lemma calculateMelFrequencyCepstralCoefficients_defined_witness :
  MFCC_h.wellFormed ExampleMfcc
  /\ (MFCC_h.calculateMelFrequencyCepstralCoefficients (fun x => x) (fun x => x)
        ExampleMfcc (map F32.of_Z [1; 2]) = None)
  /\ (MFCC_h.calculateMelFrequencyCepstralCoefficients (fun x => x) (fun x => x)
        ExampleMfcc (map F32.of_Z [1; 2; 3]) <> None).
Proof.
  split; [exact ExampleMfcc_wellFormed|]. split.
  - destruct (MFCC_h.calculateMelFrequencyCepstralCoefficients _ _ _ _) eqn:E;
      [|reflexivity].
    exfalso.
    pose proof (calculateMelFrequencyCepstralCoefficients_defined
                  (fun x => x) (fun x => x) ExampleMfcc (map F32.of_Z [1; 2])
                  ExampleMfcc_wellFormed) as (Hshort & _).
    rewrite E in Hshort.
    destruct (proj1 Hshort ltac:(discriminate)) as [H | H]; cbn in H; lia.
  - apply (calculateMelFrequencyCepstralCoefficients_defined
             (fun x => x) (fun x => x) ExampleMfcc (map F32.of_Z [1; 2; 3])
             ExampleMfcc_wellFormed).
    right. cbn. lia.
Defined.

Lemma calculateMelFrequencyCepstralCoefficients_silent_witness :
  MFCC_h.wellFormed ExampleMfcc
  /\ MFCC_h.finiteWeights ExampleMfcc
  /\ SoundAnalyzer.silent [IEEE.zero; S754_zero true; IEEE.zero]
       (Z.to_nat (MFCC_h.magnitudeSpectrumSize ExampleMfcc))
  /\ exists o',
       MFCC_h.calculateMelFrequencyCepstralCoefficients (fun x => x) (fun x => x)
         ExampleMfcc [IEEE.zero; S754_zero true; IEEE.zero] = Some o'
       /\ MFCC_h.melSpectrum o' = repeat IEEE.zero 2
       /\ MFCC_h.dctSignal o'
          = repeat MFCC_h.FLT_MIN 2.
Proof.
  assert (H3 : SoundAnalyzer.silent [IEEE.zero; S754_zero true; IEEE.zero]
                 (Z.to_nat (MFCC_h.magnitudeSpectrumSize ExampleMfcc))).
  { intros j Hj. cbn in Hj.
    destruct j as [|[|[|j]]]; cbn; [eexists; reflexivity ..|lia]. }
  exact (conj ExampleMfcc_wellFormed (conj ExampleMfcc_finiteWeights (conj H3
           (calculateMelFrequencyCepstralCoefficients_silent
              (fun x => x) (fun x => x) ExampleMfcc _
              ExampleMfcc_wellFormed ExampleMfcc_finiteWeights H3)))).
Defined.
